(** * div128: constants for 128-bit division by a power of a radix

    A shallow embedding of [lexical-util/etc/div128.py] and the
    verification of its specification.

    Python integers are unbounded, so every integer of the script is a [Z];
    [>>] is [Z.shiftr], [&] is [Z.land], [//] is [Z.div] and [%] is
    [Z.modulo] (both floor towards minus infinity, like Python's).  The
    script also uses binary64 floating point in three places:

    - [u128_max / (x**2)] in [is_valid]: the true division of two integers,
      which CPython rounds correctly (to nearest, ties to even).  It is
      modelled exactly, see [truediv];
    - [math.log] and [math.log2], whose last bit depends on the platform's
      C library.  They are the fields of the interface [Libm]; theorems
      that need them to be accurate say so in a hypothesis;
      [exact_libm] is the instance that makes no rounding error, and
      [binary64_libm] the one whose only error is the conversion of the
      integer argument to binary64.

    A [while] loop is run with fuel: [OutOfFuel] stands for a loop that has
    not finished yet, and a result is only claimed for all large enough
    amounts of fuel. *)

From Stdlib Require Import ZArith Lia Bool List String QArith.
Import ListNotations.

#[local] Open Scope Z_scope.

(* ================================================================= *)
(** ** Exceptions and results *)

Inductive exn : Set :=
| ZeroDivisionError
| ValueError
| OverflowError.

Inductive result (A : Type) : Type :=
| Ok (a : A)
| Raise (e : exn)
| OutOfFuel.

Arguments Ok {A} a.
Arguments Raise {A} e.
Arguments OutOfFuel {A}.

Definition bind {A B : Type} (r : result A) (k : A -> result B) : result B :=
  match r with
  | Ok a => k a
  | Raise e => Raise e
  | OutOfFuel => OutOfFuel
  end.

Notation "x <- r ;; k" := (bind r (fun x => k))
  (at level 61, r at next level, right associativity).
Notation "' p <- r ;; k" := (bind r (fun x => let p := x in k))
  (at level 61, p pattern, r at next level, right associativity).

(** [while_ fuel cond body s]: the loop [while cond(s): s = body(s)].  One
    unit of fuel is spent on every evaluation of the condition. *)
Fixpoint while_ {S : Type} (fuel : nat) (cond : S -> result bool)
         (body : S -> S) (s : S) : result S :=
  match fuel with
  | O => OutOfFuel
  | Datatypes.S fuel' =>
      b <- cond s ;;
      if b then while_ fuel' cond body (body s) else Ok s
  end.

(* ================================================================= *)
(** ** The C library *)

(** The three ways the script uses [math.log] and [math.log2]. Each field
    is the integer the script derives from the floating-point result. *)
Class Libm : Type := {
  (** [int(math.floor(math.log(x, base)))] for [x > 0], [base > 1] *)
  floor_log : Z -> Z -> Z;
  (** [math.ceil(math.log2(x))] for [x > 0] *)
  ceil_log2 : Z -> Z;
  (** [int(math.log2(x))] for [x > 0] *)
  int_log2 : Z -> Z
}.

(** Largest [d] in [0, fuel] with [base^(d) <= x], searching upwards. *)
Fixpoint floor_log_exact_aux (fuel : nat) (base x acc d : Z) : Z :=
  match fuel with
  | O => d
  | S fuel' =>
      if acc * base <=? x
      then floor_log_exact_aux fuel' base x (acc * base) (d + 1)
      else d
  end.

(** A C library without rounding error. *)
Definition exact_libm : Libm := {|
  floor_log x base := floor_log_exact_aux (Z.to_nat (Z.log2 x)) base x 1 0;
  ceil_log2 x := Z.log2_up x;
  int_log2 x := Z.log2 x
|}.

(** A C library whose [math.log] is off by [delta] units once floored. *)
Definition shifted_libm (delta : Z) : Libm := {|
  floor_log x base := floor_log (Libm := exact_libm) x base + delta;
  ceil_log2 x := Z.log2_up x;
  int_log2 x := Z.log2 x
|}.

(* ================================================================= *)
(** ** Constants *)

Definition u64_max : Z := 2 ^ 64 - 1.
Definition u128_max : Z := 2 ^ 128 - 1.

(* ================================================================= *)
(** ** Binary64 values and the true division of integers *)

(** Every finite binary64 number is an integer multiple of [2^-1074], the
    smallest positive subnormal.  A float is represented by that integer. *)
Record float : Set := Float { units : Z }.

Definition ulp_exp : Z := 1074.

(** [n/d] rounded to the nearest integer, ties to even ([d > 0]). *)
Definition round_half_even (n d : Z) : Z :=
  let q := n / d in
  let r := n mod d in
  if 2 * r <? d then q
  else if d <? 2 * r then q + 1
  else if Z.even q then q else q + 1.

(** [a/b] for [a >= 0], [b > 0], rounded to 53 significant bits (fewer in
    the subnormal range), in units of [2^-1074]. *)
Definition truediv_units (a b : Z) : Z :=
  let n := a * 2 ^ ulp_exp in
  let e := Z.max (Z.log2 (n / b) - 52) 0 in
  round_half_even n (b * 2 ^ e) * 2 ^ e.

(** Python's [a / b] on integers. *)
Definition truediv (a b : Z) : result float :=
  if b =? 0 then Raise ZeroDivisionError
  else
    let f := truediv_units (Z.abs a) (Z.abs b) in
    if 2 ^ (1024 + ulp_exp) <=? f then Raise OverflowError
    else Ok (Float (Z.sgn a * Z.sgn b * f)).

(** Python's [f < x] for a float [f] and an integer [x]: the comparison
    is exact. *)
Definition float_lt_int (f : float) (x : Z) : bool :=
  units f <? x * 2 ^ ulp_exp.

(** Python's conversion of an integer [x >= 0] to binary64 (below the
    overflow threshold), as the integer it denotes: [x] rounded to 53
    significant bits, ties to even.  [math.log] and [math.log2] convert
    their integer argument this way before anything else. *)
Definition to_binary64 (x : Z) : Z :=
  let e := Z.max (Z.log2 x - 52) 0 in
  round_half_even x (2 ^ e) * 2 ^ e.

(** A C library that sees its argument after the conversion to binary64
    and makes no further error. *)
Definition binary64_libm : Libm := {|
  floor_log x base := floor_log (Libm := exact_libm) (to_binary64 x) base;
  ceil_log2 x := Z.log2_up (to_binary64 x);
  int_log2 x := Z.log2 (to_binary64 x)
|}.

(* ================================================================= *)
(** ** [is_valid] and [find_power] *)

(** [x <= u64_max and (u128_max / (x**2)) < x]; [and] evaluates its
    second operand only when the first is true. *)
Definition is_valid (x : Z) : result bool :=
  if x <=? u64_max then
    f <- truediv u128_max (x ^ 2) ;;
    Ok (float_lt_int f x)
  else Ok false.

(** [find_power(radix)].  [math.log] rejects a base that is not positive
    and divides by [log(1) = 0] for base 1.  [radix ** start_power] is an
    integer when [start_power >= 0], the only case the theorems below
    reach. *)
Definition find_power {M : Libm} (fuel : nat) (radix : Z) : result Z :=
  if radix <=? 0 then Raise ValueError
  else if radix =? 1 then Raise ZeroDivisionError
  else
    let start_power := floor_log u64_max radix - 1 in
    start_power <- while_ fuel (fun p => is_valid (radix ^ p))
                                 (fun p => p + 1) start_power ;;
    Ok (start_power - 1).

(* ================================================================= *)
(** ** [choose_multiplier], [fast_shift], [is_pow2] *)

(** [choose_multiplier(divisor, bits, is_signed)].  [math.log2] rejects a
    divisor that is not positive, so the two floor divisions that follow
    divide by a positive number.  The loop state is
    [(m_low, m_high, sh_post)]. *)
Definition choose_multiplier {M : Libm} (fuel : nat) (divisor bits : Z)
           (is_signed : bool) : result (Z * Z * Z) :=
  let precision := if is_signed then bits - 1 else bits in
  if divisor <=? 0 then Raise ValueError
  else
    let div_bits := ceil_log2 divisor in
    let sh_post := div_bits in
    let m_low := 2 ^ (bits + div_bits) / divisor in
    let m_high :=
      (2 ^ (bits + div_bits) + 2 ^ (bits + div_bits - precision)) / divisor in
    '(m_low, m_high, sh_post) <-
      while_ fuel
        (fun '(m_low, m_high, sh_post) =>
           Ok ((m_low / 2 <? m_high / 2) && (0 <? sh_post)))
        (fun '(m_low, m_high, sh_post) =>
           (m_low / 2, m_high / 2, sh_post - 1))
        (m_low, m_high, sh_post) ;;
    Ok (m_high, sh_post, div_bits).

(** [fast_shift(divisor)]: the loop counts the trailing zero bits. *)
Definition fast_shift (fuel : nat) (divisor : Z) : result Z :=
  while_ fuel (fun n => Ok (divisor mod 2 ^ (n + 1) =? 0))
              (fun n => n + 1) 0.

(** [is_pow2(radix)]: [radix == 2**int(math.log2(radix))]. *)
Definition is_pow2 {M : Libm} (radix : Z) : result bool :=
  if radix <=? 0 then Raise ValueError
  else Ok (radix =? 2 ^ int_log2 radix).

(* ================================================================= *)
(** ** The generated items *)

(** Python's [a // b]. *)
Definition floordiv (a b : Z) : result Z :=
  if b =? 0 then Raise ZeroDivisionError else Ok (a / b).

(** Python's [bin]. *)
Fixpoint bin_digits (p : positive) : string :=
  match p with
  | xH => "1"
  | xO q => bin_digits q ++ "0"
  | xI q => bin_digits q ++ "1"
  end.

Definition bin (z : Z) : string :=
  match z with
  | Z0 => "0b0"
  | Zpos p => "0b" ++ bin_digits p
  | Zneg p => "-0b" ++ bin_digits p
  end.

Definition len (s : string) : Z := Z.of_nat (String.length s).

(** What the four [print_*] functions write: the Rust function
    [u128_divrem_<radix>] calls one of four kernels on the formatted
    constants, and [u64_step_<radix>] returns [digits].  An item records
    the kernel and the constants, in the order they are formatted. *)
Inductive item : Set :=
| Pow2Divrem (radix mask shr digits : Z)
| FastDivrem (radix divisor fast fast_shr factor factor_shr digits : Z)
| ModerateDivrem (radix divisor factor factor_shr digits : Z)
| SlowDivrem (radix divisor ctlz digits : Z).

Definition print_pow2 {M : Libm} (radix : Z) : result item :=
  if radix <=? 0 then Raise ValueError
  else
    let log2 := int_log2 radix in
    digits <- floordiv 64 log2 ;;
    let shr := digits * log2 in
    let mask := Z.shiftl 1 shr - 1 in
    Ok (Pow2Divrem radix mask shr digits).

Definition print_fast (radix divisor fast_shr factor factor_shr digits : Z)
  : item :=
  let fast := Z.shiftl 1 (64 + fast_shr) in
  FastDivrem radix divisor fast fast_shr factor factor_shr digits.

Definition print_moderate (radix divisor factor factor_shr digits : Z)
  : item :=
  ModerateDivrem radix divisor factor factor_shr digits.

Definition print_slow (radix divisor digits : Z) : item :=
  let ctlz := 66 - len (bin divisor) in
  SlowDivrem radix divisor ctlz digits.

(** The body of the [for] loop of [divisor_constants], for one radix. *)
Definition divisor_constant {M : Libm} (fuel : nat) (radix : Z) : result item :=
  p <- is_pow2 radix ;;
  if p then print_pow2 radix
  else
    digits <- find_power fuel radix ;;
    let divisor := radix ^ digits in
    fast_shr <- fast_shift fuel divisor ;;
    '(factor, factor_shr, _) <- choose_multiplier fuel divisor 128 false ;;
    if 2 ^ 128 <=? factor then Ok (print_slow radix divisor digits)
    else if negb (fast_shr =? 0)
         then Ok (print_fast radix divisor fast_shr factor factor_shr digits)
         else Ok (print_moderate radix divisor factor factor_shr digits).

Fixpoint for_each {A B : Type} (f : A -> result B) (l : list A)
  : result (list B) :=
  match l with
  | [] => Ok []
  | a :: l' => b <- f a ;; bs <- for_each f l' ;; Ok (b :: bs)
  end.

(** [range(2, 37)] *)
Definition radices : list Z := map Z.of_nat (seq 2 35).

Definition divisor_constants {M : Libm} (fuel : nat) : result (list item) :=
  for_each (divisor_constant fuel) radices.

(** The four algorithms of the specification. *)
Inductive tier : Set := PowerOfTwo | Fast | Moderate | Slow.

Definition tier_of (i : item) : tier :=
  match i with
  | Pow2Divrem _ _ _ _ => PowerOfTwo
  | FastDivrem _ _ _ _ _ _ _ => Fast
  | ModerateDivrem _ _ _ _ _ => Moderate
  | SlowDivrem _ _ _ _ => Slow
  end.

(* ================================================================= *)
(** ** The division in Python: [u128_mulhi] and [udiv128] *)

(** The local variables of [u128_mulhi], and the two sums that are
    shifted or returned. *)
Record mulhi_vars : Set := MulhiVars {
  x_lo : Z; x_hi : Z; y_lo : Z; y_hi : Z;
  carry : Z; m : Z; high1 : Z; m_lo : Z;
  high2_sum : Z; high2 : Z; mulhi_ret : Z
}.

Definition lo_mask : Z := Z.shiftl 1 64 - 1.

Definition u128_mulhi_vars (x y : Z) : mulhi_vars :=
  let x_lo := Z.land x lo_mask in
  let x_hi := Z.shiftr x 64 in
  let y_lo := Z.land y lo_mask in
  let y_hi := Z.shiftr y 64 in
  let carry := Z.shiftr (x_lo * y_lo) 64 in
  let m := x_lo * y_hi + carry in
  let high1 := Z.shiftr m 64 in
  let m_lo := Z.land m lo_mask in
  let high2_sum := x_hi * y_lo + m_lo in
  let high2 := Z.shiftr high2_sum 64 in
  MulhiVars x_lo x_hi y_lo y_hi carry m high1 m_lo high2_sum high2
            (x_hi * y_hi + high1 + high2).

Definition u128_mulhi (x y : Z) : Z := mulhi_ret (u128_mulhi_vars x y).

(** [udiv128(n, divisor)]; the default divisor is [10**19]. *)
Definition udiv128 {M : Libm} (fuel : nat) (n divisor : Z) : result (Z * Z) :=
  '(factor, factor_shr, _) <- choose_multiplier fuel divisor 128 false ;;
  shr <- fast_shift fuel divisor ;;
  quotient <-
    (if n <? Z.shiftl 1 (64 + shr)
     then floordiv (Z.shiftr n shr) (Z.shiftr divisor shr)
     else Ok (Z.shiftr (u128_mulhi n factor) factor_shr)) ;;
  let remainder := n - quotient * divisor in
  Ok (quotient, remainder).

Definition default_divisor : Z := 10 ^ 19.

(* ================================================================= *)
(** ** Definitions of the specification *)

(** The least integer whose cube exceeds [2^128 - 1]. *)
Definition min_valid : Z := 6981463658332.

(** Validity as the specification writes it, with an exact quotient. *)
Definition valid (x : Z) : Prop :=
  x <= 2 ^ 64 - 1 /\
  (inject_Z (2 ^ 128 - 1) / inject_Z (x ^ 2) < inject_Z x)%Q.

(** The algorithm in the words of the specification:
    [divisor_bit_length] is the exact [ceil(log2(divisor))]; the two
    multipliers are halved, and the shift decremented, while the halves
    differ and the shift is positive.  The shift bounds the number of
    rounds. *)
Fixpoint halve (rounds : nat) (m_low m_high post_shift : Z) : Z * Z :=
  match rounds with
  | O => (m_high, post_shift)
  | S rounds' =>
      if (m_low / 2 <? m_high / 2) && (0 <? post_shift)
      then halve rounds' (m_low / 2) (m_high / 2) (post_shift - 1)
      else (m_high, post_shift)
  end.

Definition choose_multiplier_spec (divisor bits : Z)
           (is_signed : bool) : Z * Z * Z :=
  let precision := bits - (if is_signed then 1 else 0) in
  let divisor_bit_length := Z.log2_up divisor in
  let m_low := 2 ^ (bits + divisor_bit_length) / divisor in
  let m_high :=
    (2 ^ (bits + divisor_bit_length)
     + 2 ^ (bits + divisor_bit_length - precision)) / divisor in
  let '(m_high, post_shift) :=
    halve (Z.to_nat divisor_bit_length) m_low m_high divisor_bit_length in
  (m_high, post_shift, divisor_bit_length).

(** The two multipliers of [choose_multiplier] for the shift [s], when
    [is_signed] is false. *)
Definition m_low_at (divisor bits s : Z) : Z := 2 ^ (bits + s) / divisor.
Definition m_high_at (divisor bits s : Z) : Z :=
  (2 ^ (bits + s) + 2 ^ s) / divisor.

(** What makes the multiplier [m] with shift [s] divide exactly. *)
Definition reciprocal (divisor bits m s : Z) : Prop :=
  0 <= s /\ 2 ^ (bits + s) <= m * divisor <= 2 ^ (bits + s) + 2 ^ s.

(** Python's [int.bit_length]: the number of binary digits. *)
Definition bit_length (z : Z) : Z :=
  if z =? 0 then 0 else Z.log2 (Z.abs z) + 1.

(** The divisor carried by an item, if it has one. *)
Definition divisor_of (i : item) : option Z :=
  match i with
  | Pow2Divrem _ _ _ _ => None
  | FastDivrem _ divisor _ _ _ _ _ => Some divisor
  | ModerateDivrem _ divisor _ _ _ => Some divisor
  | SlowDivrem _ divisor _ _ => Some divisor
  end.

(** The multiplier carried by an item, if it has one. *)
Definition multiplier_of (i : item) : option Z :=
  match i with
  | FastDivrem _ _ _ _ factor _ _ => Some factor
  | ModerateDivrem _ _ factor _ _ => Some factor
  | _ => None
  end.

(** The radix and the digit count written in an item. *)
Definition radix_of (i : item) : Z :=
  match i with
  | Pow2Divrem radix _ _ _ => radix
  | FastDivrem radix _ _ _ _ _ _ => radix
  | ModerateDivrem radix _ _ _ _ => radix
  | SlowDivrem radix _ _ _ => radix
  end.

Definition digits_of (i : item) : Z :=
  match i with
  | Pow2Divrem _ _ _ digits => digits
  | FastDivrem _ _ _ _ _ _ digits => digits
  | ModerateDivrem _ _ _ _ digits => digits
  | SlowDivrem _ _ _ digits => digits
  end.

(** The upper multiplier of [choose_multiplier] for the shift [s], when
    [bits - precision] is [c]: 0 for unsigned, 1 for signed. *)
Definition m_high_prec (divisor bits c s : Z) : Z :=
  (2 ^ (bits + s) + 2 ^ (s + c)) / divisor.

(** [bits - precision] in [choose_multiplier]. *)
Definition precision_gap (is_signed : bool) : Z := if is_signed then 1 else 0.

(** The quotient by the two branches of [udiv128], with the constants
    taken from a Fast item instead of being computed. *)
Definition fast_quotient (n divisor fast fast_shr factor factor_shr : Z)
  : Z :=
  if n <? fast
  then Z.shiftr n fast_shr / Z.shiftr divisor fast_shr
  else Z.shiftr (u128_mulhi n factor) factor_shr.

(* ================================================================= *)
(** * Verification *)

(** ** Arithmetic used throughout *)

Lemma pow2_pos (k : Z) : 0 <= k -> 0 < 2 ^ k.
Proof. intros. apply Z.pow_pos_nonneg; lia. Qed.

Lemma pow2_succ (k : Z) : 0 <= k -> 2 ^ (k + 1) = 2 * 2 ^ k.
Proof. intros. rewrite Z.pow_add_r by lia. lia. Qed.

Lemma div_lower (a b : Z) : 0 < b -> a / b * b <= a.
Proof. intros. pose proof (Z.mul_div_le a b). lia. Qed.

Lemma div_upper (a b : Z) : 0 < b -> a < (a / b + 1) * b.
Proof.
  intros Hb. pose proof (Z.div_mod a b) as E.
  pose proof (Z.mod_pos_bound a b Hb). lia.
Qed.

(** [q] is the floor of [a/b] as soon as [a] lies in the [q]-th block. *)
Lemma div_unique_bounds (a b q : Z) :
  0 < b -> q * b <= a < (q + 1) * b -> a / b = q.
Proof.
  intros Hb [Hl Hu]. symmetry.
  apply (Z.div_unique a b q (a - q * b)); lia.
Qed.

(** ** The loop combinator *)

(** More fuel does not change a result. *)
Lemma while_fuel_mono {S : Type} (cond : S -> result bool) (body : S -> S) :
  forall (fuel fuel' : nat) (s r : S),
    (fuel <= fuel')%nat ->
    while_ fuel cond body s = Ok r ->
    while_ fuel' cond body s = Ok r.
Proof.
  induction fuel as [|fuel IH]; intros fuel' s r Hle Hrun; [discriminate|].
  destruct fuel' as [|fuel']; [lia|].
  simpl in *. destruct (cond s) as [[|]| |]; simpl in *;
    try discriminate; auto.
  apply IH; [lia|assumption].
Qed.

(** An exception, too, is final. *)
Lemma while_fuel_mono_raise {S : Type} (cond : S -> result bool)
      (body : S -> S) :
  forall (fuel fuel' : nat) (s : S) (e : exn),
    (fuel <= fuel')%nat ->
    while_ fuel cond body s = Raise e ->
    while_ fuel' cond body s = Raise e.
Proof.
  induction fuel as [|fuel IH]; intros fuel' s e Hle Hrun; [discriminate|].
  destruct fuel' as [|fuel']; [lia|].
  simpl in *. destruct (cond s) as [[|]| |]; simpl in *;
    try discriminate; auto.
  apply IH; [lia|assumption].
Qed.

(** ** [u128_mulhi] *)

Lemma lo_mask_ones : lo_mask = Z.ones 64.
Proof. reflexivity. Qed.

(** The limbs recombine to the high half of the product; this holds for
    all integers, of any size. *)
Lemma u128_mulhi_div (x y : Z) : u128_mulhi x y = x * y / 2 ^ 128.
Proof.
  unfold u128_mulhi, u128_mulhi_vars; cbn [mulhi_ret].
  rewrite lo_mask_ones, !Z.land_ones, !Z.shiftr_div_pow2 by lia.
  set (B := 2 ^ 64).
  assert (HB : 0 < B) by (apply pow2_pos; lia).
  set (xl := x mod B). set (xh := x / B).
  set (yl := y mod B). set (yh := y / B).
  assert (Ex : x = xh * B + xl)
    by (unfold xh, xl; pose proof (Z.div_mod x B); lia).
  assert (Ey : y = yh * B + yl)
    by (unfold yh, yl; pose proof (Z.div_mod y B); lia).
  clearbody xl xh yl yh. subst x y.
  set (c := xl * yl / B). set (mm := xl * yh + c).
  replace (2 ^ 128) with (B * B) by reflexivity.
  rewrite <- Z.div_div by lia.
  assert (E1 : (xh * B + xl) * (yh * B + yl) / B
               = xh * yh * B + (xh * yl + mm)).
  { replace ((xh * B + xl) * (yh * B + yl))
      with ((xh * yh * B + xh * yl + xl * yh) * B + xl * yl) by ring.
    rewrite Z.div_add_l by lia. unfold mm, c. ring. }
  rewrite E1, Z.div_add_l by lia.
  assert (Em : mm / B * B + mm mod B = mm)
    by (pose proof (Z.div_mod mm B); lia).
  replace (xh * yl + mm) with (mm / B * B + (xh * yl + mm mod B))
    by (rewrite <- Em at 3; ring).
  rewrite Z.div_add_l by lia. ring.
Qed.

Lemma limb_bounds (x : Z) :
  0 <= x <= u128_max ->
  0 <= x mod 2 ^ 64 <= u64_max /\ 0 <= x / 2 ^ 64 <= u64_max.
Proof.
  unfold u128_max, u64_max. intros [H0 H1].
  pose proof (Z.mod_pos_bound x (2 ^ 64) ltac:(lia)).
  split; [lia|]. split; [apply Z.div_pos; lia|].
  assert (x / 2 ^ 64 < 2 ^ 64); [|lia].
  apply Z.div_lt_upper_bound; [lia|].
  change (2 ^ 64 * 2 ^ 64) with (2 ^ 128). lia.
Qed.

(** Every variable of [u128_mulhi] fits in 128 bits. *)
Lemma u128_mulhi_vars_fit (x y : Z) :
  0 <= x <= u128_max -> 0 <= y <= u128_max ->
  let v := u128_mulhi_vars x y in
  0 <= x_lo v * y_lo v <= u128_max /\
  0 <= carry v <= u64_max /\
  0 <= m v <= u128_max /\
  0 <= high1 v <= u64_max /\
  0 <= m_lo v <= u64_max /\
  0 <= high2_sum v <= u128_max /\
  0 <= high2 v <= u64_max /\
  0 <= x_hi v * y_hi v <= u128_max /\
  0 <= mulhi_ret v <= u128_max.
Proof.
  intros Hx Hy v. subst v. unfold u128_mulhi_vars.
  cbn [x_lo x_hi y_lo y_hi carry m high1 m_lo high2_sum high2 mulhi_ret].
  rewrite lo_mask_ones, !Z.land_ones, !Z.shiftr_div_pow2 by lia.
  destruct (limb_bounds x Hx) as [Hxl Hxh].
  destruct (limb_bounds y Hy) as [Hyl Hyh].
  set (xl := x mod 2 ^ 64) in *. set (xh := x / 2 ^ 64) in *.
  set (yl := y mod 2 ^ 64) in *. set (yh := y / 2 ^ 64) in *.
  assert (Hsq : u64_max * u64_max + 2 * u64_max = u128_max) by reflexivity.
  assert (P : forall a b, 0 <= a <= u64_max -> 0 <= b <= u64_max ->
                          0 <= a * b <= u64_max * u64_max).
  { intros a b Ha Hb. split; [apply Z.mul_nonneg_nonneg; lia|].
    apply Z.mul_le_mono_nonneg; lia. }
  assert (D : forall a, 0 <= a <= u128_max -> 0 <= a / 2 ^ 64 <= u64_max)
    by (intros a Ha; apply (limb_bounds a Ha)).
  assert (M : forall a, 0 <= a mod 2 ^ 64 <= u64_max).
  { intros a. pose proof (Z.mod_pos_bound a (2 ^ 64) ltac:(lia)).
    unfold u64_max. lia. }
  pose proof (P xl yl Hxl Hyl) as Hll. pose proof (P xl yh Hxl Hyh) as Hlh.
  pose proof (P xh yl Hxh Hyl) as Hhl. pose proof (P xh yh Hxh Hyh) as Hhh.
  assert (U : 0 <= u64_max) by (unfold u64_max; lia).
  assert (Hc : 0 <= xl * yl / 2 ^ 64 <= u64_max) by (apply D; lia).
  set (c := xl * yl / 2 ^ 64) in *.
  assert (Hm1 : 0 <= (xl * yh + c) / 2 ^ 64 <= u64_max) by (apply D; lia).
  pose proof (M (xl * yh + c)) as Hm2.
  assert (Hh2 : 0 <= (xh * yl + (xl * yh + c) mod 2 ^ 64) / 2 ^ 64 <= u64_max)
    by (apply D; lia).
  repeat split; lia.
Qed.

(** C2.  For 128-bit operands [u128_mulhi] returns the high 128 bits of
    the 256-bit product, [floor(x*y / 2^128)], and no intermediate value
    of the limb computation (the partial products, the sums [m],
    [x_hi*y_lo + m_lo] and the returned sum) exceeds [2^129 - 1]. *)
Theorem u128_mulhi_correct (x y : Z) :
  0 <= x <= u128_max -> 0 <= y <= u128_max ->
  u128_mulhi x y = x * y / 2 ^ 128 /\
  let v := u128_mulhi_vars x y in
  let bound := 2 ^ 129 - 1 in
  0 <= x_lo v * y_lo v <= bound /\
  0 <= x_lo v * y_hi v <= bound /\
  0 <= x_hi v * y_lo v <= bound /\
  0 <= x_hi v * y_hi v <= bound /\
  0 <= carry v <= bound /\
  0 <= m v <= bound /\
  0 <= high1 v <= bound /\
  0 <= m_lo v <= bound /\
  0 <= high2_sum v <= bound /\
  0 <= high2 v <= bound /\
  0 <= mulhi_ret v <= bound.
Proof.
  intros Hx Hy. split; [apply u128_mulhi_div|].
  pose proof (u128_mulhi_vars_fit x y Hx Hy) as F. cbv zeta in *.
  assert (U64 : u64_max <= 2 ^ 129 - 1) by (unfold u64_max; lia).
  assert (U128 : u128_max <= 2 ^ 129 - 1) by (unfold u128_max; lia).
  destruct F as (F1 & F2 & F3 & F4 & F5 & F6 & F7 & F8 & F9).
  assert (L : forall a b, 0 <= a <= u64_max -> 0 <= b <= u64_max ->
                          0 <= a * b <= 2 ^ 129 - 1).
  { intros a b Ha Hb. split; [apply Z.mul_nonneg_nonneg; lia|].
    transitivity (u64_max * u64_max); [apply Z.mul_le_mono_nonneg; lia|].
    vm_compute. discriminate. }
  unfold u128_mulhi_vars in *.
  cbn [x_lo x_hi y_lo y_hi carry m high1 m_lo high2_sum high2 mulhi_ret] in *.
  rewrite lo_mask_ones, !Z.land_ones, !Z.shiftr_div_pow2 in * by lia.
  destruct (limb_bounds x Hx) as [Hxl Hxh].
  destruct (limb_bounds y Hy) as [Hyl Hyh].
  repeat split; try lia; try (apply L; assumption).
Qed.

Lemma u128_mulhi_correct_witness :
  u128_mulhi u128_max u128_max = u128_max * u128_max / 2 ^ 128 /\
  mulhi_ret (u128_mulhi_vars u128_max u128_max) = u128_max - 1.
Proof.
  assert (H : 0 <= u128_max <= u128_max) by (vm_compute; split; discriminate).
  destruct (u128_mulhi_correct u128_max u128_max H H) as [E _].
  split; [exact E|reflexivity].
Defined.

(** ** The true division is correctly rounded *)

Lemma round_half_even_bounds (n d : Z) :
  0 < d ->
  n / d <= round_half_even n d <= n / d + 1 /\
  (round_half_even n d = n / d + 1 -> 0 < n mod d).
Proof.
  intros Hd. unfold round_half_even.
  pose proof (Z.mod_pos_bound n d Hd).
  destruct (2 * (n mod d) <? d) eqn:E1; [lia|].
  apply Z.ltb_ge in E1.
  destruct (d <? 2 * (n mod d)); [lia|].
  destruct (Z.even (n / d)); lia.
Qed.

Section TrueDiv.
Variables a b : Z.
Hypothesis Ha : 0 <= a.
Hypothesis Hb : 0 < b.

Let n := a * 2 ^ ulp_exp.
Let e := Z.max (Z.log2 (n / b) - 52) 0.
Let q := n / (b * 2 ^ e).

Local Lemma e_nonneg : 0 <= e.
Proof. unfold e. lia. Qed.

Local Lemma scaled_divisor_pos : 0 < b * 2 ^ e.
Proof. pose proof (pow2_pos e e_nonneg). nia. Qed.

Local Lemma n_nonneg : 0 <= n.
Proof.
  unfold n. pose proof (pow2_pos ulp_exp ltac:(unfold ulp_exp; lia)). nia.
Qed.

(** Above the subnormal range the quotient has 53 bits, so the rounded
    value is at least [2^(e+52)]. *)
Local Lemma normal_range :
  0 < e -> 2 ^ (e + 52) <= q * 2 ^ e /\ 2 ^ (e + 52) <= n / b.
Proof.
  intros He. unfold e in He.
  assert (Ek : Z.log2 (n / b) = e + 52) by (unfold e; lia).
  assert (Hpos : 0 < n / b).
  { destruct (Z.lt_trichotomy 0 (n / b)) as [|[E|E]]; [assumption| |].
    - rewrite <- E in Ek. simpl in Ek. unfold e in Ek. lia.
    - rewrite Z.log2_nonpos in Ek by lia. unfold e in Ek. lia. }
  pose proof (Z.log2_spec (n / b) Hpos) as [Hl _]. rewrite Ek in Hl.
  split; [|assumption].
  unfold q. rewrite <- Z.div_div by (pose proof (pow2_pos e e_nonneg); lia).
  pose proof (pow2_pos e e_nonneg) as HE.
  assert (2 ^ 52 <= n / b / 2 ^ e).
  { apply Z.div_le_lower_bound; [assumption|].
    rewrite Z.pow_add_r in Hl by (pose proof e_nonneg; lia). lia. }
  rewrite Z.pow_add_r by (pose proof e_nonneg; lia). nia.
Qed.

(** An integer below [2^53] is a float: in the units of the result it is
    a multiple of the rounding step, unless the quotient is far above. *)
Local Lemma integer_on_grid (y : Z) :
  0 <= y <= 2 ^ 53 ->
  (exists y', y * 2 ^ ulp_exp = y' * 2 ^ e) \/
  (y * 2 ^ ulp_exp <= q * 2 ^ e /\ 0 < e).
Proof.
  intros Hy. destruct (Z_le_gt_dec e ulp_exp) as [Hle|Hgt].
  - left. exists (y * 2 ^ (ulp_exp - e)).
    rewrite <- Z.mul_assoc, <- Z.pow_add_r by (pose proof e_nonneg; lia).
    f_equal. f_equal. lia.
  - right. assert (He : 0 < e) by (unfold ulp_exp in Hgt; lia).
    split; [|assumption].
    destruct (normal_range He) as [Hq _].
    transitivity (2 ^ (e + 52)); [|assumption].
    transitivity (2 ^ 53 * 2 ^ ulp_exp).
    + apply Z.mul_le_mono_nonneg_r; [apply Z.pow_nonneg|]; lia.
    + rewrite <- Z.pow_add_r by (unfold ulp_exp; lia).
      apply Z.pow_le_mono_r; lia.
Qed.

(** Rounding does not cross a float: a quotient that is at least the
    integer [y] rounds to at least [y]. *)
Lemma truediv_units_lower (y : Z) :
  0 <= y <= 2 ^ 53 -> y * b <= a ->
  y * 2 ^ ulp_exp <= truediv_units a b.
Proof using Ha Hb.
  intros Hy Hq. unfold truediv_units. fold n. fold e.
  pose proof scaled_divisor_pos as HD.
  pose proof (pow2_pos e e_nonneg) as HE.
  destruct (round_half_even_bounds n (b * 2 ^ e) HD) as [[Hl _] _].
  fold q in Hl.
  assert (y * 2 ^ ulp_exp <= q * 2 ^ e); [|nia].
  destruct (integer_on_grid y Hy) as [[y' Ey]|[Hfar _]]; [|assumption].
  rewrite Ey. apply Z.mul_le_mono_nonneg_r; [lia|].
  unfold q. apply Z.div_le_lower_bound; [assumption|].
  replace (b * 2 ^ e * y') with (y' * 2 ^ e * b) by ring.
  rewrite <- Ey. unfold n.
  replace (y * 2 ^ ulp_exp * b) with (y * b * 2 ^ ulp_exp) by ring.
  apply Z.mul_le_mono_nonneg_r; [apply Z.pow_nonneg; lia|assumption].
Qed.

(** ... and a quotient that is at most [y] rounds to at most [y]. *)
Lemma truediv_units_upper (y : Z) :
  0 <= y <= 2 ^ 53 -> a <= y * b ->
  truediv_units a b <= y * 2 ^ ulp_exp.
Proof using Ha Hb.
  intros Hy Hq. unfold truediv_units. fold n. fold e.
  pose proof scaled_divisor_pos as HD.
  pose proof (pow2_pos e e_nonneg) as HE.
  destruct (round_half_even_bounds n (b * 2 ^ e) HD) as [[Hl Hu] Hup].
  fold q in Hl, Hu, Hup.
  assert (Hn : n <= y * 2 ^ ulp_exp * b).
  { unfold n. replace (y * 2 ^ ulp_exp * b) with (y * b * 2 ^ ulp_exp) by ring.
    apply Z.mul_le_mono_nonneg_r; [apply Z.pow_nonneg; lia|assumption]. }
  pose proof (div_lower n (b * 2 ^ e) HD) as Hfloor. fold q in Hfloor.
  assert (Hq1 : q * 2 ^ e <= y * 2 ^ ulp_exp) by nia.
  destruct (Z.eq_dec (round_half_even n (b * 2 ^ e)) q) as [Eq|Ne].
  { rewrite Eq. assumption. }
  assert (Eup : round_half_even n (b * 2 ^ e) = q + 1) by lia.
  rewrite Eup. specialize (Hup Eup).
  assert (Hstrict : q * (b * 2 ^ e) < n).
  { pose proof (Z.div_mod n (b * 2 ^ e)) as Edm. fold q in Edm. lia. }
  assert (Hq2 : q * 2 ^ e < y * 2 ^ ulp_exp) by nia.
  destruct (integer_on_grid y Hy) as [[y' Ey]|[Hfar _]]; [|lia].
  rewrite Ey in *. assert (q < y') by nia. nia.
Qed.

(** The rounded value is at most twice the quotient, plus one unit. *)
Lemma truediv_units_bound : truediv_units a b <= 2 * n + 1.
Proof using Ha Hb.
  unfold truediv_units. fold n. fold e.
  pose proof scaled_divisor_pos as HD.
  pose proof (pow2_pos e e_nonneg) as HE.
  pose proof n_nonneg as Hn.
  destruct (round_half_even_bounds n (b * 2 ^ e) HD) as [[_ Hu] _].
  fold q in Hu.
  pose proof (div_lower n (b * 2 ^ e) HD) as Hfloor. fold q in Hfloor.
  assert (Hq0 : 0 <= q) by (unfold q; apply Z.div_pos; lia).
  assert (HqE : q * 2 ^ e <= n) by nia.
  assert (HEn : 2 ^ e <= n + 1).
  { destruct (Z.eq_dec e 0) as [E0|E0]; [rewrite E0; simpl; lia|].
    destruct (normal_range ltac:(pose proof e_nonneg; lia)) as [Hq _].
    pose proof (pow2_pos (e + 52) ltac:(pose proof e_nonneg; lia)).
    assert (1 <= q) by nia.
    nia. }
  nia.
Qed.
End TrueDiv.

(** ** [is_valid] decides [x^3 > 2^128 - 1] *)

Lemma cube_below (x : Z) : 0 <= x < min_valid -> x * x ^ 2 <= u128_max.
Proof.
  intros Hx. transitivity ((min_valid - 1) * (min_valid - 1) ^ 2);
    [|vm_compute; discriminate].
  apply Z.mul_le_mono_nonneg; try lia.
  apply Z.pow_le_mono_l; lia.
Qed.

Lemma cube_above (x : Z) :
  min_valid <= x -> u128_max <= (min_valid - 1) * x ^ 2.
Proof.
  intros Hx. transitivity ((min_valid - 1) * min_valid ^ 2);
    [vm_compute; discriminate|].
  apply Z.mul_le_mono_nonneg_l; [unfold min_valid; lia|].
  apply Z.pow_le_mono_l. unfold min_valid in *. lia.
Qed.

(** The floating-point comparison of [is_valid] never goes wrong: for a
    positive [x] it answers whether [x <= 2^64 - 1] and [x >= min_valid]. *)
Lemma is_valid_exact (x : Z) :
  1 <= x -> is_valid x = Ok ((x <=? u64_max) && (min_valid <=? x)).
Proof.
  intros Hx. unfold is_valid.
  destruct (x <=? u64_max) eqn:E64; [|reflexivity]. cbn [andb].
  assert (Hsq : 0 < x ^ 2) by (apply Z.pow_pos_nonneg; lia).
  assert (Hu : 0 <= u128_max) by (vm_compute; discriminate).
  unfold truediv.
  destruct (x ^ 2 =? 0) eqn:E0; [apply Z.eqb_eq in E0; lia|].
  rewrite (Z.abs_eq u128_max), (Z.abs_eq (x ^ 2)) by lia.
  pose proof (truediv_units_bound u128_max (x ^ 2) Hu Hsq) as Hbound.
  destruct (2 ^ (1024 + ulp_exp) <=? truediv_units u128_max (x ^ 2)) eqn:Eov.
  { apply Z.leb_le in Eov. exfalso.
    assert (2 * (u128_max * 2 ^ ulp_exp) + 1 < 2 ^ (1024 + ulp_exp))
      by (vm_compute; reflexivity).
    lia. }
  cbn [bind]. unfold float_lt_int. cbn [units].
  replace (Z.sgn u128_max) with 1 by reflexivity.
  rewrite (Z.sgn_pos (x ^ 2)) by assumption.
  rewrite !Z.mul_1_l. f_equal.
  pose proof (pow2_pos ulp_exp ltac:(unfold ulp_exp; lia)) as HU.
  destruct (min_valid <=? x) eqn:Emin.
  - apply Z.leb_le in Emin. apply Z.ltb_lt.
    pose proof (truediv_units_upper u128_max (x ^ 2) Hu Hsq (min_valid - 1)
                  ltac:(vm_compute; split; discriminate) (cube_above x Emin)).
    nia.
  - apply Z.leb_gt in Emin. apply Z.ltb_ge.
    apply (truediv_units_lower u128_max (x ^ 2) Hu Hsq x).
    + unfold min_valid in Emin. lia.
    + apply cube_below. lia.
Qed.

Lemma valid_cube (x : Z) :
  1 <= x -> (valid x <-> x <= u64_max /\ u128_max < x * x ^ 2).
Proof.
  intros Hx. unfold valid. fold u64_max. fold u128_max.
  assert (Hsq : 0 < x ^ 2) by (apply Z.pow_pos_nonneg; lia).
  destruct (x ^ 2) as [|p|p] eqn:Ep; try lia.
  unfold Qlt, Qdiv, Qmult, Qinv, inject_Z. cbn [Qnum Qden].
  rewrite !Z.mul_1_r, Pos.mul_1_l. reflexivity.
Qed.

Lemma valid_min_valid (x : Z) :
  1 <= x -> (valid x <-> x <= u64_max /\ min_valid <= x).
Proof.
  intros Hx. rewrite (valid_cube x Hx).
  split; intros [H64 H]; (split; [assumption|]).
  - destruct (Z_lt_le_dec x min_valid) as [Hlt|]; [|assumption].
    pose proof (cube_below x ltac:(lia)). lia.
  - pose proof (cube_above x H) as Ha.
    assert (0 < x ^ 2) by (apply Z.pow_pos_nonneg; lia).
    unfold min_valid in *. nia.
Qed.

(** The script's [is_valid] and the specification's validity agree. *)
Lemma is_valid_valid (x : Z) : 1 <= x -> (is_valid x = Ok true <-> valid x).
Proof.
  intros Hx. rewrite (is_valid_exact x Hx), (valid_min_valid x Hx).
  split.
  - intros E. injection E as E. apply andb_true_iff in E as [E1 E2].
    split; [apply Z.leb_le, E1|apply Z.leb_le, E2].
  - intros [H1 H2]. apply Z.leb_le in H1, H2. rewrite H1, H2. reflexivity.
Qed.

(** ** Checking a property on every radix *)

Lemma in_radices (radix : Z) : 2 <= radix <= 36 -> In radix radices.
Proof.
  intros Hr. unfold radices.
  rewrite <- (Z2Nat.id radix) by lia.
  apply in_map, in_seq. lia.
Qed.

Lemma forall_radices (P : Z -> bool) :
  forallb P radices = true ->
  forall radix, 2 <= radix <= 36 -> P radix = true.
Proof.
  intros HP radix Hr. rewrite forallb_forall in HP.
  apply HP, in_radices, Hr.
Qed.

(** ** [find_power] *)

Lemma pow_radix_pos (radix p : Z) : 2 <= radix -> 0 <= p -> 1 <= radix ^ p.
Proof.
  intros. assert (0 < radix ^ p) by (apply Z.pow_pos_nonneg; lia). lia.
Qed.

Lemma pow_radix_succ (radix p : Z) :
  0 <= p -> radix ^ (p + 1) = radix ^ p * radix.
Proof. intros. rewrite Z.pow_add_r, Z.pow_1_r by lia. reflexivity. Qed.

(** The loop of [find_power], started at a valid power [radix^p] and
    knowing that [radix^(p+k)] is too large: it stops within [k] rounds,
    at the first power above [u64_max]. *)
Lemma find_power_loop (radix : Z) (k : nat) :
  2 <= radix ->
  forall p,
    0 <= p -> min_valid <= radix ^ p -> radix ^ p <= u64_max ->
    u64_max < radix ^ (p + Z.of_nat k) ->
    exists d,
      p <= d < p + Z.of_nat k /\
      radix ^ d <= u64_max < radix ^ (d + 1) /\
      forall fuel, (k + 1 <= fuel)%nat ->
        while_ fuel (fun p => is_valid (radix ^ p)) (fun p => p + 1) p
        = Ok (d + 1).
Proof.
  intros Hr. induction k as [|k IH]; intros p Hp Hmin Hle Hgt.
  - simpl in Hgt. rewrite Z.add_0_r in Hgt. lia.
  - assert (Hvalid : is_valid (radix ^ p) = Ok true).
    { rewrite is_valid_exact by (apply pow_radix_pos; lia).
      apply Z.leb_le in Hmin, Hle. rewrite Hmin, Hle. reflexivity. }
    destruct (Z_le_gt_dec (radix ^ (p + 1)) u64_max) as [Hnext|Hnext].
    + destruct (IH (p + 1)) as (d & Hd & Hpow & Hrun); try lia.
      * rewrite pow_radix_succ by lia. nia.
      * replace (p + 1 + Z.of_nat k) with (p + Z.of_nat (S k)) by lia.
        assumption.
      * exists d. split; [lia|]. split; [assumption|].
        intros [|fuel] Hfuel; [lia|]. simpl. rewrite Hvalid. cbn [bind].
        apply Hrun. lia.
    + exists p. split; [lia|]. split; [lia|].
      intros [|[|fuel]] Hfuel; try lia.
      cbn [while_]. rewrite Hvalid. cbn [bind].
      rewrite is_valid_exact by (apply pow_radix_pos; lia).
      assert (E : (radix ^ (p + 1) <=? u64_max) = false)
        by (apply Z.leb_gt; lia).
      rewrite E. reflexivity.
Qed.

(** C8 (amended).  The radix itself is never a valid power: for every
    radix in [2,36], [is_valid(radix)] returns false, because
    [radix^3 <= 2^128 - 1].  A valid power exists all the same. *)
Theorem is_valid_radix_false (radix : Z) :
  2 <= radix <= 36 ->
  is_valid radix = Ok false /\ ~ valid radix /\
  exists d, 1 < d /\ is_valid (radix ^ d) = Ok true.
Proof.
  intros Hr.
  assert (E : is_valid radix = Ok false).
  { rewrite is_valid_exact by lia.
    assert (Emin : (min_valid <=? radix) = false)
      by (apply Z.leb_gt; unfold min_valid; lia).
    rewrite Emin, andb_false_r. reflexivity. }
  split; [assumption|]. split.
  - intros Hv. apply is_valid_valid in Hv; [|lia]. congruence.
  - exists (floor_log (Libm := exact_libm) u64_max radix).
    pose proof (forall_radices
      (fun r => let d := floor_log (Libm := exact_libm) u64_max r in
                (1 <? d) && (1 <=? r ^ d) &&
                (r ^ d <=? u64_max) && (min_valid <=? r ^ d))
      ltac:(vm_compute; reflexivity) radix Hr) as Hall.
    cbv zeta in Hall.
    apply andb_true_iff in Hall as [Hall H4].
    apply andb_true_iff in Hall as [Hall H3].
    apply andb_true_iff in Hall as [H1 H2].
    split; [apply Z.ltb_lt, H1|].
    rewrite is_valid_exact by (apply Z.leb_le, H2).
    rewrite H3, H4. reflexivity.
Qed.

Lemma is_valid_radix_false_witness :
  is_valid 10 = Ok false /\ ~ valid 10 /\
  exists d, 1 < d /\ is_valid (10 ^ d) = Ok true.
Proof. apply (is_valid_radix_false 10). lia. Defined.

(** C8 as stated fails: [is_valid(10)] is not true. *)
Lemma is_valid_radix_counterexample :
  ~ (forall radix, 2 <= radix <= 36 -> is_valid radix = Ok true).
Proof.
  intros H. specialize (H 10 ltac:(lia)).
  vm_compute in H. discriminate.
Qed.

(** [find_power] when the logarithm is accurate to one unit: the loop
    starts at a valid power and stops at the last power below
    [u64_max]. *)
Lemma find_power_run {M : Libm} (radix : Z) :
  2 <= radix <= 36 ->
  let L := floor_log u64_max radix in
  1 <= L -> radix ^ (L - 1) <= u64_max < radix ^ (L + 2) ->
  exists d,
    (forall fuel, (4 <= fuel)%nat -> find_power fuel radix = Ok d) /\
    0 <= d /\ min_valid <= radix ^ d /\
    radix ^ d <= u64_max < radix ^ (d + 1).
Proof.
  intros Hr L HL [Hlo Hhi].
  assert (Hr2 : 2 <= radix) by lia.
  assert (Hmin : min_valid <= radix ^ (L - 1)).
  { replace (L + 2) with (L - 1 + 1 + 1 + 1) in Hhi by lia.
    rewrite !pow_radix_succ in Hhi by lia.
    pose proof (pow_radix_pos radix (L - 1) Hr2 ltac:(lia)) as Hpos.
    assert (Hc : radix * radix * radix <= 36 * 36 * 36)
      by (repeat apply Z.mul_le_mono_nonneg; lia).
    assert (radix ^ (L - 1) * (radix * radix * radix)
            <= radix ^ (L - 1) * (36 * 36 * 36))
      by (apply Z.mul_le_mono_nonneg_l; lia).
    rewrite <- !Z.mul_assoc in Hhi.
    unfold u64_max, min_valid in *. lia. }
  destruct (find_power_loop radix 3 Hr2 (L - 1) ltac:(lia) Hmin Hlo)
    as (d & Hd & Hpow & Hrun).
  { replace (L - 1 + Z.of_nat 3) with (L + 2) by lia. assumption. }
  exists d. split; [|split; [lia|split; [|exact Hpow]]].
  - intros fuel Hfuel. unfold find_power.
    destruct (radix <=? 0) eqn:E0; [apply Z.leb_le in E0; lia|].
    destruct (radix =? 1) eqn:E1; [apply Z.eqb_eq in E1; lia|].
    fold L. rewrite Hrun by (simpl; lia). cbn [bind]. f_equal. lia.
  - transitivity (radix ^ (L - 1)); [assumption|].
    apply Z.pow_le_mono_r; lia.
Qed.

(** The last power below a bound is unique. *)
Lemma last_power_unique (radix bound d d' : Z) :
  2 <= radix -> 0 <= d -> 0 <= d' ->
  radix ^ d <= bound < radix ^ (d + 1) ->
  radix ^ d' <= bound < radix ^ (d' + 1) ->
  d = d'.
Proof.
  intros Hr Hd Hd' [H1 H2] [H1' H2'].
  destruct (Z.lt_trichotomy d d') as [Hlt|[E|Hgt]];
    [exfalso|assumption|exfalso].
  - assert (radix ^ (d + 1) <= radix ^ d') by (apply Z.pow_le_mono_r; lia).
    lia.
  - assert (radix ^ (d' + 1) <= radix ^ d) by (apply Z.pow_le_mono_r; lia).
    lia.
Qed.

(** C3.  Let [L] be the script's [int(math.floor(math.log(u64_max,
    radix)))], and suppose the floating-point logarithm is accurate to one
    unit: [radix^(L-1) <= u64_max < radix^(L+2)].  Then, for every radix
    in [2,36], [find_power(radix)] returns the largest exponent [d] such
    that [radix^d] is valid ([radix^d <= 2^64-1] and
    [(2^128-1)/(radix^d)^2 < radix^d]); [is_valid] is true at [d] and false
    at [d+1]; and [find_power(10) = 19], the divisor being [10^19]. *)
Theorem find_power_largest {M : Libm} (radix : Z) :
  2 <= radix <= 36 ->
  let L := floor_log u64_max radix in
  1 <= L -> radix ^ (L - 1) <= u64_max < radix ^ (L + 2) ->
  exists d,
    (forall fuel, (4 <= fuel)%nat -> find_power fuel radix = Ok d) /\
    0 <= d /\ valid (radix ^ d) /\
    (forall d', 0 <= d' -> valid (radix ^ d') -> d' <= d) /\
    is_valid (radix ^ d) = Ok true /\
    is_valid (radix ^ (d + 1)) = Ok false /\
    (radix = 10 -> d = 19 /\ radix ^ d = 10 ^ 19).
Proof.
  intros Hr L HL Hacc.
  destruct (find_power_run radix Hr HL Hacc)
    as (d & Hrun & Hd0 & Hdmin & Hdle & Hdgt).
  assert (Hr2 : 2 <= radix) by lia.
  assert (Hv : is_valid (radix ^ d) = Ok true).
  { rewrite is_valid_exact by (apply pow_radix_pos; lia).
    apply Z.leb_le in Hdle, Hdmin. rewrite Hdle, Hdmin. reflexivity. }
  assert (H10 : radix = 10 -> d = 19).
  { intros ->. apply (last_power_unique 10 u64_max); try lia.
    vm_compute. split; [discriminate|reflexivity]. }
  exists d. split; [exact Hrun|split; [|split; [|split; [|split; [|split]]]]].
  - assumption.
  - apply is_valid_valid in Hv; [apply Hv|apply pow_radix_pos; lia].
  - intros d' Hd' [Hv' _].
    destruct (Z_le_gt_dec d' d) as [|Hgt]; [assumption|exfalso].
    assert (radix ^ (d + 1) <= radix ^ d') by (apply Z.pow_le_mono_r; lia).
    fold u64_max in Hv'. lia.
  - assumption.
  - rewrite is_valid_exact by (apply pow_radix_pos; lia).
    assert (E : (radix ^ (d + 1) <=? u64_max) = false)
      by (apply Z.leb_gt; lia).
    rewrite E. reflexivity.
  - intros E. rewrite (H10 E), E. split; reflexivity.
Qed.

Lemma find_power_largest_witness :
  exists d,
    (forall fuel, (4 <= fuel)%nat ->
                  find_power (M := exact_libm) fuel 10 = Ok d) /\
    d = 19.
Proof.
  destruct (find_power_largest (M := exact_libm) 10 ltac:(lia))
    as (d & Hrun & _ & _ & _ & _ & _ & H10).
  - vm_compute. discriminate.
  - split; vm_compute; [discriminate|reflexivity].
  - exists d. split; [exact Hrun|]. apply H10. reflexivity.
Defined.

(** ** [fast_shift] counts trailing zero bits *)

Lemma fast_shift_loop (divisor : Z) (k : nat) :
  divisor <> 0 ->
  forall n,
    0 <= n -> divisor mod 2 ^ n = 0 -> Z.abs divisor < 2 ^ (n + Z.of_nat k) ->
    exists s,
      n <= s < n + Z.of_nat k /\
      divisor mod 2 ^ s = 0 /\ divisor mod 2 ^ (s + 1) <> 0 /\
      forall fuel, (k <= fuel)%nat ->
        while_ fuel (fun n => Ok (divisor mod 2 ^ (n + 1) =? 0))
                    (fun n => n + 1) n = Ok s.
Proof.
  intros Hd. induction k as [|k IH]; intros n Hn Hdiv Hlt.
  - exfalso. rewrite Z.add_0_r in Hlt.
    pose proof (pow2_pos n Hn) as Hp.
    apply Z.mod_divide in Hdiv; [|lia]. destruct Hdiv as [c Hc].
    assert (c <> 0) by (intros ->; lia).
    assert (2 ^ n <= Z.abs divisor); [|lia].
    rewrite Hc, Z.abs_mul, (Z.abs_eq (2 ^ n)) by lia. nia.
  - destruct (Z.eq_dec (divisor mod 2 ^ (n + 1)) 0) as [E|E].
    + assert (Hlt' : Z.abs divisor < 2 ^ (n + 1 + Z.of_nat k)).
      { replace (n + 1 + Z.of_nat k) with (n + Z.of_nat (S k)) by lia.
        assumption. }
      destruct (IH (n + 1) ltac:(lia) E Hlt') as (s & Hs & Hs0 & Hs1 & Hrun).
      exists s. split; [lia|]. split; [assumption|]. split; [assumption|].
        intros [|fuel] Hfuel; [lia|]. cbn [while_ bind].
        rewrite E. cbn [Z.eqb]. apply Hrun. lia.
    + exists n. split; [lia|]. split; [assumption|]. split; [assumption|].
      intros [|fuel] Hfuel; [lia|]. cbn [while_ bind].
      apply Z.eqb_neq in E. rewrite E. reflexivity.
Qed.

(** [fast_shift] returns, with enough fuel, the number of trailing zero
    bits of a divisor that is not zero. *)
Lemma fast_shift_trailing_zeros (divisor : Z) :
  divisor <> 0 ->
  exists s,
    0 <= s <= Z.log2 (Z.abs divisor) /\
    divisor mod 2 ^ s = 0 /\ divisor mod 2 ^ (s + 1) <> 0 /\
    forall fuel, (Z.to_nat (Z.log2 (Z.abs divisor)) + 1 <= fuel)%nat ->
                 fast_shift fuel divisor = Ok s.
Proof.
  intros Hd.
  pose proof (Z.log2_nonneg (Z.abs divisor)) as Hl.
  destruct (fast_shift_loop divisor (Z.to_nat (Z.log2 (Z.abs divisor)) + 1)
              Hd 0 ltac:(lia)) as (s & Hs & Hs0 & Hs1 & Hrun).
  - rewrite Z.pow_0_r. apply Z.mod_1_r.
  - rewrite Nat2Z.inj_add, Z2Nat.id by lia. simpl (Z.of_nat 1).
    rewrite Z.add_0_l. replace (Z.log2 (Z.abs divisor) + 1)
      with (Z.succ (Z.log2 (Z.abs divisor))) by lia.
    apply Z.log2_spec. lia.
  - exists s. rewrite Nat2Z.inj_add, Z2Nat.id in Hs by lia.
    split; [simpl in Hs; lia|]. repeat (split; [assumption|]).
    intros fuel Hfuel. apply Hrun. assumption.
Qed.

(** On zero the loop never stops. *)
Lemma fast_shift_zero_diverges (fuel : nat) : fast_shift fuel 0 = OutOfFuel.
Proof.
  unfold fast_shift. generalize 0 at 3. induction fuel as [|fuel IH];
    intros n; [reflexivity|].
  cbn [while_ bind]. rewrite Zmod_0_l. cbn [Z.eqb]. apply IH.
Qed.

(** ** [choose_multiplier] *)

Section Multiplier.
Variables divisor bits : Z.
Hypothesis Hdivisor : 0 < divisor.
Hypothesis Hbits : 0 <= bits.

Local Abbreviation low := (m_low_at divisor bits).
Local Abbreviation high := (m_high_at divisor bits).

Lemma m_low_halve (s : Z) : 0 < s -> low s / 2 = low (s - 1).
Proof using Hdivisor Hbits.
  intros Hs. unfold m_low_at.
  rewrite Z.div_div, (Z.mul_comm divisor 2), <- Z.div_div by lia.
  replace (bits + s) with (bits + (s - 1) + 1) by lia.
  rewrite pow2_succ by lia.
  rewrite (Z.mul_comm 2), Z.div_mul by lia. reflexivity.
Qed.

Lemma m_high_halve (s : Z) : 0 < s -> high s / 2 = high (s - 1).
Proof using Hdivisor Hbits.
  intros Hs. unfold m_high_at.
  rewrite Z.div_div, (Z.mul_comm divisor 2), <- Z.div_div by lia.
  replace (bits + s) with (bits + (s - 1) + 1) by lia.
  replace (2 ^ s) with (2 ^ (s - 1 + 1)) by (f_equal; lia).
  rewrite !pow2_succ by lia.
  replace (2 * 2 ^ (bits + (s - 1)) + 2 * 2 ^ (s - 1))
    with ((2 ^ (bits + (s - 1)) + 2 ^ (s - 1)) * 2) by ring.
  rewrite Z.div_mul by lia. reflexivity.
Qed.

Let cond : Z * Z * Z -> result bool :=
  fun '(m_low, m_high, sh_post) =>
    Ok ((m_low / 2 <? m_high / 2) && (0 <? sh_post)).
Let body : Z * Z * Z -> Z * Z * Z :=
  fun '(m_low, m_high, sh_post) => (m_low / 2, m_high / 2, sh_post - 1).

(** The loop from shift [k]: it stops at the first shift [s], going
    down, at which the halves no longer differ, or at 0. *)
Lemma choose_multiplier_loop (k : nat) :
  exists s,
    0 <= s <= Z.of_nat k /\
    (forall j, s < j <= Z.of_nat k -> low (j - 1) < high (j - 1)) /\
    (0 < s -> high (s - 1) <= low (s - 1)) /\
    halve k (low (Z.of_nat k)) (high (Z.of_nat k)) (Z.of_nat k) = (high s, s) /\
    forall fuel, (k + 1 <= fuel)%nat ->
      while_ fuel cond body (low (Z.of_nat k), high (Z.of_nat k), Z.of_nat k)
      = Ok (low s, high s, s).
Proof using Hdivisor Hbits.
  induction k as [|k IH].
  - exists 0. split; [simpl; lia|]. split; [simpl; lia|].
    split; [lia|]. split; [reflexivity|].
    intros [|fuel] Hfuel; [lia|]. cbn [while_].
    unfold cond at 1; cbv beta iota.
    cbn [bind Z.of_nat Z.ltb Z.compare]. rewrite andb_false_r. reflexivity.
  - assert (Hk : 0 < Z.of_nat (S k)) by lia.
    assert (Ek : Z.of_nat (S k) - 1 = Z.of_nat k) by lia.
    destruct (Z_lt_le_dec (low (Z.of_nat k)) (high (Z.of_nat k))) as [Hlt|Hge].
    + destruct IH as (s & Hs & Hpass & Hstop & Hspec & Hrun).
      exists s. split; [lia|]. split.
      { intros j Hj. destruct (Z.eq_dec j (Z.of_nat (S k))) as [->|];
          [rewrite Ek; assumption|apply Hpass; lia]. }
      split; [assumption|]. split.
      { cbn [halve]. rewrite m_low_halve, m_high_halve, Ek by assumption.
        apply Z.ltb_lt in Hlt. rewrite Hlt.
        replace (0 <? Z.of_nat (S k)) with true
          by (symmetry; apply Z.ltb_lt, Hk).
        cbn [andb]. assumption. }
      intros [|fuel] Hfuel; [lia|]. cbn [while_].
    unfold cond at 1; cbv beta iota.
      rewrite m_low_halve, m_high_halve, Ek by assumption.
      apply Z.ltb_lt in Hlt. rewrite Hlt.
      replace (0 <? Z.of_nat (S k)) with true
        by (symmetry; apply Z.ltb_lt, Hk).
      cbn [andb bind]. unfold body at 2; cbv beta iota.
      rewrite m_low_halve, m_high_halve, Ek by assumption.
      apply Hrun. lia.
    + exists (Z.of_nat (S k)). split; [lia|]. split; [lia|].
      split; [rewrite Ek; intros _; assumption|].
      apply Z.ltb_ge in Hge. split.
      { cbn [halve]. rewrite m_low_halve, m_high_halve, Ek by assumption.
        rewrite Hge. reflexivity. }
      intros [|fuel] Hfuel; [lia|]. cbn [while_].
    unfold cond at 1; cbv beta iota.
      rewrite m_low_halve, m_high_halve, Ek by assumption.
      rewrite Hge. reflexivity.
Qed.

Lemma m_high_upper (s : Z) : high s * divisor <= 2 ^ (bits + s) + 2 ^ s.
Proof using Hdivisor Hbits. apply div_lower, Hdivisor. Qed.

(** One halving that passes the test leaves a reciprocal. *)
Lemma reciprocal_after_halving (s : Z) :
  0 <= s -> low s < high s -> reciprocal divisor bits (high s) s.
Proof using Hdivisor Hbits.
  intros Hs Hlt. split; [assumption|]. split; [|apply m_high_upper].
  pose proof (div_upper (2 ^ (bits + s)) divisor Hdivisor) as Hup.
  fold (low s) in Hup. nia.
Qed.

(** Without any halving, the bit length must not be underestimated. *)
Lemma reciprocal_initial (l : Z) :
  0 <= l -> divisor <= 2 ^ l -> reciprocal divisor bits (high l) l.
Proof using Hdivisor Hbits.
  intros Hl Hle. split; [assumption|]. split; [|apply m_high_upper].
  pose proof (div_upper (2 ^ (bits + l) + 2 ^ l) divisor Hdivisor) as Hup.
  fold (high l) in Hup. lia.
Qed.
End Multiplier.

(** [choose_multiplier] for 128 bits, unsigned: it returns the multiplier
    [m_high_at] of the shift at which its loop stops, and agrees with the
    bounded recursion [halve] started from the library's bit length. *)
Lemma choose_multiplier_runs {M : Libm} (divisor : Z) :
  1 <= divisor ->
  let l := ceil_log2 divisor in
  0 <= l ->
  exists m_high post_shift,
    (forall fuel, (Z.to_nat l + 1 <= fuel)%nat ->
       choose_multiplier fuel divisor 128 false = Ok (m_high, post_shift, l)) /\
    halve (Z.to_nat l) (m_low_at divisor 128 l) (m_high_at divisor 128 l) l
    = (m_high, post_shift) /\
    0 <= post_shift <= l /\
    m_high = m_high_at divisor 128 post_shift /\
    (forall j, post_shift < j <= l ->
       m_low_at divisor 128 (j - 1) < m_high_at divisor 128 (j - 1)) /\
    (0 < post_shift ->
       m_high_at divisor 128 (post_shift - 1)
       <= m_low_at divisor 128 (post_shift - 1)).
Proof.
  intros Hd l Hl.
  destruct (choose_multiplier_loop divisor 128 ltac:(lia) ltac:(lia)
              (Z.to_nat l)) as (s & Hs & Hpass & Hstop & Hspec & Hrun).
  rewrite Z2Nat.id in * by assumption.
  exists (m_high_at divisor 128 s), s.
  split; [|split; [|split; [|split; [|split]]]].
  - intros fuel Hfuel. unfold choose_multiplier.
    destruct (divisor <=? 0) eqn:E0; [apply Z.leb_le in E0; lia|].
    fold l. replace (128 + l - 128) with l by lia.
    fold (m_low_at divisor 128 l). fold (m_high_at divisor 128 l).
    rewrite (Hrun fuel Hfuel). reflexivity.
  - exact Hspec.
  - assumption.
  - reflexivity.
  - exact Hpass.
  - exact Hstop.
Qed.

(** Where the C library gives the exact [ceil(log2(divisor))],
    [choose_multiplier] for 128 bits, unsigned, returns what the
    specification's computation returns: the multipliers start at
    [floor(2^(128+l)/divisor)] and [floor((2^(128+l) + 2^l)/divisor)] and
    are halved, with the shift decremented, while the halves differ and the
    shift is positive.  It returns whatever the size of [m_high]. *)
Lemma choose_multiplier_refines_spec {M : Libm} (divisor : Z) :
  1 <= divisor ->
  ceil_log2 divisor = Z.log2_up divisor ->
  let l := Z.log2_up divisor in
  exists m_high post_shift,
    choose_multiplier_spec divisor 128 false = (m_high, post_shift, l) /\
    (forall fuel, (Z.to_nat l + 1 <= fuel)%nat ->
       choose_multiplier fuel divisor 128 false
       = Ok (choose_multiplier_spec divisor 128 false)) /\
    0 <= post_shift <= l /\
    m_high = (2 ^ (128 + post_shift) + 2 ^ post_shift) / divisor /\
    (forall j, post_shift < j <= l ->
       2 ^ (128 + (j - 1)) / divisor
       < (2 ^ (128 + (j - 1)) + 2 ^ (j - 1)) / divisor) /\
    (0 < post_shift ->
       (2 ^ (128 + (post_shift - 1)) + 2 ^ (post_shift - 1)) / divisor
       <= 2 ^ (128 + (post_shift - 1)) / divisor).
Proof.
  intros Hd Hexact l.
  pose proof (Z.log2_up_nonneg divisor) as Hl. fold l in Hl.
  destruct (choose_multiplier_runs divisor Hd) as
    (m_high & post_shift & Hrun & Hspec & Hs & Hm & Hpass & Hstop);
    [rewrite Hexact; exact Hl|].
  rewrite Hexact in Hrun, Hspec, Hs, Hpass. fold l in Hrun, Hspec, Hs, Hpass.
  assert (E : choose_multiplier_spec divisor 128 false
              = (m_high, post_shift, l)).
  { unfold choose_multiplier_spec. fold l.
    replace (128 + l - (128 - 0)) with l by lia.
    fold (m_low_at divisor 128 l). fold (m_high_at divisor 128 l).
    rewrite Hspec. reflexivity. }
  exists m_high, post_shift.
  split; [exact E|]. split; [rewrite E; exact Hrun|].
  split; [exact Hs|]. split; [exact Hm|]. split; [exact Hpass|exact Hstop].
Qed.

Lemma choose_multiplier_refines_spec_witness :
  exists m_high post_shift,
    (forall fuel, (65 <= fuel)%nat ->
       choose_multiplier (M := exact_libm) fuel (3 ^ 40) 128 false
       = Ok (m_high, post_shift, 64)) /\
    2 ^ 128 <= m_high.
Proof.
  destruct (choose_multiplier_refines_spec (M := exact_libm) (3 ^ 40))
    as (m_high & post_shift & Hspec & Hrun & _).
  - vm_compute. discriminate.
  - reflexivity.
  - exists m_high, post_shift. rewrite Hspec in Hrun. split; [exact Hrun|].
    vm_compute in Hspec. injection Hspec as <- _.
    vm_compute. discriminate.
Defined.

(** C6.  The divisor [2^60 + 1] is positive and below [2^64 - 1].  Its
    conversion to binary64 rounds it to [2^60], so that
    [math.ceil(math.log2(divisor))] is 60 and [choose_multiplier] returns
    60 as [divisor_bit_length], where the specification's
    [ceil(log2(divisor))] is 61.  The multiplier and the shift returned are
    those of the specification's computation all the same. *)
Theorem choose_multiplier_bit_length_rounded :
  let divisor := 2 ^ 60 + 1 in
  1 <= divisor <= u64_max /\
  to_binary64 divisor = 2 ^ 60 /\
  ceil_log2 (Libm := binary64_libm) divisor = 60 /\
  Z.log2_up divisor = 61 /\
  (forall fuel, (61 <= fuel)%nat ->
     choose_multiplier (M := binary64_libm) fuel divisor 128 false
     = Ok (1329227995784915871750885555673497601, 52, 60)) /\
  choose_multiplier_spec divisor 128 false
  = (1329227995784915871750885555673497601, 52, 61).
Proof.
  intros divisor.
  split; [split; vm_compute; discriminate|].
  split; [reflexivity|]. split; [reflexivity|]. split; [reflexivity|].
  split; [|vm_compute; reflexivity].
  destruct (choose_multiplier_runs (M := binary64_libm) divisor)
    as (m_high & post_shift & Hrun & _).
  - vm_compute. discriminate.
  - vm_compute. discriminate.
  - replace (ceil_log2 (Libm := binary64_libm) divisor) with 60 in Hrun
      by reflexivity.
    intros fuel Hfuel. rewrite (Hrun fuel) by exact Hfuel.
    specialize (Hrun 61%nat (Nat.le_refl _)). vm_compute in Hrun.
    injection Hrun as <- <-. reflexivity.
Qed.

(** ** Division by multiplication *)

(** Granlund and Montgomery's theorem for 128 bits: a reciprocal
    multiplier and its shift give the exact quotient. *)
Lemma mulhi_shift_exact (divisor factor factor_shr n : Z) :
  0 < divisor -> reciprocal divisor 128 factor factor_shr ->
  0 <= n <= u128_max ->
  Z.shiftr (u128_mulhi n factor) factor_shr = n / divisor.
Proof.
  intros Hd (Hs & Hlo & Hhi) [Hn0 Hn1].
  rewrite Z.shiftr_div_pow2, u128_mulhi_div, Z.div_div, <- Z.pow_add_r by
      (try apply Z.pow_pos_nonneg; lia).
  set (K := 2 ^ (128 + factor_shr)) in *.
  assert (HK : K = 2 ^ 128 * 2 ^ factor_shr)
    by (unfold K; apply Z.pow_add_r; lia).
  pose proof (pow2_pos factor_shr Hs) as Hp.
  set (q := n / divisor).
  assert (Hq : q * divisor <= n < (q + 1) * divisor)
    by (split; [apply div_lower|apply div_upper]; assumption).
  assert (Hq0 : 0 <= q) by (apply Z.div_pos; lia).
  apply div_unique_bounds; [lia|].
  set (e := factor * divisor - K).
  assert (He : 0 <= e <= 2 ^ factor_shr) by (unfold e; lia).
  assert (E : divisor * (n * factor) = n * K + n * e) by (unfold e; ring).
  assert (Hne : n * e < K).
  { rewrite HK. unfold u128_max in Hn1.
    apply Z.le_lt_trans with (n * 2 ^ factor_shr);
      [apply Z.mul_le_mono_nonneg_l; lia|].
    apply Z.mul_lt_mono_pos_r; lia. }
  assert (Hne0 : 0 <= n * e) by (apply Z.mul_nonneg_nonneg; lia).
  split.
  - apply (Z.mul_le_mono_pos_l _ _ divisor Hd). rewrite E.
    replace (divisor * (q * K)) with (q * divisor * K) by ring.
    assert (q * divisor * K <= n * K)
      by (apply Z.mul_le_mono_nonneg_r; lia).
    lia.
  - apply (Z.mul_lt_mono_pos_l divisor); [assumption|]. rewrite E.
    replace (divisor * ((q + 1) * K)) with ((q + 1) * divisor * K) by ring.
    assert (n * K + K <= (q + 1) * divisor * K).
    { replace (n * K + K) with ((n + 1) * K) by ring.
      apply Z.mul_le_mono_nonneg_r; lia. }
    lia.
Qed.

(** Shifting both operands by the trailing zeros of the divisor does not
    change the quotient. *)
Lemma shifted_quotient (n divisor s : Z) :
  0 < divisor -> 0 <= s -> divisor mod 2 ^ s = 0 ->
  Z.shiftr divisor s <> 0 /\
  Z.shiftr n s / Z.shiftr divisor s = n / divisor.
Proof.
  intros Hd Hs Hmod. rewrite !Z.shiftr_div_pow2 by assumption.
  pose proof (pow2_pos s Hs) as Hp.
  apply Z.mod_divide in Hmod; [|lia]. destruct Hmod as [c Hc].
  assert (Hc0 : 0 < c) by nia.
  rewrite Hc, Z.div_mul by lia. split; [lia|].
  rewrite Z.div_div by lia. f_equal. ring.
Qed.

(** The multiplier that [choose_multiplier] returns is a reciprocal, as
    long as the C library does not underestimate the bit length. *)
Lemma choose_multiplier_reciprocal {M : Libm} (divisor : Z) :
  1 <= divisor -> divisor <= 2 ^ ceil_log2 divisor ->
  exists factor factor_shr,
    (forall fuel, (Z.to_nat (ceil_log2 divisor) + 1 <= fuel)%nat ->
       choose_multiplier fuel divisor 128 false
       = Ok (factor, factor_shr, ceil_log2 divisor)) /\
    reciprocal divisor 128 factor factor_shr.
Proof.
  intros Hd Hle.
  assert (Hl : 0 <= ceil_log2 divisor).
  { destruct (Z_lt_le_dec (ceil_log2 divisor) 0) as [Hneg|]; [|assumption].
    rewrite Z.pow_neg_r in Hle by assumption. lia. }
  destruct (choose_multiplier_runs divisor Hd Hl)
    as (factor & s & Hrun & _ & Hs & Hfactor & Hpass & _).
  exists factor, s. split; [exact Hrun|].
  subst factor.
  destruct (Z.eq_dec s (ceil_log2 divisor)) as [->|Hne].
  - apply reciprocal_initial; lia.
  - apply reciprocal_after_halving; try lia.
    specialize (Hpass (s + 1) ltac:(lia)).
    replace (s + 1 - 1) with s in Hpass by lia. exact Hpass.
Qed.

Lemma log2_le_bit_length (divisor l : Z) :
  1 <= divisor -> divisor <= 2 ^ l -> Z.log2 divisor <= l.
Proof.
  intros Hd Hle.
  destruct (Z_lt_le_dec l 0) as [Hneg|Hl].
  - rewrite Z.pow_neg_r in Hle by assumption. lia.
  - rewrite <- (Z.log2_pow2 l Hl). apply Z.log2_le_mono, Hle.
Qed.

(** A divisor just above [2^l] whose bit length the C library gives as
    [l], the conversion to binary64 having rounded it to [2^l]: the
    multiple [(2^128 - e*2^(128-l) + e^2*2^(128-2l)) * divisor] of the
    divisor, where [e = divisor - 2^l], lies in the interval that makes
    the unhalved multiplier a reciprocal. *)
Lemma reciprocal_initial_near_pow2 (divisor l : Z) :
  0 <= l <= 64 -> 2 ^ l < divisor ->
  (divisor - 2 ^ l) * 2 ^ 43 <= 2 ^ l ->
  reciprocal divisor 128 (m_high_at divisor 128 l) l.
Proof.
  intros Hl Hlt Hnear.
  pose proof (pow2_pos l ltac:(lia)) as HP.
  assert (Hd : 0 < divisor) by lia.
  split; [lia|]. split; [|apply m_high_upper; lia].
  set (P := 2 ^ l) in *. set (e := divisor - P) in *.
  set (A := 2 ^ (128 - 2 * l)).
  assert (HA : 0 < A) by (apply pow2_pos; lia).
  assert (E128 : 2 ^ 128 = A * P * P).
  { unfold A, P. rewrite <- !Z.pow_add_r by lia. f_equal. lia. }
  assert (EP : 2 ^ (128 + l) = A * P * P * P).
  { rewrite Z.pow_add_r, E128 by lia. reflexivity. }
  assert (He : 1 <= e) by (unfold e; lia).
  assert (Hcube : e * e * e * A <= P).
  { assert (H1 : (e * 2 ^ 43) * (e * 2 ^ 43) <= P * P)
      by (apply Z.mul_le_mono_nonneg; lia).
    assert (H2 : (e * 2 ^ 43) * (e * 2 ^ 43) * (e * 2 ^ 43) <= P * P * P)
      by (apply Z.mul_le_mono_nonneg; nia).
    assert (H3 : e * e * e * 2 ^ 128 <= e * e * e * 2 ^ 129).
    { apply Z.mul_le_mono_nonneg_l; [nia|].
      apply Z.pow_le_mono_r; lia. }
    replace (e * 2 ^ 43 * (e * 2 ^ 43) * (e * 2 ^ 43))
      with (e * e * e * 2 ^ 129) in H2
      by (change (2 ^ 129) with (2 ^ 43 * 2 ^ 43 * 2 ^ 43); ring).
    rewrite E128 in H3 at 1.
    assert (H4 : (e * e * e * A) * (P * P) <= P * (P * P)).
    { replace (e * e * e * A * (P * P)) with (e * e * e * (A * P * P)) by ring.
      replace (P * (P * P)) with (P * P * P) by ring. lia. }
    apply Z.mul_le_mono_pos_r with (p := P * P); [nia|exact H4]. }
  set (Q := A * P * P - e * (A * P) + e * e * A).
  assert (EQ : divisor * Q = 2 ^ (128 + l) + e * e * e * A).
  { rewrite EP. replace divisor with (P + e) by (unfold e; lia).
    unfold Q. ring. }
  assert (HQ : Q <= m_high_at divisor 128 l).
  { unfold m_high_at. apply Z.div_le_lower_bound; [exact Hd|].
    rewrite EQ. fold P. lia. }
  apply Z.le_trans with (Q * divisor); [rewrite Z.mul_comm, EQ; nia|].
  apply Z.mul_le_mono_nonneg_r; lia.
Qed.

(** The multiplier that [choose_multiplier] returns is a reciprocal also
    when the bit length [l] is underestimated for a divisor within
    [2^(l-43)] above [2^l]. *)
Lemma choose_multiplier_reciprocal_rounded {M : Libm} (divisor : Z) :
  1 <= divisor ->
  let l := ceil_log2 divisor in
  divisor <= 2 ^ l \/
  (0 <= l <= 64 /\ 2 ^ l < divisor /\
   (divisor - 2 ^ l) * 2 ^ 43 <= 2 ^ l) ->
  exists factor factor_shr,
    (forall fuel, (Z.to_nat l + 1 <= fuel)%nat ->
       choose_multiplier fuel divisor 128 false
       = Ok (factor, factor_shr, l)) /\
    reciprocal divisor 128 factor factor_shr.
Proof.
  intros Hd l Hlog.
  assert (Hl : 0 <= l).
  { destruct Hlog as [Hle|[? _]]; [|lia].
    destruct (Z_lt_le_dec l 0) as [Hneg|]; [|assumption].
    rewrite Z.pow_neg_r in Hle by assumption. lia. }
  destruct (choose_multiplier_runs divisor Hd Hl)
    as (factor & s & Hcm & _ & Hs & Hfactor & Hpass & _).
  fold l in Hcm, Hs, Hpass.
  exists factor, s. split; [exact Hcm|].
  subst factor.
  destruct (Z.eq_dec s l) as [->|Hne].
  - destruct Hlog as [Hle|(Hl64 & Hlt & Hnear)].
    + apply reciprocal_initial; lia.
    + apply reciprocal_initial_near_pow2; assumption.
  - apply reciprocal_after_halving; try lia.
    specialize (Hpass (s + 1) ltac:(lia)).
    replace (s + 1 - 1) with s in Hpass by lia. exact Hpass.
Qed.

(** C4.  Let [shr] be the number of trailing zero bits that [fast_shift]
    finds in a positive divisor.  For every dividend [n < 2^(64+shr)] the
    shortcut quotient [(n >> shr) // (divisor >> shr)] is
    [floor(n / divisor)], and it is what [udiv128] returns, with the
    remainder; from [2^(64+shr)] on [udiv128] returns the multiply-high
    quotient [u128_mulhi(n, factor) >> factor_shr].  For a divisor up to
    [2^64-1] and [0 <= n < 2^(64+shr)] the multiply-high quotient is the
    same as the shortcut quotient, if the bit length [l] that the C library
    gives is no underestimate, or is one only for a divisor within
    [2^(l-43)] above [2^l] (the conversion to binary64, which rounds such a
    divisor to [2^l], stays within [2^(l-53)]). *)
Theorem fast_branch_exact {M : Libm} (divisor : Z) :
  1 <= divisor ->
  exists shr,
    (forall fuel, (Z.to_nat (Z.log2 divisor) + 1 <= fuel)%nat ->
                  fast_shift fuel divisor = Ok shr) /\
    0 <= shr /\ divisor mod 2 ^ shr = 0 /\ divisor mod 2 ^ (shr + 1) <> 0 /\
    (forall n, n < 2 ^ (64 + shr) ->
      floordiv (Z.shiftr n shr) (Z.shiftr divisor shr) = Ok (n / divisor) /\
      (0 <= ceil_log2 divisor ->
       forall fuel,
         (Z.to_nat (ceil_log2 divisor) + 1 <= fuel)%nat ->
         (Z.to_nat (Z.log2 divisor) + 1 <= fuel)%nat ->
         udiv128 fuel n divisor
         = Ok (n / divisor, n - n / divisor * divisor)) /\
      (0 <= n -> divisor <= u64_max ->
       let l := ceil_log2 divisor in
       divisor <= 2 ^ l \/
       (0 <= l <= 64 /\ 2 ^ l < divisor /\
        (divisor - 2 ^ l) * 2 ^ 43 <= 2 ^ l) ->
       exists factor factor_shr,
         (forall fuel, (Z.to_nat l + 1 <= fuel)%nat ->
            choose_multiplier fuel divisor 128 false
            = Ok (factor, factor_shr, l)) /\
         Z.shiftr (u128_mulhi n factor) factor_shr = n / divisor)) /\
    (forall n, 2 ^ (64 + shr) <= n ->
       0 <= ceil_log2 divisor ->
       exists factor factor_shr,
       forall fuel,
         (Z.to_nat (ceil_log2 divisor) + 1 <= fuel)%nat ->
         (Z.to_nat (Z.log2 divisor) + 1 <= fuel)%nat ->
         choose_multiplier fuel divisor 128 false
         = Ok (factor, factor_shr, ceil_log2 divisor) /\
         udiv128 fuel n divisor
         = Ok (Z.shiftr (u128_mulhi n factor) factor_shr,
               n - Z.shiftr (u128_mulhi n factor) factor_shr * divisor)).
Proof.
  intros Hd.
  destruct (fast_shift_trailing_zeros divisor ltac:(lia))
    as (shr & Hshr & Hs0 & Hs1 & Hrun).
  rewrite Z.abs_eq in * by lia.
  assert (Eshl : Z.shiftl 1 (64 + shr) = 2 ^ (64 + shr))
    by (rewrite Z.shiftl_mul_pow2 by lia; lia).
  exists shr. split; [exact Hrun|]. split; [lia|].
  split; [assumption|]. split; [assumption|]. split.
  - intros n Hn.
    destruct (shifted_quotient n divisor shr ltac:(lia) ltac:(lia) Hs0)
      as [Hnz Hquot].
    assert (Hfloor : floordiv (Z.shiftr n shr) (Z.shiftr divisor shr)
                     = Ok (n / divisor)).
    { unfold floordiv. apply Z.eqb_neq in Hnz. rewrite Hnz, Hquot.
      reflexivity. }
    split; [exact Hfloor|]. split.
    + intros Hl fuel Hfuel1 Hfuel2.
      destruct (choose_multiplier_runs divisor Hd Hl)
        as (factor & factor_shr & Hcm & _).
      unfold udiv128. rewrite (Hcm fuel Hfuel1). cbn [bind].
      rewrite (Hrun fuel Hfuel2). cbn [bind]. rewrite Eshl.
      apply Z.ltb_lt in Hn. rewrite Hn, Hfloor. reflexivity.
    + intros Hn0 H64 l Hlog.
      destruct (choose_multiplier_reciprocal_rounded divisor Hd Hlog)
        as (factor & factor_shr & Hcm & Hrec).
      exists factor, factor_shr. split; [exact Hcm|].
      apply mulhi_shift_exact with (divisor := divisor);
        [lia|exact Hrec|].
      split; [assumption|].
      assert (Hlog64 : Z.log2 divisor < 64)
        by (apply Z.log2_lt_pow2; unfold u64_max in H64; lia).
      assert (2 ^ (64 + shr) <= 2 ^ 127) by (apply Z.pow_le_mono_r; lia).
      unfold u128_max. lia.
  - intros n Hn Hl.
    destruct (choose_multiplier_runs divisor Hd Hl)
      as (factor & factor_shr & Hcm & _).
    exists factor, factor_shr. intros fuel Hfuel1 Hfuel2.
    split; [exact (Hcm fuel Hfuel1)|].
    unfold udiv128. rewrite (Hcm fuel Hfuel1). cbn [bind].
    rewrite (Hrun fuel Hfuel2). cbn [bind]. rewrite Eshl.
    apply Z.ltb_ge in Hn. rewrite Hn. reflexivity.
Qed.

Lemma fast_branch_exact_witness :
  exists shr,
    shr = 0 /\
    floordiv (Z.shiftr (2 ^ 63) shr) (Z.shiftr (2 ^ 60 + 1) shr) = Ok 7 /\
    udiv128 (M := binary64_libm) 61 (2 ^ 63) (2 ^ 60 + 1)
    = Ok (7, 2 ^ 60 - 7) /\
    exists factor factor_shr,
      Z.shiftr (u128_mulhi (2 ^ 63) factor) factor_shr = 7.
Proof.
  destruct (fast_branch_exact (M := binary64_libm) (2 ^ 60 + 1))
    as (shr & Hrun & _ & _ & _ & Hn & _).
  - vm_compute. discriminate.
  - exists shr.
    assert (Eshr : shr = 0).
    { specialize (Hrun 100%nat ltac:(vm_compute; lia)).
      vm_compute in Hrun. injection Hrun as <-. reflexivity. }
    split; [exact Eshr|].
    destruct (Hn (2 ^ 63)) as (Hfast & Hdiv & Hmul).
    + rewrite Eshr. vm_compute. reflexivity.
    + split; [exact Hfast|]. split.
      * apply Hdiv.
        -- vm_compute. discriminate.
        -- vm_compute. lia.
        -- vm_compute. lia.
      * destruct Hmul as (factor & factor_shr & _ & Hq).
        -- vm_compute. discriminate.
        -- vm_compute. discriminate.
        -- right. vm_compute. repeat split; discriminate.
        -- exists factor, factor_shr. exact Hq.
Defined.

(** [udiv128] divides exactly by every divisor [>= 1], as long as the C
    library does not underestimate the divisor's bit length. *)
Lemma udiv128_quotient {M : Libm} (divisor n : Z) (fuel : nat) :
  1 <= divisor -> divisor <= 2 ^ ceil_log2 divisor ->
  (Z.to_nat (ceil_log2 divisor) + 1 <= fuel)%nat ->
  0 <= n <= u128_max ->
  exists quotient remainder,
    udiv128 fuel n divisor = Ok (quotient, remainder) /\
    quotient = n / divisor /\
    remainder = n - quotient * divisor /\
    quotient * divisor + remainder = n /\
    0 <= remainder < divisor.
Proof.
  intros Hd Hlog Hfuel Hn.
  exists (n / divisor), (n - n / divisor * divisor).
  split; [|split; [reflexivity|split; [reflexivity|split; [ring|]]]].
  - destruct (choose_multiplier_reciprocal divisor Hd Hlog)
      as (factor & factor_shr & Hcm & Hrec).
    destruct (fast_shift_trailing_zeros divisor ltac:(lia))
      as (shr & Hshr & Hs0 & Hs1 & Hrun).
    rewrite Z.abs_eq in * by lia.
    pose proof (log2_le_bit_length divisor _ Hd Hlog) as Hll.
    unfold udiv128. rewrite (Hcm fuel Hfuel). cbn [bind].
    rewrite (Hrun fuel) by lia. cbn [bind].
    destruct (n <? Z.shiftl 1 (64 + shr)).
    + destruct (shifted_quotient n divisor shr ltac:(lia) ltac:(lia) Hs0)
        as [Hnz Hquot].
      unfold floordiv. apply Z.eqb_neq in Hnz. rewrite Hnz, Hquot.
      reflexivity.
    + rewrite (mulhi_shift_exact divisor factor factor_shr n) by
          (assumption || lia).
      reflexivity.
  - pose proof (div_lower n divisor ltac:(lia)).
    pose proof (div_upper n divisor ltac:(lia)). lia.
Qed.


(** ** The generator *)

Lemma length_append (s t : string) :
  String.length (s ++ t) = (String.length s + String.length t)%nat.
Proof.
  induction s as [|c s IH]; simpl; [reflexivity|rewrite IH; reflexivity].
Qed.

Lemma len_bin_digits (p : positive) : len (bin_digits p) = Z.pos (Pos.size p).
Proof.
  unfold len. induction p as [p IH|p IH|]; cbn [bin_digits Pos.size].
  - rewrite length_append, Nat2Z.inj_add, IH. simpl. lia.
  - rewrite length_append, Nat2Z.inj_add, IH. simpl. lia.
  - reflexivity.
Qed.

Lemma bit_length_pos (p : positive) : bit_length (Z.pos p) = Z.pos (Pos.size p).
Proof.
  unfold bit_length. cbn [Z.eqb Z.abs].
  destruct p as [p|p|]; cbn [Z.log2 Pos.size]; lia.
Qed.

(** [bin] writes two characters, ["0b"], before the binary digits. *)
Lemma len_bin (divisor : Z) :
  0 < divisor -> len (bin divisor) = 2 + bit_length divisor.
Proof.
  intros Hd. destruct divisor as [|p|p]; try lia.
  rewrite bit_length_pos, <- len_bin_digits. unfold len. cbn [bin].
  rewrite length_append. simpl String.length. lia.
Qed.

Lemma fast_shift_ok_nonzero (fuel : nat) (divisor s : Z) :
  fast_shift fuel divisor = Ok s -> divisor <> 0.
Proof.
  intros Hrun ->. rewrite fast_shift_zero_diverges in Hrun. discriminate.
Qed.

(** Inversion of one round of the generator that did not take the
    power-of-two path. *)
Lemma divisor_constant_inv {M : Libm} (fuel : nat) (radix : Z) (i : item) :
  divisor_constant fuel radix = Ok i ->
  is_pow2 radix = Ok true /\ print_pow2 radix = Ok i \/
  is_pow2 radix = Ok false /\
  exists digits fast_shr factor factor_shr l,
    find_power fuel radix = Ok digits /\
    fast_shift fuel (radix ^ digits) = Ok fast_shr /\
    choose_multiplier fuel (radix ^ digits) 128 false
    = Ok (factor, factor_shr, l) /\
    i = (if 2 ^ 128 <=? factor
         then print_slow radix (radix ^ digits) digits
         else if negb (fast_shr =? 0)
              then print_fast radix (radix ^ digits) fast_shr factor
                              factor_shr digits
              else print_moderate radix (radix ^ digits) factor factor_shr
                                  digits).
Proof.
  unfold divisor_constant. intros Hrun.
  destruct (is_pow2 radix) as [[|]| |]; cbn [bind] in Hrun;
    try discriminate; [left; split; [reflexivity|assumption]|].
  right. split; [reflexivity|].
  destruct (find_power fuel radix) as [digits| |] eqn:Efp;
    cbn [bind] in Hrun; try discriminate.
  destruct (fast_shift fuel (radix ^ digits)) as [fast_shr| |] eqn:Efs;
    cbn [bind] in Hrun; try discriminate.
  destruct (choose_multiplier fuel (radix ^ digits) 128 false)
    as [[[factor factor_shr] l]| |] eqn:Ecm; cbn [bind] in Hrun;
    try discriminate.
  cbv beta iota zeta in Hrun.
  exists digits, fast_shr, factor, factor_shr, l.
  repeat (split; [reflexivity || assumption|]).
  destruct (2 ^ 128 <=? factor); [congruence|].
  destruct (negb (fast_shr =? 0)); congruence.
Qed.

(** Every divisor that the generator writes is a power of the radix, and
    at least 1. *)
Lemma generated_divisor_positive {M : Libm} (fuel : nat) (radix divisor : Z)
      (i : item) :
  2 <= radix ->
  divisor_constant fuel radix = Ok i -> divisor_of i = Some divisor ->
  1 <= divisor /\ exists digits, divisor = radix ^ digits.
Proof.
  intros Hr Hrun Hdiv.
  destruct (divisor_constant_inv fuel radix _ Hrun)
    as [[_ Hp]|[_ (dg & fs & f & fsh & l & _ & Hfs & _ & Hi)]].
  - unfold print_pow2 in Hp. destruct (radix <=? 0); [discriminate|].
    destruct (floordiv 64 (int_log2 radix)); cbn [bind] in Hp;
      try discriminate.
    injection Hp as <-. discriminate.
  - assert (Hd : divisor = radix ^ dg).
    { subst i. destruct (2 ^ 128 <=? f); [|destruct (negb (fs =? 0))];
        cbn in Hdiv; congruence. }
    pose proof (fast_shift_ok_nonzero _ _ _ Hfs) as Hnz.
    assert (0 <= radix ^ dg) by (apply Z.pow_nonneg; lia).
    split; [lia|]. exists dg. exact Hd.
Qed.

(** C1.  For every divisor produced by the generator, and for the default
    divisor [10^19], and for every dividend [n] in [0, 2^128-1],
    [udiv128(n, divisor)] returns [(quotient, remainder)] with
    [quotient = floor(n / divisor)] and
    [remainder = n - quotient*divisor], so that
    [quotient*divisor + remainder = n] and [0 <= remainder < divisor].
    The C library must not underestimate the divisor's bit length:
    [divisor <= 2^ceil(log2(divisor))]. *)
Theorem udiv128_exact {M : Libm} (divisor n : Z) (fuel : nat) :
  (divisor = default_divisor \/
   exists fuel' radix i,
     2 <= radix <= 36 /\ divisor_constant fuel' radix = Ok i /\
     divisor_of i = Some divisor) ->
  divisor <= 2 ^ ceil_log2 divisor ->
  (Z.to_nat (ceil_log2 divisor) + 1 <= fuel)%nat ->
  0 <= n <= u128_max ->
  exists quotient remainder,
    udiv128 fuel n divisor = Ok (quotient, remainder) /\
    quotient = n / divisor /\
    remainder = n - quotient * divisor /\
    quotient * divisor + remainder = n /\
    0 <= remainder < divisor.
Proof.
  intros Hgen. apply udiv128_quotient.
  destruct Hgen as [->|(fuel' & radix & i & Hr & Hrun & Hdiv)].
  - vm_compute. discriminate.
  - apply (generated_divisor_positive fuel' radix divisor i); tauto || lia.
Qed.

Lemma udiv128_exact_witness :
  exists quotient remainder,
    udiv128 (M := exact_libm) 65 u128_max default_divisor
    = Ok (quotient, remainder) /\
    quotient = 34028236692093846346 /\ remainder = 3374607431768211455.
Proof.
  destruct (udiv128_exact (M := exact_libm) default_divisor u128_max 65)
    as (q & r & Hrun & Hq & Hr & _).
  - left. reflexivity.
  - vm_compute. discriminate.
  - vm_compute. lia.
  - vm_compute. split; discriminate.
  - exists q, r. split; [exact Hrun|].
    subst r q. split; vm_compute; reflexivity.
Defined.

(** ** Termination of the loops *)

(** The loop of [find_power] stops from any non-negative exponent,
    because the powers of the radix grow beyond [u64_max]. *)
Lemma find_power_loop_terminates (radix : Z) (k : nat) :
  2 <= radix ->
  forall p,
    0 <= p -> u64_max < radix ^ (p + Z.of_nat k) ->
    exists p',
      p <= p' <= p + Z.of_nat k /\
      forall fuel, (k + 1 <= fuel)%nat ->
        while_ fuel (fun p => is_valid (radix ^ p)) (fun p => p + 1) p
        = Ok p'.
Proof.
  intros Hr. induction k as [|k IH]; intros p Hp Hgt.
  - exists p. split; [lia|]. intros [|fuel] Hfuel; [lia|].
    cbn [while_]. rewrite is_valid_exact by (apply pow_radix_pos; lia).
    rewrite Z.add_0_r in Hgt.
    assert (E : (radix ^ p <=? u64_max) = false) by (apply Z.leb_gt; lia).
    rewrite E. reflexivity.
  - destruct (IH (p + 1)) as (p' & Hp' & Hrun); [lia| |].
    { replace (p + 1 + Z.of_nat k) with (p + Z.of_nat (S k)) by lia.
      assumption. }
    pose proof (is_valid_exact (radix ^ p) (pow_radix_pos radix p Hr Hp))
      as Hv.
    destruct ((radix ^ p <=? u64_max) && (min_valid <=? radix ^ p)).
    + exists p'. split; [lia|]. intros [|fuel] Hfuel; [lia|].
      cbn [while_]. rewrite Hv. cbn [bind]. apply Hrun. lia.
    + exists p. split; [lia|]. intros [|fuel] Hfuel; [lia|].
      cbn [while_]. rewrite Hv. reflexivity.
Qed.

Lemma find_power_terminates {M : Libm} (radix : Z) :
  2 <= radix -> 2 <= floor_log u64_max radix ->
  exists digits,
    0 <= digits /\
    forall fuel, (65 <= fuel)%nat -> find_power fuel radix = Ok digits.
Proof.
  intros Hr HL. set (start := floor_log u64_max radix - 1).
  destruct (find_power_loop_terminates radix (Z.to_nat (64 - start)) Hr start
              ltac:(unfold start; lia)) as (p' & Hp' & Hrun).
  - apply Z.lt_le_trans with (2 ^ 64); [reflexivity|].
    transitivity (2 ^ (start + Z.of_nat (Z.to_nat (64 - start)))).
    + apply Z.pow_le_mono_r; lia.
    + apply Z.pow_le_mono_l. lia.
  - exists (p' - 1). split; [unfold start in *; lia|].
    intros fuel Hfuel. unfold find_power.
    destruct (radix <=? 0) eqn:E0; [apply Z.leb_le in E0; lia|].
    destruct (radix =? 1) eqn:E1; [apply Z.eqb_eq in E1; lia|].
    fold start. rewrite Hrun by (unfold start in *; lia). reflexivity.
Qed.

(** ** Fuel does not change results *)

Lemma bind_ok {A B : Type} (r : result A) (k : A -> result B) (b : B) :
  bind r k = Ok b -> exists a, r = Ok a /\ k a = Ok b.
Proof. destruct r as [a| |]; cbn [bind]; try discriminate. eauto. Qed.

Lemma find_power_fuel_mono {M : Libm} (fuel fuel' : nat) (radix d : Z) :
  (fuel <= fuel')%nat ->
  find_power fuel radix = Ok d -> find_power fuel' radix = Ok d.
Proof.
  unfold find_power. intros Hle.
  destruct (radix <=? 0); [trivial|]. destruct (radix =? 1); [trivial|].
  intros Hrun. apply bind_ok in Hrun as (p & Hloop & Hp).
  rewrite (while_fuel_mono _ _ fuel fuel' _ _ Hle Hloop). exact Hp.
Qed.

Lemma fast_shift_fuel_mono (fuel fuel' : nat) (divisor s : Z) :
  (fuel <= fuel')%nat ->
  fast_shift fuel divisor = Ok s -> fast_shift fuel' divisor = Ok s.
Proof. unfold fast_shift. apply while_fuel_mono. Qed.

Lemma choose_multiplier_fuel_mono {M : Libm} (fuel fuel' : nat)
      (divisor bits : Z) (is_signed : bool) (r : Z * Z * Z) :
  (fuel <= fuel')%nat ->
  choose_multiplier fuel divisor bits is_signed = Ok r ->
  choose_multiplier fuel' divisor bits is_signed = Ok r.
Proof.
  unfold choose_multiplier. intros Hle.
  destruct (divisor <=? 0); [trivial|].
  intros Hrun. apply bind_ok in Hrun as (st & Hloop & Hst).
  rewrite (while_fuel_mono _ _ fuel fuel' _ _ Hle Hloop). exact Hst.
Qed.

Lemma divisor_constant_fuel_mono {M : Libm} (fuel fuel' : nat) (radix : Z)
      (i : item) :
  (fuel <= fuel')%nat ->
  divisor_constant fuel radix = Ok i -> divisor_constant fuel' radix = Ok i.
Proof.
  intros Hle Hrun.
  destruct (divisor_constant_inv fuel radix i Hrun)
    as [[Hp Hi]|[Hp (dg & fs & f & fsh & l & Hfp & Hfs & Hcm & Hi)]];
    unfold divisor_constant; rewrite Hp; cbn [bind]; [exact Hi|].
  rewrite (find_power_fuel_mono fuel fuel' radix dg Hle Hfp). cbn [bind].
  rewrite (fast_shift_fuel_mono fuel fuel' _ fs Hle Hfs). cbn [bind].
  rewrite (choose_multiplier_fuel_mono fuel fuel' _ _ _ _ Hle Hcm).
  cbn [bind]. cbv beta iota zeta. rewrite Hi.
  destruct (2 ^ 128 <=? f); [reflexivity|].
  destruct (negb (fs =? 0)); reflexivity.
Qed.

(** ** One round of the generator *)

(** A radix that [is_pow2] accepts is a power of two with a positive
    exponent, so [print_pow2] does not divide by zero. *)
Lemma print_pow2_runs {M : Libm} (radix : Z) :
  2 <= radix -> is_pow2 radix = Ok true ->
  radix = 2 ^ int_log2 radix /\ 1 <= int_log2 radix /\
  exists i, print_pow2 radix = Ok i /\ tier_of i = PowerOfTwo.
Proof.
  intros Hr Hp. unfold is_pow2 in Hp.
  destruct (radix <=? 0); [discriminate|].
  injection Hp as Hp. apply Z.eqb_eq in Hp.
  assert (Hk : 1 <= int_log2 radix).
  { destruct (Z_lt_le_dec (int_log2 radix) 1) as [Hlt|]; [|assumption].
    destruct (Z.eq_dec (int_log2 radix) 0) as [E|E].
    - rewrite E in Hp. simpl in Hp. lia.
    - rewrite Z.pow_neg_r in Hp by lia. lia. }
  split; [assumption|]. split; [assumption|].
  unfold print_pow2, floordiv.
  destruct (radix <=? 0) eqn:Er; [apply Z.leb_le in Er; lia|].
  destruct (int_log2 radix =? 0) eqn:E0; [apply Z.eqb_eq in E0; lia|].
  cbn [bind]. eexists. split; reflexivity.
Qed.

(** The other radices: the three computations return, and the item is
    chosen by the size of the multiplier and by the shift. *)
Lemma divisor_constant_runs {M : Libm} (radix : Z) :
  2 <= radix -> is_pow2 radix = Ok false ->
  2 <= floor_log u64_max radix ->
  (forall x, 1 <= x -> 0 <= ceil_log2 x) ->
  exists digits fast_shr factor factor_shr fuel0,
    0 <= digits /\ 0 <= fast_shr /\ 0 <= factor /\
    (forall fuel, (fuel0 <= fuel)%nat ->
       find_power fuel radix = Ok digits /\
       fast_shift fuel (radix ^ digits) = Ok fast_shr /\
       choose_multiplier fuel (radix ^ digits) 128 false
       = Ok (factor, factor_shr, ceil_log2 (radix ^ digits)) /\
       divisor_constant fuel radix
       = Ok (if 2 ^ 128 <=? factor
             then print_slow radix (radix ^ digits) digits
             else if negb (fast_shr =? 0)
                  then print_fast radix (radix ^ digits) fast_shr factor
                                  factor_shr digits
                  else print_moderate radix (radix ^ digits) factor
                                      factor_shr digits)).
Proof.
  intros Hr Hp HL Hlog.
  destruct (find_power_terminates radix Hr HL) as (digits & Hd & Hfp).
  pose proof (pow_radix_pos radix digits Hr Hd) as Hpos.
  set (divisor := radix ^ digits) in *.
  destruct (fast_shift_trailing_zeros divisor ltac:(lia))
    as (fast_shr & Hfs & _ & _ & Hrun).
  destruct (choose_multiplier_runs divisor Hpos (Hlog divisor Hpos))
    as (factor & factor_shr & Hcm & _ & Hs & Hfactor & _).
  exists digits, fast_shr, factor, factor_shr.
  exists (65 + (Z.to_nat (Z.log2 (Z.abs divisor)) + 1)
          + (Z.to_nat (ceil_log2 divisor) + 1))%nat.
  split; [assumption|]. split; [lia|]. split.
  { rewrite Hfactor. unfold m_high_at. apply Z.div_pos; [|lia].
    pose proof (pow2_pos (128 + factor_shr) ltac:(lia)).
    pose proof (pow2_pos factor_shr ltac:(lia)). lia. }
  intros fuel Hfuel.
  assert (E1 : find_power fuel radix = Ok digits) by (apply Hfp; lia).
  assert (E2 : fast_shift fuel divisor = Ok fast_shr) by (apply Hrun; lia).
  assert (E3 : choose_multiplier fuel divisor 128 false
               = Ok (factor, factor_shr, ceil_log2 divisor))
    by (apply Hcm; lia).
  repeat (split; [assumption|]).
  unfold divisor_constant. rewrite Hp. cbn [bind]. rewrite E1. cbn [bind].
  fold divisor. rewrite E2. cbn [bind]. rewrite E3. cbn [bind].
  cbv beta iota zeta.
  destruct (2 ^ 128 <=? factor); [reflexivity|].
  destruct (negb (fast_shr =? 0)); reflexivity.
Qed.

Lemma not_pow2_no_exponent (radix : Z) :
  2 <= radix -> 2 ^ Z.log2 radix <> radix -> forall k, radix <> 2 ^ k.
Proof.
  intros Hr Hne k E. apply Hne.
  destruct (Z_lt_le_dec k 0) as [Hk|Hk].
  - rewrite Z.pow_neg_r in E by assumption. lia.
  - rewrite E at 1. rewrite Z.log2_pow2 by assumption. symmetry. exact E.
Qed.

Lemma print_pow2_radix {M : Libm} (radix : Z) (i : item) :
  print_pow2 radix = Ok i -> radix_of i = radix.
Proof.
  unfold print_pow2. destruct (radix <=? 0); [discriminate|].
  destruct (floordiv 64 (int_log2 radix)); cbn [bind]; try discriminate.
  intros E. injection E as <-. reflexivity.
Qed.

(** One round, for a radix in [2,36]: it returns one item, hence one
    tier, and raises nothing.  The tier is PowerOfTwo exactly when the
    radix is a power of two (so for 2, 4, 8, 16 and 32); otherwise it is
    Slow exactly when the chosen multiplier is at least [2^128];
    otherwise Fast exactly when [fast_shift] is not zero; otherwise
    Moderate.  So the multiplier of a Fast or Moderate item is below
    [2^128]. *)
Lemma divisor_constant_tier_radix {M : Libm} (radix : Z) :
  2 <= radix <= 36 ->
  (2 ^ Z.log2 radix = radix -> int_log2 radix = Z.log2 radix) ->
  (2 ^ Z.log2 radix <> radix -> 2 <= floor_log u64_max radix) ->
  (forall x, 1 <= x -> 0 <= ceil_log2 x) ->
  exists fuel0 i,
    radix_of i = radix /\
    (forall fuel, (fuel0 <= fuel)%nat -> divisor_constant fuel radix = Ok i) /\
    (tier_of i = PowerOfTwo <-> exists k, radix = 2 ^ k) /\
    (In radix [2; 4; 8; 16; 32] -> tier_of i = PowerOfTwo) /\
    (tier_of i <> PowerOfTwo ->
     exists digits fast_shr factor factor_shr l,
       (forall fuel, (fuel0 <= fuel)%nat ->
          find_power fuel radix = Ok digits /\
          fast_shift fuel (radix ^ digits) = Ok fast_shr /\
          choose_multiplier fuel (radix ^ digits) 128 false
          = Ok (factor, factor_shr, l)) /\
       (tier_of i = Slow <-> 2 ^ 128 <= factor) /\
       (tier_of i = Fast <-> factor < 2 ^ 128 /\ fast_shr <> 0) /\
       (tier_of i = Moderate <-> factor < 2 ^ 128 /\ fast_shr = 0) /\
       (forall mult, multiplier_of i = Some mult ->
                     mult = factor /\ 0 <= mult < 2 ^ 128)).
Proof.
  intros Hr Hpow Hfloor Hlog.
  destruct (Z.eq_dec (2 ^ Z.log2 radix) radix) as [Epow|Npow].
  - assert (Hp : is_pow2 radix = Ok true).
    { unfold is_pow2.
      destruct (radix <=? 0) eqn:E0; [apply Z.leb_le in E0; lia|].
      rewrite (Hpow Epow), Epow, Z.eqb_refl. reflexivity. }
    destruct (print_pow2_runs radix ltac:(lia) Hp) as (Ek & _ & i & Hi & Ht).
    exists 0%nat, i. split; [apply (print_pow2_radix _ _ Hi)|].
    split; [|split; [|split]].
    + intros fuel _. unfold divisor_constant. rewrite Hp. exact Hi.
    + split; [intros _; eexists; exact Ek|intros _; exact Ht].
    + intros _. exact Ht.
    + intros Hnot. contradiction.
  - pose proof (not_pow2_no_exponent radix ltac:(lia) Npow) as Hno.
    assert (Hp : is_pow2 radix = Ok false).
    { unfold is_pow2.
      destruct (radix <=? 0) eqn:E0; [apply Z.leb_le in E0; lia|].
      destruct (radix =? 2 ^ int_log2 radix) eqn:E; [|reflexivity].
      apply Z.eqb_eq in E. destruct (Hno _ E). }
    destruct (divisor_constant_runs radix ltac:(lia) Hp (Hfloor Npow) Hlog)
      as (digits & fast_shr & factor & factor_shr & fuel0
          & Hd & Hfs & Hf & Hrun).
    exists fuel0. eexists.
    split; [|split; [intros fuel Hfuel; apply (Hrun fuel Hfuel)|]].
    { destruct (2 ^ 128 <=? factor); [|destruct (negb (fast_shr =? 0))];
        reflexivity. }
    assert (Hcases :
      forall i,
        i = (if 2 ^ 128 <=? factor
             then print_slow radix (radix ^ digits) digits
             else if negb (fast_shr =? 0)
                  then print_fast radix (radix ^ digits) fast_shr factor
                                  factor_shr digits
                  else print_moderate radix (radix ^ digits) factor
                                      factor_shr digits) ->
        tier_of i <> PowerOfTwo /\
        (tier_of i = Slow <-> 2 ^ 128 <= factor) /\
        (tier_of i = Fast <-> factor < 2 ^ 128 /\ fast_shr <> 0) /\
        (tier_of i = Moderate <-> factor < 2 ^ 128 /\ fast_shr = 0) /\
        (forall mult, multiplier_of i = Some mult ->
                      mult = factor /\ 0 <= mult < 2 ^ 128)).
    { intros i ->.
      destruct (2 ^ 128 <=? factor) eqn:E128;
        [apply Z.leb_le in E128|apply Z.leb_gt in E128].
      - cbn. split; [discriminate|].
        repeat split; try discriminate; try lia; intros; tauto || lia.
      - destruct (fast_shr =? 0) eqn:E0;
          [apply Z.eqb_eq in E0|apply Z.eqb_neq in E0]; cbn.
        + split; [discriminate|].
          repeat split; try discriminate; try lia;
            try (intros; injection H as <-; lia); intros; tauto || lia.
        + split; [discriminate|].
          repeat split; try discriminate; try lia;
            try (intros; injection H as <-; lia); intros; tauto || lia. }
    destruct (Hcases _ eq_refl) as (Hnp & Hslow & Hfast & Hmod & Hmult).
    split; [|split; [|intros _]].
    + split; [intros Ht; contradiction|].
      intros [k Ek]. destruct (Hno k Ek).
    + intros Hin. exfalso. cbn [In] in Hin.
      destruct Hin as [E|[E|[E|[E|[E|[]]]]]]; subst radix;
        apply Npow; reflexivity.
    + exists digits, fast_shr, factor, factor_shr,
        (ceil_log2 (radix ^ digits)).
      split; [|repeat (split; [assumption|]); assumption].
      intros fuel Hfuel. destruct (Hrun fuel Hfuel) as (E1 & E2 & E3 & _).
      repeat split; assumption.
Qed.

(** ** The constants do not depend on the rounding of the logarithms *)

Lemma choose_multiplier_ext {M1 M2 : Libm} (fuel : nat) (divisor bits : Z)
      (is_signed : bool) :
  ceil_log2 (Libm := M1) divisor = ceil_log2 (Libm := M2) divisor ->
  choose_multiplier (M := M1) fuel divisor bits is_signed
  = choose_multiplier (M := M2) fuel divisor bits is_signed.
Proof. intros E. unfold choose_multiplier. rewrite E. reflexivity. Qed.

(** The exact logarithm gives the last power of the radix below
    [u64_max]. *)
Lemma exact_floor_log_spec (radix : Z) :
  2 <= radix <= 36 ->
  let D := floor_log (Libm := exact_libm) u64_max radix in
  1 <= D /\ radix ^ D <= u64_max < radix ^ (D + 1).
Proof.
  intros Hr.
  pose proof (forall_radices
    (fun r => let D := floor_log (Libm := exact_libm) u64_max r in
              (1 <=? D) && (r ^ D <=? u64_max) && (u64_max <? r ^ (D + 1)))
    ltac:(vm_compute; reflexivity) radix Hr) as Hall.
  cbv zeta in *.
  apply andb_true_iff in Hall as [Hall H3].
  apply andb_true_iff in Hall as [H1 H2].
  apply Z.leb_le in H1, H2. apply Z.ltb_lt in H3. lia.
Qed.

(** With a logarithm accurate to one unit, [find_power] returns what the
    exact logarithm gives. *)
Lemma find_power_value {M : Libm} (radix : Z) (fuel : nat) :
  2 <= radix <= 36 ->
  let L := floor_log u64_max radix in
  1 <= L -> radix ^ (L - 1) <= u64_max < radix ^ (L + 2) ->
  (4 <= fuel)%nat ->
  find_power fuel radix = Ok (floor_log (Libm := exact_libm) u64_max radix).
Proof.
  intros Hr L HL Hacc Hfuel.
  destruct (find_power_run radix Hr HL Hacc) as (d & Hrun & Hd0 & _ & Hpow).
  destruct (exact_floor_log_spec radix Hr) as [HD HDpow].
  rewrite (Hrun fuel Hfuel). f_equal.
  apply (last_power_unique radix u64_max); try lia; assumption.
Qed.

(** No divisor of the generator is within a millionth of a power of two,
    from above. *)
Lemma generated_divisor_bit_length (radix : Z) :
  2 <= radix <= 36 ->
  let divisor := radix ^ floor_log (Libm := exact_libm) u64_max radix in
  let k := Z.log2_up divisor - 1 in
  0 <= k /\ 1 <= divisor <= 2 ^ (k + 1) /\
  2 ^ k * (2 ^ 20 + 1) <= divisor * 2 ^ 20.
Proof.
  intros Hr.
  pose proof (forall_radices
    (fun r => let divisor := r ^ floor_log (Libm := exact_libm) u64_max r in
              let k := Z.log2_up divisor - 1 in
              (0 <=? k) && (1 <=? divisor) && (divisor <=? 2 ^ (k + 1))
              && (2 ^ k * (2 ^ 20 + 1) <=? divisor * 2 ^ 20))
    ltac:(vm_compute; reflexivity) radix Hr) as Hall.
  cbv zeta in *.
  apply andb_true_iff in Hall as [Hall H4].
  apply andb_true_iff in Hall as [Hall H3].
  apply andb_true_iff in Hall as [H1 H2].
  apply Z.leb_le in H1, H2, H3, H4. lia.
Qed.

(** Let the C library be accurate in the following coarse sense:
    [int(log2)] finds the exponent of a power of two; [floor(log(u64_max,
    radix))] is within one unit; [log2(x) <= k] when [x <= 2^k], and
    [log2(x) > k] when [x >= 2^k (1 + 2^-20)].  Then every item the
    generator writes is the one an exact library gives: no constant
    depends on how the logarithms are rounded. *)
Lemma divisor_constant_rounding_free {M : Libm} (radix : Z) (fuel : nat) :
  2 <= radix <= 36 -> (4 <= fuel)%nat ->
  (2 ^ Z.log2 radix = radix -> int_log2 radix = Z.log2 radix) ->
  (2 ^ Z.log2 radix <> radix ->
   let L := floor_log u64_max radix in
   1 <= L /\ radix ^ (L - 1) <= u64_max < radix ^ (L + 2)) ->
  (forall x k, 1 <= x <= 2 ^ k -> ceil_log2 x <= k) ->
  (forall x k, 0 <= k -> 2 ^ k * (2 ^ 20 + 1) <= x * 2 ^ 20 ->
               k < ceil_log2 x) ->
  divisor_constant fuel radix = divisor_constant (M := exact_libm) fuel radix.
Proof.
  intros Hr Hfuel Hpow Hfloor Hle Hgt.
  destruct (Z.eq_dec (2 ^ Z.log2 radix) radix) as [Epow|Npow].
  - unfold divisor_constant, is_pow2, print_pow2.
    destruct (radix <=? 0) eqn:E0; [reflexivity|].
    rewrite (Hpow Epow). cbn [int_log2 exact_libm].
    replace (radix =? 2 ^ Z.log2 radix) with true
      by (symmetry; apply Z.eqb_eq; lia).
    reflexivity.
  - pose proof (not_pow2_no_exponent radix ltac:(lia) Npow) as Hno.
    assert (Hp : forall M' : Libm, is_pow2 (M := M') radix = Ok false).
    { intros M'. unfold is_pow2.
      destruct (radix <=? 0) eqn:E0; [apply Z.leb_le in E0; lia|].
      destruct (radix =? 2 ^ int_log2 radix) eqn:E; [|reflexivity].
      apply Z.eqb_eq in E. destruct (Hno _ E). }
    destruct (Hfloor Npow) as [HL Hacc].
    destruct (exact_floor_log_spec radix Hr) as [HD [HD1 HD2]].
    set (D := floor_log (Libm := exact_libm) u64_max radix) in *.
    assert (E1 : find_power fuel radix = Ok D)
      by (apply find_power_value; assumption).
    assert (E2 : find_power (M := exact_libm) fuel radix = Ok D).
    { apply find_power_value; [assumption| | |assumption]; fold D.
      - lia.
      - split.
        + transitivity (radix ^ D); [apply Z.pow_le_mono_r; lia|assumption].
        + apply Z.lt_le_trans with (radix ^ (D + 1)); [assumption|].
          apply Z.pow_le_mono_r; lia. }
    destruct (generated_divisor_bit_length radix Hr) as (Hk & Hd & Hfar).
    fold D in Hk, Hd, Hfar. set (divisor := radix ^ D) in *.
    assert (E3 : ceil_log2 divisor = Z.log2_up divisor).
    { pose proof (Hle divisor (Z.log2_up divisor - 1 + 1) Hd).
      pose proof (Hgt divisor (Z.log2_up divisor - 1) Hk Hfar). lia. }
    unfold divisor_constant. rewrite !Hp, E1, E2. cbn [bind]. fold divisor.
    rewrite (choose_multiplier_ext (M1 := M) (M2 := exact_libm));
      [reflexivity|exact E3].
Qed.

(** For instance, an error of one unit on [math.log], in either
    direction, leaves the whole table as it is. *)
Example divisor_constants_shifted_log :
  divisor_constants (M := shifted_libm 1) 65
  = divisor_constants (M := exact_libm) 65 /\
  divisor_constants (M := shifted_libm (-1)) 65
  = divisor_constants (M := exact_libm) 65.
Proof. split; vm_compute; reflexivity. Qed.

(** The tiers of the 35 radices, with an exact library. *)
Example divisor_constants_tiers :
  exists items,
    divisor_constants (M := exact_libm) 65 = Ok items /\
    map tier_of items =
    [PowerOfTwo; Slow; PowerOfTwo; Moderate; Fast; Moderate; PowerOfTwo;
     Slow; Fast; Slow; Slow; Moderate; Fast; Moderate; PowerOfTwo;
     Moderate; Fast; Moderate; Fast; Moderate; Slow; Moderate; Fast;
     Moderate; Fast; Slow; Fast; Moderate; Slow; Moderate; PowerOfTwo;
     Slow; Fast; Moderate; Fast].
Proof. eexists. split; vm_compute; reflexivity. Qed.

(** [udiv128] returns for every dividend, whatever its size. *)
Lemma udiv128_terminates {M : Libm} (divisor n : Z) :
  1 <= divisor -> 0 <= ceil_log2 divisor ->
  exists quotient remainder,
    forall fuel,
      (Z.to_nat (Z.log2 divisor) + 1 + (Z.to_nat (ceil_log2 divisor) + 1)
       <= fuel)%nat ->
      udiv128 fuel n divisor = Ok (quotient, remainder).
Proof.
  intros Hd Hl.
  destruct (choose_multiplier_runs divisor Hd Hl)
    as (factor & factor_shr & Hcm & _).
  destruct (fast_shift_trailing_zeros divisor ltac:(lia))
    as (shr & Hshr & Hs0 & _ & Hrun).
  rewrite Z.abs_eq in * by lia.
  destruct (shifted_quotient n divisor shr ltac:(lia) ltac:(lia) Hs0)
    as [Hnz _].
  apply Z.eqb_neq in Hnz.
  set (quotient :=
         if n <? Z.shiftl 1 (64 + shr)
         then Z.shiftr n shr / Z.shiftr divisor shr
         else Z.shiftr (u128_mulhi n factor) factor_shr).
  exists quotient, (n - quotient * divisor).
  intros fuel Hfuel. unfold udiv128.
  rewrite Hcm by lia. cbn [bind]. rewrite Hrun by lia. cbn [bind].
  unfold quotient, floordiv. rewrite Hnz.
  destruct (n <? Z.shiftl 1 (64 + shr)); reflexivity.
Qed.

(** C9.  For every radix in [2,36] and every dividend in [0, 2^128-1]
    every operation returns once it has enough fuel.  The loop of
    [find_power] stops from any non-negative exponent, since the powers of
    the radix exceed [2^64-1]; the loop of [fast_shift] stops on every
    divisor but 0, where it runs forever, and the generator's divisor
    [radix^digits] is not 0.  The C library is only assumed to return at
    least 2 for the logarithm of [u64_max], and never a negative [log2],
    so that all exponents are non-negative. *)
Theorem operations_terminate {M : Libm} (radix : Z) :
  2 <= radix <= 36 ->
  2 <= floor_log u64_max radix ->
  (forall x, 1 <= x -> 0 <= ceil_log2 x) ->
  (forall start, 0 <= start ->
     exists p, forall fuel, (66 <= fuel)%nat ->
       while_ fuel (fun p => is_valid (radix ^ p)) (fun p => p + 1) start
       = Ok p) /\
  (exists digits fuel0,
     0 <= digits /\ radix ^ digits <> 0 /\
     (forall fuel, (65 <= fuel)%nat -> find_power fuel radix = Ok digits) /\
     (exists fast_shr, forall fuel, (fuel0 <= fuel)%nat ->
        fast_shift fuel (radix ^ digits) = Ok fast_shr) /\
     (exists r, forall fuel, (fuel0 <= fuel)%nat ->
        choose_multiplier fuel (radix ^ digits) 128 false = Ok r) /\
     (exists i, forall fuel, (fuel0 <= fuel)%nat ->
        divisor_constant fuel radix = Ok i) /\
     (forall n, 0 <= n <= u128_max ->
        exists quotient remainder, forall fuel, (fuel0 <= fuel)%nat ->
          udiv128 fuel n (radix ^ digits) = Ok (quotient, remainder))) /\
  (forall fuel, fast_shift fuel 0 = OutOfFuel) /\
  (forall divisor, divisor <> 0 ->
     exists s, forall fuel,
       (Z.to_nat (Z.log2 (Z.abs divisor)) + 1 <= fuel)%nat ->
       fast_shift fuel divisor = Ok s).
Proof.
  intros Hr HL Hlog.
  assert (Hr2 : 2 <= radix) by lia.
  split; [|split; [|split]].
  - intros start Hstart.
    destruct (find_power_loop_terminates radix (Z.to_nat (64 - start)) Hr2
                start Hstart) as (p & _ & Hrun).
    + apply Z.lt_le_trans with (2 ^ 64); [reflexivity|].
      transitivity (2 ^ (start + Z.of_nat (Z.to_nat (64 - start)))).
      * apply Z.pow_le_mono_r; lia.
      * apply Z.pow_le_mono_l. lia.
    + exists p. intros fuel Hfuel. apply Hrun. lia.
  - destruct (find_power_terminates radix Hr2 HL) as (digits & Hd & Hfp).
    pose proof (pow_radix_pos radix digits Hr2 Hd) as Hpos.
    set (divisor := radix ^ digits) in *.
    pose proof (Hlog divisor Hpos) as Hl.
    destruct (fast_shift_trailing_zeros divisor ltac:(lia))
      as (fast_shr & _ & _ & _ & Hfs).
    rewrite Z.abs_eq in Hfs by lia.
    destruct (choose_multiplier_runs divisor Hpos Hl)
      as (factor & factor_shr & Hcm & _).
    set (fuel1 := (Z.to_nat (Z.log2 divisor) + 1
                   + (Z.to_nat (ceil_log2 divisor) + 1))%nat).
    assert (Hgen : exists fuel2 i, forall fuel, (fuel2 <= fuel)%nat ->
                     divisor_constant fuel radix = Ok i).
    { destruct (is_pow2 radix) as [[|]| |] eqn:Hp.
      - destruct (print_pow2_runs radix Hr2 Hp) as (_ & _ & i & Hi & _).
        exists 0%nat, i. intros fuel _. unfold divisor_constant.
        rewrite Hp. exact Hi.
      - destruct (divisor_constant_runs radix Hr2 Hp HL Hlog)
          as (dg & fs & f & fsh & fuel2 & _ & _ & _ & Hrun).
        exists fuel2. eexists. intros fuel Hfuel.
        apply (Hrun fuel Hfuel).
      - unfold is_pow2 in Hp.
        destruct (radix <=? 0) eqn:E0; [apply Z.leb_le in E0; lia|].
        discriminate.
      - unfold is_pow2 in Hp. destruct (radix <=? 0); discriminate. }
    destruct Hgen as (fuel2 & i & Hgen).
    exists digits, (fuel1 + fuel2)%nat.
    split; [assumption|]. split; [fold divisor; lia|].
    split; [exact Hfp|]. split; [|split; [|split]].
    + exists fast_shr. intros fuel Hfuel. apply Hfs. unfold fuel1 in *. lia.
    + eexists. intros fuel Hfuel. apply Hcm. unfold fuel1 in *. lia.
    + exists i. intros fuel Hfuel. apply Hgen. lia.
    + intros n _.
      destruct (udiv128_terminates divisor n Hpos Hl) as (q & r & Hrun).
      exists q, r. intros fuel Hfuel. apply Hrun. unfold fuel1 in *. lia.
  - exact fast_shift_zero_diverges.
  - intros divisor Hnz.
    destruct (fast_shift_trailing_zeros divisor Hnz)
      as (s & _ & _ & _ & Hrun).
    exists s. exact Hrun.
Qed.

Lemma operations_terminate_witness :
  (exists digits,
     forall fuel, (65 <= fuel)%nat ->
                  find_power (M := exact_libm) fuel 10 = Ok digits) /\
  (forall fuel, fast_shift fuel 0 = OutOfFuel).
Proof.
  destruct (operations_terminate (M := exact_libm) 10)
    as (_ & (digits & fuel0 & _ & _ & Hfp & _) & Hzero & _).
  - lia.
  - vm_compute. discriminate.
  - intros x _. apply Z.log2_up_nonneg.
  - split; [exists digits; exact Hfp|exact Hzero].
Defined.

(* ================================================================= *)
(** * Further properties of the script *)

(** ** [is_valid] on every integer *)

Lemma round_half_even_nonneg (n d : Z) :
  0 <= n -> 0 < d -> 0 <= round_half_even n d.
Proof.
  intros Hn Hd. destruct (round_half_even_bounds n d Hd) as [[Hl _] _].
  pose proof (Z.div_pos n d Hn Hd). lia.
Qed.

Lemma truediv_units_nonneg (a b : Z) :
  0 <= a -> 0 < b -> 0 <= truediv_units a b.
Proof.
  intros Ha Hb. unfold truediv_units.
  set (e := Z.max (Z.log2 (a * 2 ^ ulp_exp / b) - 52) 0).
  assert (He : 0 <= e) by (unfold e; lia).
  pose proof (pow2_pos e He) as HE.
  pose proof (pow2_pos ulp_exp ltac:(unfold ulp_exp; lia)) as HU.
  apply Z.mul_nonneg_nonneg; [|lia].
  apply round_half_even_nonneg; nia.
Qed.

Lemma cube_unfold (x : Z) : x ^ 3 = x * x ^ 2.
Proof. ring. Qed.

(** X1.  The floating-point test of [is_valid] never disagrees with exact
    arithmetic: on every integer but 0 it answers whether
    [x <= 2^64 - 1] and [x^3 > 2^128 - 1], and on 0 it raises
    [ZeroDivisionError]. *)
Theorem is_valid_every_integer (x : Z) :
  is_valid x =
  if x =? 0 then Raise ZeroDivisionError
  else Ok ((x <=? u64_max) && (u128_max <? x ^ 3)).
Proof.
  destruct (Z.lt_trichotomy x 0) as [Hneg|[->|Hpos]].
  - assert (E0 : (x =? 0) = false) by (apply Z.eqb_neq; lia).
    rewrite E0. unfold is_valid.
    assert (E64 : (x <=? u64_max) = true)
      by (apply Z.leb_le; unfold u64_max; lia).
    rewrite E64. cbn [andb].
    assert (Hsq : 0 < x ^ 2) by (rewrite Z.pow_2_r; nia).
    assert (Hu : 0 <= u128_max) by (vm_compute; discriminate).
    unfold truediv.
    destruct (x ^ 2 =? 0) eqn:Esq; [apply Z.eqb_eq in Esq; lia|].
    rewrite (Z.abs_eq u128_max), (Z.abs_eq (x ^ 2)) by lia.
    pose proof (truediv_units_bound u128_max (x ^ 2) Hu Hsq) as Hbound.
    pose proof (truediv_units_nonneg u128_max (x ^ 2) Hu Hsq) as Hnn.
    destruct (2 ^ (1024 + ulp_exp) <=? truediv_units u128_max (x ^ 2))
      eqn:Eov.
    { apply Z.leb_le in Eov. exfalso.
      assert (2 * (u128_max * 2 ^ ulp_exp) + 1 < 2 ^ (1024 + ulp_exp))
        by (vm_compute; reflexivity).
      lia. }
    cbn [bind]. unfold float_lt_int. cbn [units].
    replace (Z.sgn u128_max) with 1 by reflexivity.
    rewrite (Z.sgn_pos (x ^ 2)) by assumption. rewrite !Z.mul_1_l.
    pose proof (pow2_pos ulp_exp ltac:(unfold ulp_exp; lia)) as HU.
    f_equal.
    assert (E1 : (truediv_units u128_max (x ^ 2) <? x * 2 ^ ulp_exp) = false)
      by (apply Z.ltb_ge; nia).
    assert (E2 : (u128_max <? x ^ 3) = false).
    { apply Z.ltb_ge. rewrite cube_unfold. nia. }
    rewrite E1, E2. reflexivity.
  - vm_compute. reflexivity.
  - assert (E0 : (x =? 0) = false) by (apply Z.eqb_neq; lia).
    rewrite E0, is_valid_exact by lia. do 2 f_equal.
    rewrite cube_unfold.
    destruct (min_valid <=? x) eqn:Emin.
    + apply Z.leb_le in Emin. symmetry. apply Z.ltb_lt.
      pose proof (cube_above x Emin).
      assert (0 < x ^ 2) by (apply Z.pow_pos_nonneg; lia).
      unfold min_valid in *. nia.
    + apply Z.leb_gt in Emin. symmetry. apply Z.ltb_ge.
      apply cube_below. lia.
Qed.

(** ** [is_pow2] *)

(** X2.  Whatever the C library returns for [log2], [is_pow2] accepts
    only exact powers of two: a radix it accepts is [2^k] for its bit
    position [k].  A radix that is not positive raises [ValueError]. *)
Theorem is_pow2_sound {M : Libm} (radix : Z) :
  (is_pow2 radix = Ok true ->
   1 <= radix /\ radix = 2 ^ Z.log2 radix /\ int_log2 radix = Z.log2 radix) /\
  (radix <= 0 -> is_pow2 radix = Raise ValueError).
Proof.
  unfold is_pow2. split.
  - destruct (radix <=? 0) eqn:E0; [discriminate|].
    apply Z.leb_gt in E0. intros E. injection E as E. apply Z.eqb_eq in E.
    assert (Hk : 0 <= int_log2 radix).
    { destruct (Z_lt_le_dec (int_log2 radix) 0) as [Hneg|]; [|assumption].
      rewrite Z.pow_neg_r in E by assumption. lia. }
    assert (El : Z.log2 radix = int_log2 radix)
      by (rewrite E at 1; apply Z.log2_pow2, Hk).
    rewrite El. split; [lia|]. split; [exact E|reflexivity].
  - intros Hr. apply Z.leb_le in Hr. rewrite Hr. reflexivity.
Qed.

Lemma is_pow2_sound_witness :
  is_pow2 (M := exact_libm) 32 = Ok true /\ 32 = 2 ^ Z.log2 32.
Proof.
  assert (H : is_pow2 (M := exact_libm) 32 = Ok true) by reflexivity.
  split; [exact H|].
  destruct (is_pow2_sound (M := exact_libm) 32) as [Hs _].
  apply (Hs H).
Defined.

(** ** [u128_mulhi] on operands of any size *)

(** X3.  [u128_mulhi] needs no bound on its operands: for all integers
    it returns [floor(x*y / 2^128)], so it is symmetric although the
    limbs are not treated alike.  [udiv128] uses it with multipliers of
    129 bits. *)
Theorem u128_mulhi_unbounded (x y : Z) :
  u128_mulhi x y = x * y / 2 ^ 128 /\
  u128_mulhi x y = u128_mulhi y x /\
  x * y - 2 ^ 128 < 2 ^ 128 * u128_mulhi x y <= x * y.
Proof.
  rewrite !u128_mulhi_div. split; [reflexivity|]. split.
  - f_equal. ring.
  - pose proof (div_lower (x * y) (2 ^ 128) ltac:(lia)).
    pose proof (div_upper (x * y) (2 ^ 128) ltac:(lia)). lia.
Qed.

(** ** [fast_shift] is the 2-adic valuation *)

Lemma pow2_divide (s t : Z) : 0 <= s <= t -> (2 ^ s | 2 ^ t).
Proof.
  intros Hst. exists (2 ^ (t - s)).
  rewrite <- Z.pow_add_r by lia. f_equal. lia.
Qed.

(** The shift at which the loop of [fast_shift] stops is determined by
    the divisor. *)
Lemma valuation_unique (d s t : Z) :
  0 <= s -> 0 <= t ->
  d mod 2 ^ s = 0 -> d mod 2 ^ (s + 1) <> 0 ->
  d mod 2 ^ t = 0 -> d mod 2 ^ (t + 1) <> 0 ->
  s = t.
Proof.
  intros Hs Ht Hs0 Hs1 Ht0 Ht1.
  pose proof (pow2_pos s Hs). pose proof (pow2_pos t Ht).
  pose proof (pow2_pos (s + 1) ltac:(lia)).
  pose proof (pow2_pos (t + 1) ltac:(lia)).
  apply Z.mod_divide in Hs0, Ht0; try lia.
  destruct (Z.lt_trichotomy s t) as [Hlt|[E|Hgt]]; [exfalso|exact E|exfalso].
  - apply Hs1, Z.mod_divide; [lia|].
    apply Z.divide_trans with (2 ^ t); [apply pow2_divide; lia|assumption].
  - apply Ht1, Z.mod_divide; [lia|].
    apply Z.divide_trans with (2 ^ s); [apply pow2_divide; lia|assumption].
Qed.

Lemma odd_times_pow2 (o k : Z) :
  Z.odd o = true -> 0 <= k ->
  (o * 2 ^ k) mod 2 ^ k = 0 /\ (o * 2 ^ k) mod 2 ^ (k + 1) <> 0.
Proof.
  intros Ho Hk. pose proof (pow2_pos k Hk) as Hp. split.
  - apply Z.mod_mul. lia.
  - intros E. apply Z.mod_divide in E; [|rewrite pow2_succ by lia; lia].
    destruct E as [c Hc]. rewrite pow2_succ in Hc by lia.
    assert (Eo : o = 2 * c) by nia.
    rewrite Eo, Z.odd_mul in Ho. discriminate.
Qed.

Lemma odd_part (d s : Z) :
  0 <= s -> d mod 2 ^ s = 0 -> d mod 2 ^ (s + 1) <> 0 ->
  exists o, Z.odd o = true /\ d = o * 2 ^ s.
Proof.
  intros Hs H0 H1. pose proof (pow2_pos s Hs) as Hp.
  apply Z.mod_divide in H0; [|lia]. destruct H0 as [o Ho].
  exists o. split; [|exact Ho].
  destruct (Z.odd o) eqn:Eo; [reflexivity|exfalso].
  apply H1. rewrite <- Z.negb_even in Eo.
  apply negb_false_iff, Z.even_spec in Eo. destruct Eo as [c Hc].
  rewrite Ho, Hc, pow2_succ by lia.
  replace (2 * c * 2 ^ s) with (c * (2 * 2 ^ s)) by ring.
  apply Z.mod_mul. lia.
Qed.

(** [fast_shift] of an odd number times [2^k], with enough fuel. *)
Lemma fast_shift_odd_times_pow2 (o k : Z) (fuel : nat) :
  Z.odd o = true -> 0 <= k ->
  (Z.to_nat (Z.log2 (Z.abs (o * 2 ^ k))) + 1 <= fuel)%nat ->
  fast_shift fuel (o * 2 ^ k) = Ok k.
Proof.
  intros Ho Hk Hfuel. pose proof (pow2_pos k Hk) as Hp.
  assert (Hnz : o * 2 ^ k <> 0).
  { intros E. apply Z.mul_eq_0 in E as [->|E]; [discriminate|lia]. }
  destruct (fast_shift_trailing_zeros _ Hnz) as (s & Hs & Hs0 & Hs1 & Hrun).
  destruct (odd_times_pow2 o k Ho Hk) as [Hk0 Hk1].
  rewrite (Hrun fuel Hfuel). f_equal.
  apply (valuation_unique (o * 2 ^ k)); lia || assumption.
Qed.

(** X4.  [fast_shift] returns the exponent of the largest power of two
    that divides its argument, of either sign: on [odd * 2^k] it returns
    [k].  So it is 0 exactly on odd numbers, and shifting the argument
    left by [j] adds [j]. *)
Theorem fast_shift_valuation (o k j : Z) (fuel : nat) :
  Z.odd o = true -> 0 <= k -> 0 <= j ->
  (Z.to_nat (Z.log2 (Z.abs (o * 2 ^ (k + j)))) + 1 <= fuel)%nat ->
  fast_shift fuel (o * 2 ^ k) = Ok k /\
  fast_shift fuel o = Ok 0 /\
  fast_shift fuel (Z.shiftl (o * 2 ^ k) j) = Ok (k + j).
Proof.
  intros Ho Hk Hj Hfuel.
  assert (Ho0 : o <> 0) by (intros ->; discriminate).
  assert (Hmono : forall i, 0 <= i <= k + j ->
            (Z.to_nat (Z.log2 (Z.abs (o * 2 ^ i))) + 1 <= fuel)%nat).
  { intros i Hi.
    assert (Z.log2 (Z.abs (o * 2 ^ i)) <= Z.log2 (Z.abs (o * 2 ^ (k + j))));
      [|lia].
    apply Z.log2_le_mono. rewrite !Z.abs_mul.
    pose proof (pow2_pos i ltac:(lia)).
    pose proof (pow2_pos (k + j) ltac:(lia)).
    rewrite (Z.abs_eq (2 ^ i)), (Z.abs_eq (2 ^ (k + j))) by lia.
    apply Z.mul_le_mono_nonneg_l; [lia|].
    apply Z.pow_le_mono_r; lia. }
  split; [|split].
  - apply fast_shift_odd_times_pow2; try assumption. apply Hmono. lia.
  - replace o with (o * 2 ^ 0) at 1 by (rewrite Z.pow_0_r; ring).
    apply fast_shift_odd_times_pow2; try assumption; [lia|].
    apply Hmono. lia.
  - rewrite Z.shiftl_mul_pow2 by assumption.
    rewrite <- Z.mul_assoc, <- Z.pow_add_r by assumption.
    apply fast_shift_odd_times_pow2; try assumption. lia.
Qed.

Lemma fast_shift_valuation_witness :
  fast_shift 70 (5 ^ 19 * 2 ^ 19) = Ok 19 /\
  fast_shift 70 (5 ^ 19) = Ok 0 /\
  fast_shift 70 (Z.shiftl (5 ^ 19 * 2 ^ 19) 3) = Ok (19 + 3).
Proof.
  apply (fast_shift_valuation (5 ^ 19) 19 3 70).
  - reflexivity.
  - lia.
  - lia.
  - vm_compute. lia.
Defined.

(** Whatever the fuel, a result of [fast_shift] is the number of
    trailing zero bits. *)
Lemma fast_shift_result (fuel : nat) (divisor s : Z) :
  fast_shift fuel divisor = Ok s ->
  divisor <> 0 /\ 0 <= s <= Z.log2 (Z.abs divisor) /\
  divisor mod 2 ^ s = 0 /\ divisor mod 2 ^ (s + 1) <> 0.
Proof.
  intros Hrun. pose proof (fast_shift_ok_nonzero _ _ _ Hrun) as Hnz.
  destruct (fast_shift_trailing_zeros divisor Hnz)
    as (s' & Hs & Hs0 & Hs1 & Hrun').
  set (bound := (Z.to_nat (Z.log2 (Z.abs divisor)) + 1)%nat) in *.
  pose proof (fast_shift_fuel_mono fuel (Nat.max fuel bound) divisor s
                (Nat.le_max_l _ _) Hrun) as Hmax.
  rewrite (Hrun' _ (Nat.le_max_r fuel bound)) in Hmax.
  injection Hmax as <-. tauto.
Qed.

(** The shift of a product is the sum of the shifts. *)
Lemma fast_shift_mul (a b sa sb : Z) (fa fb : nat) :
  fast_shift fa a = Ok sa -> fast_shift fb b = Ok sb ->
  forall fuel,
    (Z.to_nat (Z.log2 (Z.abs (a * b))) + 1 <= fuel)%nat ->
    fast_shift fuel (a * b) = Ok (sa + sb).
Proof.
  intros Ha Hb fuel Hfuel.
  destruct (fast_shift_result _ _ _ Ha) as (Ha0 & Hs1 & H10 & H11).
  destruct (fast_shift_result _ _ _ Hb) as (Hb0 & Hs2 & H20 & H21).
  destruct (odd_part a sa ltac:(lia) H10 H11) as (oa & Hoa & Ea).
  destruct (odd_part b sb ltac:(lia) H20 H21) as (ob & Hob & Eb).
  assert (E : a * b = oa * ob * 2 ^ (sa + sb)).
  { rewrite Ea, Eb, Z.pow_add_r by lia. ring. }
  rewrite E in *. apply fast_shift_odd_times_pow2; [|lia|assumption].
  rewrite Z.odd_mul, Hoa, Hob. reflexivity.
Qed.

(** The shift of a power is a multiple of the shift of its base. *)
Lemma fast_shift_pow (radix digits sr : Z) (fr : nat) :
  fast_shift fr radix = Ok sr -> 0 <= digits ->
  forall fuel,
    (Z.to_nat (Z.log2 (Z.abs (radix ^ digits))) + 1 <= fuel)%nat ->
    fast_shift fuel (radix ^ digits) = Ok (digits * sr).
Proof.
  intros Hr Hd fuel Hfuel.
  destruct (fast_shift_result _ _ _ Hr) as (Hr0 & Hs & H0 & H1).
  destruct (odd_part radix sr ltac:(lia) H0 H1) as (o & Ho & Er).
  assert (E : radix ^ digits = o ^ digits * 2 ^ (digits * sr)).
  { rewrite Er, Z.pow_mul_l, <- Z.pow_mul_r by lia. f_equal. f_equal. ring. }
  rewrite E in *. apply fast_shift_odd_times_pow2; [|nia|assumption].
  destruct (Z.eq_dec digits 0) as [->|Hne]; [reflexivity|].
  rewrite Z.odd_pow by lia. exact Ho.
Qed.

(** X5.  [fast_shift] turns products into sums: the shift of [a * b] is
    the sum of the shifts of [a] and [b], and the shift of [radix^digits]
    is [digits] times the shift of [radix]. *)
Theorem fast_shift_product (a b sa sb digits : Z) (fa fb : nat) :
  fast_shift fa a = Ok sa -> fast_shift fb b = Ok sb -> 0 <= digits ->
  (forall fuel,
     (Z.to_nat (Z.log2 (Z.abs (a * b))) + 1 <= fuel)%nat ->
     fast_shift fuel (a * b) = Ok (sa + sb)) /\
  (forall fuel,
     (Z.to_nat (Z.log2 (Z.abs (a ^ digits))) + 1 <= fuel)%nat ->
     fast_shift fuel (a ^ digits) = Ok (digits * sa)).
Proof.
  intros Ha Hb Hd. split.
  - exact (fast_shift_mul a b sa sb fa fb Ha Hb).
  - exact (fast_shift_pow a digits sa fa Ha Hd).
Qed.

Lemma fast_shift_product_witness :
  fast_shift 70 (12 * 40) = Ok (2 + 3) /\
  fast_shift 70 (12 ^ 17) = Ok (17 * 2).
Proof.
  destruct (fast_shift_product 12 40 2 3 17 10 10) as [Hmul Hpow];
    [reflexivity|reflexivity|lia|].
  split; [apply Hmul|apply Hpow]; vm_compute; lia.
Defined.

(** ** [choose_multiplier] for any width and signedness *)

Section Precision.
Variables divisor bits c : Z.
Hypothesis Hdivisor : 0 < divisor.
Hypothesis Hbits : 0 <= bits.
Hypothesis Hc : 0 <= c.

Local Abbreviation low := (m_low_at divisor bits).
Local Abbreviation high := (m_high_prec divisor bits c).

Lemma m_high_prec_halve (s : Z) : 0 < s -> high s / 2 = high (s - 1).
Proof using Hdivisor Hbits Hc.
  intros Hs. unfold m_high_prec.
  rewrite Z.div_div, (Z.mul_comm divisor 2), <- Z.div_div by lia.
  replace (bits + s) with (bits + (s - 1) + 1) by lia.
  replace (s + c) with (s - 1 + c + 1) by lia.
  rewrite !pow2_succ by lia.
  replace (2 * 2 ^ (bits + (s - 1)) + 2 * 2 ^ (s - 1 + c))
    with ((2 ^ (bits + (s - 1)) + 2 ^ (s - 1 + c)) * 2) by ring.
  rewrite Z.div_mul by lia. reflexivity.
Qed.

Let cond : Z * Z * Z -> result bool :=
  fun '(m_low, m_high, sh_post) =>
    Ok ((m_low / 2 <? m_high / 2) && (0 <? sh_post)).
Let body : Z * Z * Z -> Z * Z * Z :=
  fun '(m_low, m_high, sh_post) => (m_low / 2, m_high / 2, sh_post - 1).

Lemma choose_multiplier_prec_loop (k : nat) :
  exists s,
    0 <= s <= Z.of_nat k /\
    (forall j, s < j <= Z.of_nat k -> low (j - 1) < high (j - 1)) /\
    (0 < s -> high (s - 1) <= low (s - 1)) /\
    forall fuel, (k + 1 <= fuel)%nat ->
      while_ fuel cond body (low (Z.of_nat k), high (Z.of_nat k), Z.of_nat k)
      = Ok (low s, high s, s).
Proof using Hdivisor Hbits Hc.
  induction k as [|k IH].
  - exists 0. split; [simpl; lia|]. split; [simpl; lia|]. split; [lia|].
    intros [|fuel] Hfuel; [lia|]. cbn [while_].
    unfold cond at 1; cbv beta iota.
    cbn [bind Z.of_nat Z.ltb Z.compare]. rewrite andb_false_r. reflexivity.
  - assert (Hk : 0 < Z.of_nat (S k)) by lia.
    assert (Ek : Z.of_nat (S k) - 1 = Z.of_nat k) by lia.
    assert (Epos : (0 <? Z.of_nat (S k)) = true) by (apply Z.ltb_lt, Hk).
    destruct (Z_lt_le_dec (low (Z.of_nat k)) (high (Z.of_nat k))) as [Hlt|Hge].
    + destruct IH as (s & Hs & Hpass & Hstop & Hrun).
      exists s. split; [lia|]. split.
      { intros j Hj. destruct (Z.eq_dec j (Z.of_nat (S k))) as [->|];
          [rewrite Ek; assumption|apply Hpass; lia]. }
      split; [assumption|].
      intros [|fuel] Hfuel; [lia|]. cbn [while_].
      unfold cond at 1; cbv beta iota.
      rewrite (m_low_halve divisor bits Hdivisor Hbits), m_high_prec_halve, Ek
        by assumption.
      apply Z.ltb_lt in Hlt. rewrite Hlt, Epos.
      cbn [andb bind]. unfold body at 2; cbv beta iota.
      rewrite (m_low_halve divisor bits Hdivisor Hbits), m_high_prec_halve, Ek
        by assumption.
      apply Hrun. lia.
    + exists (Z.of_nat (S k)). split; [lia|]. split; [lia|].
      split; [rewrite Ek; intros _; assumption|].
      apply Z.ltb_ge in Hge.
      intros [|fuel] Hfuel; [lia|]. cbn [while_].
      unfold cond at 1; cbv beta iota.
      rewrite (m_low_halve divisor bits Hdivisor Hbits), m_high_prec_halve, Ek
        by assumption.
      rewrite Hge. reflexivity.
Qed.

(** A multiplier [m] and shift [s] with
    [2^(bits+s) <= m*divisor <= 2^(bits+s) + 2^(s+c)] divide every
    dividend of [bits - c] bits exactly. *)
Lemma multiply_shift_exact (m s n : Z) :
  0 <= s ->
  2 ^ (bits + s) <= m * divisor <= 2 ^ (bits + s) + 2 ^ (s + c) ->
  0 <= n -> n * 2 ^ c < 2 ^ bits ->
  n * m / 2 ^ (bits + s) = n / divisor.
Proof using Hdivisor Hbits Hc.
  intros Hs [Hlo Hhi] Hn0 Hn1.
  set (K := 2 ^ (bits + s)) in *.
  assert (HK : K = 2 ^ bits * 2 ^ s) by (unfold K; apply Z.pow_add_r; lia).
  pose proof (pow2_pos s Hs) as Hp. pose proof (pow2_pos c Hc) as Hpc.
  pose proof (pow2_pos bits Hbits) as Hpb.
  assert (HKpos : 0 < K) by (rewrite HK; nia).
  set (q := n / divisor).
  assert (Hq : q * divisor <= n < (q + 1) * divisor)
    by (split; [apply div_lower|apply div_upper]; assumption).
  assert (Hq0 : 0 <= q) by (apply Z.div_pos; lia).
  apply div_unique_bounds; [assumption|].
  set (e := m * divisor - K).
  assert (He : 0 <= e <= 2 ^ (s + c)) by (unfold e; lia).
  assert (E : divisor * (n * m) = n * K + n * e) by (unfold e; ring).
  assert (Hne : n * e < K).
  { rewrite HK. rewrite Z.pow_add_r in He by lia.
    apply Z.le_lt_trans with (n * (2 ^ s * 2 ^ c));
      [apply Z.mul_le_mono_nonneg_l; lia|].
    replace (n * (2 ^ s * 2 ^ c)) with (n * 2 ^ c * 2 ^ s) by ring.
    apply Z.mul_lt_mono_pos_r; lia. }
  assert (Hne0 : 0 <= n * e) by (apply Z.mul_nonneg_nonneg; lia).
  split.
  - apply (Z.mul_le_mono_pos_l _ _ divisor Hdivisor). rewrite E.
    replace (divisor * (q * K)) with (q * divisor * K) by ring.
    assert (q * divisor * K <= n * K)
      by (apply Z.mul_le_mono_nonneg_r; lia).
    lia.
  - apply (Z.mul_lt_mono_pos_l divisor); [assumption|]. rewrite E.
    replace (divisor * ((q + 1) * K)) with ((q + 1) * divisor * K) by ring.
    assert (n * K + K <= (q + 1) * divisor * K).
    { replace (n * K + K) with ((n + 1) * K) by ring.
      apply Z.mul_le_mono_nonneg_r; lia. }
    lia.
Qed.

Lemma m_high_prec_upper (s : Z) :
  high s * divisor <= 2 ^ (bits + s) + 2 ^ (s + c).
Proof using Hdivisor Hbits Hc. apply div_lower, Hdivisor. Qed.

Lemma m_high_prec_lower_after_halving (s : Z) :
  low s < high s -> 2 ^ (bits + s) <= high s * divisor.
Proof using Hdivisor Hbits Hc.
  intros Hlt.
  pose proof (div_upper (2 ^ (bits + s)) divisor Hdivisor) as Hup.
  fold (low s) in Hup. nia.
Qed.

Lemma m_high_prec_lower_initial (l : Z) :
  0 <= l -> divisor <= 2 ^ l -> 2 ^ (bits + l) <= high l * divisor.
Proof using Hdivisor Hbits Hc.
  intros Hl Hle.
  pose proof (div_upper (2 ^ (bits + l) + 2 ^ (l + c)) divisor Hdivisor)
    as Hup.
  fold (high l) in Hup.
  assert (2 ^ l <= 2 ^ (l + c)) by (apply Z.pow_le_mono_r; lia).
  lia.
Qed.
End Precision.

(** [choose_multiplier] for any width and signedness: the shift at which
    the loop stops, and the multiplier there. *)
Lemma choose_multiplier_prec_runs {M : Libm} (divisor bits : Z)
      (is_signed : bool) :
  1 <= divisor -> 0 <= bits -> 0 <= ceil_log2 divisor ->
  let l := ceil_log2 divisor in
  let c := precision_gap is_signed in
  exists s,
    0 <= s <= l /\
    (forall j, s < j <= l ->
       m_low_at divisor bits (j - 1) < m_high_prec divisor bits c (j - 1)) /\
    (0 < s ->
       m_high_prec divisor bits c (s - 1) <= m_low_at divisor bits (s - 1)) /\
    forall fuel, (Z.to_nat l + 1 <= fuel)%nat ->
      choose_multiplier fuel divisor bits is_signed
      = Ok (m_high_prec divisor bits c s, s, l).
Proof.
  intros Hd Hbits Hl l c.
  assert (Hc : 0 <= c) by (unfold c, precision_gap; destruct is_signed; lia).
  destruct (choose_multiplier_prec_loop divisor bits c ltac:(lia) Hbits Hc
              (Z.to_nat l)) as (s & Hs & Hpass & Hstop & Hrun).
  rewrite Z2Nat.id in * by assumption.
  exists s. split; [assumption|]. split; [exact Hpass|].
  split; [exact Hstop|].
  intros fuel Hfuel. unfold choose_multiplier.
  destruct (divisor <=? 0) eqn:E0; [apply Z.leb_le in E0; lia|].
  fold l.
  replace (bits + l - (if is_signed then bits - 1 else bits)) with (l + c)
    by (unfold c, precision_gap; destruct is_signed; lia).
  fold (m_low_at divisor bits l). fold (m_high_prec divisor bits c l).
  rewrite (Hrun fuel Hfuel). reflexivity.
Qed.

(** X6.  The theorem of Granlund and Montgomery for
    [choose_multiplier(divisor, bits, is_signed)], at any width: the
    multiplier [m] and shift [sh] it returns satisfy
    [floor(n*m / 2^(bits+sh)) = floor(n/divisor)] for every dividend
    [0 <= n < 2^precision], where [precision] is [bits], or [bits - 1]
    when [is_signed].  The C library must not underestimate the bit
    length. *)
Theorem choose_multiplier_exact_division {M : Libm} (divisor bits n : Z)
        (is_signed : bool) :
  1 <= divisor -> 0 <= bits ->
  divisor <= 2 ^ ceil_log2 divisor ->
  0 <= n < 2 ^ (if is_signed then bits - 1 else bits) ->
  exists m sh,
    (forall fuel, (Z.to_nat (ceil_log2 divisor) + 1 <= fuel)%nat ->
       choose_multiplier fuel divisor bits is_signed
       = Ok (m, sh, ceil_log2 divisor)) /\
    0 <= sh <= ceil_log2 divisor /\
    n * m / 2 ^ (bits + sh) = n / divisor.
Proof.
  intros Hd Hbits Hle Hn.
  assert (Hl : 0 <= ceil_log2 divisor).
  { destruct (Z_lt_le_dec (ceil_log2 divisor) 0) as [Hneg|]; [|assumption].
    rewrite Z.pow_neg_r in Hle by assumption. lia. }
  destruct (choose_multiplier_prec_runs divisor bits is_signed Hd Hbits Hl)
    as (s & Hs & Hpass & _ & Hrun).
  set (c := precision_gap is_signed) in *.
  assert (Hc : 0 <= c) by (unfold c, precision_gap; destruct is_signed; lia).
  exists (m_high_prec divisor bits c s), s.
  split; [exact Hrun|]. split; [assumption|].
  apply (multiply_shift_exact divisor bits c); try lia.
  - split; [|apply m_high_prec_upper; lia].
    destruct (Z.eq_dec s (ceil_log2 divisor)) as [->|Hne].
    + apply m_high_prec_lower_initial; lia.
    + apply m_high_prec_lower_after_halving; try lia.
      specialize (Hpass (s + 1) ltac:(lia)).
      replace (s + 1 - 1) with s in Hpass by lia. exact Hpass.
  - unfold c, precision_gap. destruct is_signed.
    + destruct (Z.eq_dec bits 0) as [->|Hb].
      * simpl in Hn. lia.
      * replace bits with (bits - 1 + 1) at 1 by lia.
        rewrite pow2_succ by lia. simpl (2 ^ 1). lia.
    + rewrite Z.pow_0_r. lia.
Qed.

Lemma choose_multiplier_exact_division_witness :
  exists m sh,
    (forall fuel, (4 <= fuel)%nat ->
       choose_multiplier (M := exact_libm) fuel 7 32 true = Ok (m, sh, 3)) /\
    (2 ^ 31 - 1) * m / 2 ^ (32 + sh) = (2 ^ 31 - 1) / 7.
Proof.
  destruct (choose_multiplier_exact_division (M := exact_libm)
              7 32 (2 ^ 31 - 1) true) as (m & sh & Hrun & _ & Hq).
  - lia.
  - lia.
  - vm_compute. discriminate.
  - vm_compute. split; [discriminate|reflexivity].
  - exists m, sh. split; [exact Hrun|exact Hq].
Defined.

(** X7.  The size of the multiplier, as the script's header says: with
    the exact bit length of a divisor up to [2^(bits-1)], the unsigned
    multiplier is below [2^(bits+1)], so it fits in 129 bits for
    [bits = 128]; for [is_signed] and a divisor of at least 2 the loop
    halves at least once and the multiplier is below [2^bits]. *)
Theorem choose_multiplier_width {M : Libm} (divisor bits : Z)
        (is_signed : bool) :
  1 <= bits -> 1 <= divisor <= 2 ^ (bits - 1) ->
  ceil_log2 divisor = Z.log2_up divisor ->
  exists m sh,
    (forall fuel, (Z.to_nat (ceil_log2 divisor) + 1 <= fuel)%nat ->
       choose_multiplier fuel divisor bits is_signed
       = Ok (m, sh, ceil_log2 divisor)) /\
    0 <= m /\
    (is_signed = false -> m < 2 ^ (bits + 1)) /\
    (is_signed = true -> 2 <= divisor ->
     m < 2 ^ bits /\ sh < ceil_log2 divisor).
Proof.
  intros Hbits [Hd1 Hd2] Hexact.
  set (l := ceil_log2 divisor) in *.
  assert (Hl : 0 <= l) by (rewrite Hexact; apply Z.log2_up_nonneg).
  assert (Hsand : divisor <= 2 ^ l /\ 2 ^ l < 2 * divisor).
  { rewrite Hexact. destruct (Z.eq_dec divisor 1) as [->|Hne].
    - simpl. lia.
    - pose proof (Z.log2_up_spec divisor ltac:(lia)) as [Hlo Hhi].
      split; [assumption|].
      assert (0 < Z.log2_up divisor) by (apply Z.log2_up_pos; lia).
      replace (Z.log2_up divisor) with (Z.pred (Z.log2_up divisor) + 1)
        by lia.
      rewrite pow2_succ by lia. lia. }
  destruct Hsand as [Hle Hlt].
  destruct (choose_multiplier_prec_runs divisor bits is_signed Hd1
              ltac:(lia) Hl) as (s & Hs & _ & Hstop & Hrun).
  fold l in Hs, Hstop, Hrun.
  set (c := precision_gap is_signed) in *.
  assert (Hc : 0 <= c <= 1)
    by (unfold c, precision_gap; destruct is_signed; lia).
  exists (m_high_prec divisor bits c s), s.
  split; [exact Hrun|].
  pose proof (m_high_prec_upper divisor bits c ltac:(lia) ltac:(lia)
                ltac:(lia) s) as Hup.
  pose proof (pow2_pos bits ltac:(lia)) as Hpb.
  pose proof (pow2_pos s ltac:(lia)) as Hps.
  pose proof (pow2_pos l Hl) as Hpl.
  assert (Hbits2 : 2 ^ bits = 2 * 2 ^ (bits - 1)).
  { replace bits with (bits - 1 + 1) at 1 by lia. apply pow2_succ. lia. }
  assert (Hsl : 2 ^ s <= 2 ^ l) by (apply Z.pow_le_mono_r; lia).
  split; [|split].
  - unfold m_high_prec. apply Z.div_pos; [|lia].
    pose proof (pow2_pos (bits + s) ltac:(lia)).
    pose proof (pow2_pos (s + c) ltac:(lia)). lia.
  - intros ->. unfold c, precision_gap in *. clear Hc.
    apply (Z.mul_lt_mono_pos_r divisor); [lia|].
    apply Z.le_lt_trans with (2 ^ (bits + s) + 2 ^ (s + 0)); [assumption|].
    rewrite Z.add_0_r, !Z.pow_add_r, Z.pow_1_r by lia.
    assert (2 ^ s * (2 ^ bits + 1) <= (2 * divisor - 1) * (2 ^ bits + 1))
      by (apply Z.mul_le_mono_nonneg_r; lia).
    nia.
  - intros -> Hd. unfold c, precision_gap in *. clear Hc.
    assert (Hl1 : 1 <= l).
    { destruct (Z.eq_dec l 0) as [E|]; [rewrite E in Hle; simpl in Hle|]; lia. }
    assert (Hs1 : s < l).
    { destruct (Z.eq_dec s l) as [->|]; [exfalso|lia].
      specialize (Hstop ltac:(lia)).
      unfold m_high_prec, m_low_at in Hstop.
      replace (l - 1 + 1) with l in Hstop by lia.
      assert (2 ^ (bits + (l - 1)) / divisor + 1
              <= (2 ^ (bits + (l - 1)) + 2 ^ l) / divisor); [|lia].
      rewrite <- Z.div_add by lia. apply Z.div_le_mono; lia. }
    split; [|assumption].
    apply (Z.mul_lt_mono_pos_r divisor); [lia|].
    apply Z.le_lt_trans with (2 ^ (bits + s) + 2 ^ (s + 1)); [assumption|].
    assert (Hs2 : 2 ^ (s + 1) <= 2 ^ l) by (apply Z.pow_le_mono_r; lia).
    rewrite pow2_succ in * by lia. rewrite Z.pow_add_r by lia.
    assert (2 ^ s * (2 ^ bits + 2) <= (divisor - 1) * (2 ^ bits + 2))
      by (apply Z.mul_le_mono_nonneg_r; lia).
    nia.
Qed.

Lemma choose_multiplier_width_witness :
  exists m sh,
    (forall fuel, (65 <= fuel)%nat ->
       choose_multiplier (M := exact_libm) fuel (3 ^ 40) 128 false
       = Ok (m, sh, 64)) /\
    2 ^ 128 <= m < 2 ^ 129.
Proof.
  destruct (choose_multiplier_width (M := exact_libm) (3 ^ 40) 128 false)
    as (m & sh & Hrun & _ & Hm & _).
  - lia.
  - vm_compute. split; discriminate.
  - reflexivity.
  - exists m, sh. split; [exact Hrun|]. split; [|apply Hm; reflexivity].
    specialize (Hrun 65%nat ltac:(vm_compute; lia)).
    vm_compute in Hrun. injection Hrun as <- _. vm_compute. discriminate.
Defined.

(** X8.  A power of two never gets a multiplier of [bits] bits, for
    [bits >= 1]: for [divisor = 2^k] with [k >= 0], whose bit length the C
    library gives as [k], [choose_multiplier] returns
    [(2^bits + 1, k, k)] without halving, which is why the generator takes
    another path for the radices that are powers of two. *)
Theorem choose_multiplier_power_of_two {M : Libm} (k bits : Z) (fuel : nat) :
  0 <= k -> 1 <= bits -> ceil_log2 (2 ^ k) = k -> (1 <= fuel)%nat ->
  choose_multiplier fuel (2 ^ k) bits false = Ok (2 ^ bits + 1, k, k).
Proof.
  intros Hk Hbits Hlog Hfuel. unfold choose_multiplier.
  pose proof (pow2_pos k Hk) as Hp.
  destruct (2 ^ k <=? 0) eqn:E0; [apply Z.leb_le in E0; lia|].
  rewrite Hlog. replace (bits + k - bits) with k by lia.
  assert (Elow : 2 ^ (bits + k) / 2 ^ k = 2 ^ bits)
    by (rewrite Z.pow_add_r by lia; apply Z.div_mul; lia).
  assert (Ehigh : (2 ^ (bits + k) + 2 ^ k) / 2 ^ k = 2 ^ bits + 1).
  { rewrite Z.pow_add_r by lia.
    replace (2 ^ bits * 2 ^ k + 2 ^ k) with ((2 ^ bits + 1) * 2 ^ k) by ring.
    apply Z.div_mul. lia. }
  rewrite Elow, Ehigh.
  destruct fuel as [|fuel]; [lia|]. cbn [while_ bind].
  assert (Ehalf : (2 ^ bits / 2 <? (2 ^ bits + 1) / 2) = false).
  { apply Z.ltb_ge.
    assert (E2 : 2 ^ bits = 2 ^ (bits - 1) * 2).
    { replace bits with (bits - 1 + 1) at 1 by lia.
      rewrite pow2_succ by lia. ring. }
    rewrite E2, Z.div_mul, Z.div_add_l by lia.
    rewrite (Z.div_small 1 2) by lia. lia. }
  rewrite Ehalf. reflexivity.
Qed.

Lemma choose_multiplier_power_of_two_witness :
  choose_multiplier (M := exact_libm) 1 (2 ^ 60) 128 false
  = Ok (2 ^ 128 + 1, 60, 60).
Proof.
  apply (choose_multiplier_power_of_two (M := exact_libm) 60 128 1);
    [lia|lia|reflexivity|lia].
Defined.

(** ** [udiv128] on every divisor and dividend *)

(** X9.  [udiv128] on inputs outside the generator's: a divisor that is
    not positive raises [ValueError] (the logarithm is taken before
    [fast_shift], which would not return on 0); for every divisor
    [>= 1] and every dividend up to [2^128 - 1], negative ones included,
    the result is the floor quotient and the remainder in
    [0, divisor).  The C library must not underestimate the bit length. *)
Theorem udiv128_every_input {M : Libm} (divisor n : Z) (fuel : nat) :
  (divisor <= 0 -> udiv128 fuel n divisor = Raise ValueError) /\
  (1 <= divisor -> divisor <= 2 ^ ceil_log2 divisor ->
   (Z.to_nat (ceil_log2 divisor) + 1 <= fuel)%nat ->
   n <= u128_max ->
   udiv128 fuel n divisor = Ok (n / divisor, n mod divisor) /\
   0 <= n mod divisor < divisor).
Proof.
  split.
  - intros Hd. unfold udiv128, choose_multiplier.
    apply Z.leb_le in Hd. rewrite Hd. reflexivity.
  - intros Hd Hlog Hfuel Hn.
    split; [|apply Z.mod_pos_bound; lia].
    destruct (choose_multiplier_reciprocal divisor Hd Hlog)
      as (factor & factor_shr & Hcm & Hrec).
    destruct (fast_shift_trailing_zeros divisor ltac:(lia))
      as (shr & Hshr & Hs0 & Hs1 & Hrun).
    rewrite Z.abs_eq in * by lia.
    pose proof (log2_le_bit_length divisor _ Hd Hlog) as Hll.
    assert (Erem : forall q, q = n / divisor ->
                     n - q * divisor = n mod divisor).
    { intros q ->. rewrite Z.mod_eq by lia. ring. }
    unfold udiv128. rewrite (Hcm fuel Hfuel). cbn [bind].
    rewrite (Hrun fuel) by lia. cbn [bind].
    destruct (n <? Z.shiftl 1 (64 + shr)) eqn:Efast.
    + destruct (shifted_quotient n divisor shr ltac:(lia) ltac:(lia) Hs0)
        as [Hnz Hquot].
      unfold floordiv. apply Z.eqb_neq in Hnz. rewrite Hnz, Hquot.
      cbn [bind]. rewrite (Erem _ eq_refl). reflexivity.
    + apply Z.ltb_ge in Efast. rewrite Z.shiftl_1_l in Efast.
      pose proof (pow2_pos (64 + shr) ltac:(lia)).
      rewrite (mulhi_shift_exact divisor factor factor_shr n) by
          (assumption || lia).
      cbn [bind]. rewrite (Erem _ eq_refl). reflexivity.
Qed.

Lemma udiv128_every_input_witness :
  udiv128 (M := exact_libm) 65 (- 7) default_divisor
  = Ok (- 1, default_divisor - 7) /\
  udiv128 (M := exact_libm) 65 5 0 = Raise ValueError.
Proof.
  destruct (udiv128_every_input (M := exact_libm) default_divisor (- 7) 65)
    as [_ Hpos].
  destruct (udiv128_every_input (M := exact_libm) 0 5 65) as [Hzero _].
  split; [|apply Hzero; lia].
  destruct Hpos as [Hrun _].
  - vm_compute. discriminate.
  - vm_compute. discriminate.
  - vm_compute. lia.
  - vm_compute. discriminate.
  - exact Hrun.
Defined.

(** Beyond 128 bits the quotient can be wrong. *)
Example udiv128_beyond_128_bits :
  let n := (2 ^ 129 / default_divisor + 1) * default_divisor - 1 in
  2 ^ 128 <= n < 2 ^ 130 /\
  udiv128 (M := exact_libm) 65 n default_divisor
  = Ok (n / default_divisor + 1, n mod default_divisor - default_divisor).
Proof. vm_compute. split; [split; [discriminate|reflexivity]|reflexivity]. Qed.

(** X10.  What the shortcut of [udiv128] is for: below the threshold
    [1 << (64 + shr)] both shifted operands, and the quotient, fit in 64
    bits, and no bit of the divisor is lost by the shift. *)
Theorem fast_branch_operands_fit (divisor n shr : Z) (fuel : nat) :
  1 <= divisor <= u64_max ->
  fast_shift fuel divisor = Ok shr ->
  0 <= n < Z.shiftl 1 (64 + shr) ->
  0 <= Z.shiftr n shr <= u64_max /\
  1 <= Z.shiftr divisor shr <= u64_max /\
  Z.shiftl (Z.shiftr divisor shr) shr = divisor /\
  0 <= Z.shiftr n shr / Z.shiftr divisor shr <= u64_max.
Proof.
  intros [Hd1 Hd2] Hrun [Hn0 Hn1].
  destruct (fast_shift_result _ _ _ Hrun) as (_ & Hs & Hs0 & _).
  assert (Hshr : 0 <= shr) by lia.
  pose proof (pow2_pos shr Hshr) as Hp.
  rewrite Z.shiftl_1_l, Z.pow_add_r in Hn1 by lia.
  rewrite Z.shiftl_mul_pow2, !Z.shiftr_div_pow2 by assumption.
  apply Z.mod_divide in Hs0; [|lia]. destruct Hs0 as [c Hc].
  assert (Hc0 : 1 <= c) by nia.
  assert (En : 0 <= n / 2 ^ shr <= u64_max).
  { split; [apply Z.div_pos; lia|].
    assert (n / 2 ^ shr < 2 ^ 64); [|unfold u64_max; lia].
    apply Z.div_lt_upper_bound; lia. }
  assert (Ed : divisor / 2 ^ shr = c) by (rewrite Hc; apply Z.div_mul; lia).
  rewrite Ed. split; [assumption|]. split; [nia|]. split; [lia|].
  split; [apply Z.div_pos; lia|].
  transitivity (n / 2 ^ shr); [|lia].
  apply Z.div_le_upper_bound; [lia|]. nia.
Qed.

Lemma fast_branch_operands_fit_witness :
  0 <= Z.shiftr (2 ^ 80) 19 <= u64_max /\
  1 <= Z.shiftr default_divisor 19 <= u64_max.
Proof.
  destruct (fast_branch_operands_fit default_divisor (2 ^ 80) 19 30)
    as (Hn & Hd & _).
  - vm_compute. split; discriminate.
  - reflexivity.
  - vm_compute. split; [discriminate|reflexivity].
  - split; [exact Hn|exact Hd].
Defined.

(** ** The items of the generator *)

(** The constants of a radix [2^k] with [k >= 1]. *)
Lemma print_pow2_of_power {M : Libm} (radix : Z) :
  2 <= radix -> is_pow2 radix = Ok true ->
  let k := Z.log2 radix in
  exists mask shr digits,
    print_pow2 radix = Ok (Pow2Divrem radix mask shr digits) /\
    digits = 64 / k /\ shr = digits * k /\
    radix ^ digits = 2 ^ shr /\ mask = radix ^ digits - 1 /\
    (forall n, Z.shiftr n shr = n / radix ^ digits /\
               Z.land n mask = n mod radix ^ digits) /\
    (radix <= 2 ^ 64 ->
     1 <= digits /\ 64 - k < shr <= 64 /\ mask <= u64_max /\
     2 ^ 64 < radix ^ (digits + 1)).
Proof.
  intros Hr Hp k.
  destruct (print_pow2_runs radix Hr Hp) as (Er & Hk & _).
  assert (Ek : k = int_log2 radix)
    by (unfold k; rewrite Er at 1; apply Z.log2_pow2; lia).
  rewrite <- Ek in Er, Hk.
  assert (Hdig : 0 <= 64 / k) by (apply Z.div_pos; lia).
  assert (Hshr : 0 <= 64 / k * k) by nia.
  assert (Epow : radix ^ (64 / k) = 2 ^ (64 / k * k)).
  { rewrite Er at 1. rewrite <- Z.pow_mul_r by lia. f_equal. ring. }
  exists (Z.shiftl 1 (64 / k * k) - 1), (64 / k * k), (64 / k).
  split; [|split; [reflexivity|split; [reflexivity|split; [exact Epow|]]]].
  - unfold print_pow2, floordiv. rewrite <- Ek.
    destruct (radix <=? 0) eqn:E0; [apply Z.leb_le in E0; lia|].
    destruct (k =? 0) eqn:Ez; [apply Z.eqb_eq in Ez; lia|].
    reflexivity.
  - rewrite Z.shiftl_1_l, Epow.
    split; [reflexivity|]. split.
    + intros n. rewrite Z.shiftr_div_pow2 by lia. split; [reflexivity|].
      change (2 ^ (64 / k * k) - 1) with (Z.pred (2 ^ (64 / k * k))).
      rewrite <- Z.ones_equiv. apply Z.land_ones. lia.
    + intros Hle.
      assert (Hk64 : k <= 64).
      { rewrite Er in Hle. apply Z.pow_le_mono_r_iff in Hle; lia. }
      pose proof (Z.div_mod 64 k ltac:(lia)) as Hdm.
      pose proof (Z.mod_pos_bound 64 k ltac:(lia)) as Hmod.
      assert (1 <= 64 / k) by (apply Z.div_le_lower_bound; lia).
      split; [assumption|]. split; [nia|]. split.
      * assert (2 ^ (64 / k * k) <= 2 ^ 64)
          by (apply Z.pow_le_mono_r; nia).
        unfold u64_max. lia.
      * rewrite Er, <- Z.pow_mul_r by lia.
        apply Z.pow_lt_mono_r; nia.
Qed.

(** X11.  [print_pow2] on every radix that [is_pow2] accepts.  The radix
    1, which is [2^0], makes it raise [ZeroDivisionError], for it divides
    64 by the exponent.  Every other accepted radix is at least 2 and a
    power of two, [2^k]: then [digits = 64 // k], [shr = digits * k] and
    [mask = radix^digits - 1], so that [n >> shr] and [n & mask] are the
    quotient and the remainder of [n] by [radix^digits].  For a radix up
    to [2^64] the shift is the largest multiple of [k] up to 64, and the
    mask fits in 64 bits. *)
Theorem print_pow2_constants {M : Libm} (radix : Z) :
  is_pow2 radix = Ok true ->
  let k := Z.log2 radix in
  (radix = 1 /\ print_pow2 radix = Raise ZeroDivisionError) \/
  (2 <= radix /\
   exists mask shr digits,
     print_pow2 radix = Ok (Pow2Divrem radix mask shr digits) /\
     digits = 64 / k /\ shr = digits * k /\
     radix ^ digits = 2 ^ shr /\ mask = radix ^ digits - 1 /\
     (forall n, Z.shiftr n shr = n / radix ^ digits /\
                Z.land n mask = n mod radix ^ digits) /\
     (radix <= 2 ^ 64 ->
      1 <= digits /\ 64 - k < shr <= 64 /\ mask <= u64_max /\
      2 ^ 64 < radix ^ (digits + 1))).
Proof.
  intros Hp k.
  assert (Hradix : radix = 2 ^ int_log2 radix /\ 0 < radix).
  { unfold is_pow2 in Hp.
    destruct (radix <=? 0) eqn:E0; [discriminate|].
    apply Z.leb_gt in E0. injection Hp as Hp. apply Z.eqb_eq in Hp.
    split; assumption. }
  destruct Hradix as [Er Hpos].
  destruct (Z.eq_dec radix 1) as [E1|N1].
  - left. split; [exact E1|].
    assert (E : int_log2 radix = 0).
    { destruct (Z_lt_le_dec (int_log2 radix) 0) as [Hneg|Hk0].
      - rewrite Z.pow_neg_r in Er by assumption. lia.
      - destruct (Z.eq_dec (int_log2 radix) 0) as [|Hne]; [assumption|].
        assert (2 ^ 1 <= 2 ^ int_log2 radix)
          by (apply Z.pow_le_mono_r; lia).
        simpl (2 ^ 1) in *. lia. }
    unfold print_pow2, floordiv. rewrite E.
    destruct (radix <=? 0) eqn:E0; [apply Z.leb_le in E0; lia|].
    reflexivity.
  - right. split; [lia|].
    apply (print_pow2_of_power radix ltac:(lia) Hp).
Qed.

Lemma print_pow2_constants_witness :
  exists mask shr digits,
    print_pow2 (M := exact_libm) 8 = Ok (Pow2Divrem 8 mask shr digits) /\
    digits = 21 /\ shr = 63 /\ mask = 2 ^ 63 - 1.
Proof.
  destruct (print_pow2_constants (M := exact_libm) 8)
    as [[E _]|(_ & mask & shr & digits & Hrun & Hd & Hs & Hpow & Hm & _)].
  - reflexivity.
  - discriminate.
  - exists mask, shr, digits. split; [exact Hrun|].
    assert (Ed : digits = 21) by (rewrite Hd; reflexivity).
    assert (Es : shr = 63) by (rewrite Hs, Ed; reflexivity).
    split; [exact Ed|]. split; [exact Es|].
    rewrite Hm, Hpow, Es. reflexivity.
Defined.

(** X12.  The count that [print_slow] writes normalises the divisor: for
    a divisor of at most 64 bits it is in [0, 63], and shifting the
    divisor left by it sets bit 63 without overflowing 64 bits. *)
Theorem print_slow_normalises (radix divisor digits : Z) :
  1 <= divisor <= u64_max ->
  exists ctlz,
    print_slow radix divisor digits = SlowDivrem radix divisor ctlz digits /\
    ctlz = 63 - Z.log2 divisor /\ 0 <= ctlz <= 63 /\
    2 ^ 63 <= Z.shiftl divisor ctlz <= u64_max.
Proof.
  intros [Hd1 Hd2]. exists (66 - len (bin divisor)).
  split; [reflexivity|].
  rewrite (len_bin divisor) by lia. unfold bit_length.
  destruct (divisor =? 0) eqn:E0; [apply Z.eqb_eq in E0; lia|].
  rewrite Z.abs_eq by lia.
  pose proof (Z.log2_nonneg divisor) as Hl0.
  assert (Hl1 : Z.log2 divisor < 64)
    by (apply Z.log2_lt_pow2; unfold u64_max in Hd2; lia).
  split; [lia|]. split; [lia|].
  replace (66 - (2 + (Z.log2 divisor + 1))) with (63 - Z.log2 divisor) by lia.
  rewrite Z.shiftl_mul_pow2 by lia.
  pose proof (Z.log2_spec divisor ltac:(lia)) as [Hlo Hhi].
  pose proof (pow2_pos (63 - Z.log2 divisor) ltac:(lia)) as Hp.
  assert (E63 : 2 ^ 63 = 2 ^ Z.log2 divisor * 2 ^ (63 - Z.log2 divisor)).
  { rewrite <- Z.pow_add_r by lia. f_equal. lia. }
  assert (E64 : 2 ^ 64
                = 2 ^ Z.succ (Z.log2 divisor) * 2 ^ (63 - Z.log2 divisor)).
  { rewrite <- Z.pow_add_r by lia. f_equal. lia. }
  split.
  - rewrite E63. apply Z.mul_le_mono_nonneg_r; lia.
  - assert (divisor * 2 ^ (63 - Z.log2 divisor) < 2 ^ 64);
      [|unfold u64_max; lia].
    rewrite E64. apply Z.mul_lt_mono_pos_r; lia.
Qed.

Lemma print_slow_normalises_witness :
  exists ctlz,
    print_slow 11 (11 ^ 18) 18 = SlowDivrem 11 (11 ^ 18) ctlz 18 /\
    ctlz = 1.
Proof.
  destruct (print_slow_normalises 11 (11 ^ 18) 18) as (ctlz & Hrun & Hc & _).
  - vm_compute. split; discriminate.
  - exists ctlz. split; [exact Hrun|]. rewrite Hc. reflexivity.
Defined.

(** Whatever the fuel, a result of [choose_multiplier] for 128 bits is
    the multiplier at some shift, and a reciprocal when the bit length
    is not underestimated. *)
Lemma choose_multiplier_result {M : Libm} (fuel : nat)
      (divisor factor factor_shr l : Z) :
  choose_multiplier fuel divisor 128 false = Ok (factor, factor_shr, l) ->
  0 <= ceil_log2 divisor ->
  1 <= divisor /\ l = ceil_log2 divisor /\ 0 <= factor_shr <= l /\
  factor = m_high_at divisor 128 factor_shr /\
  (divisor <= 2 ^ ceil_log2 divisor ->
   reciprocal divisor 128 factor factor_shr).
Proof.
  intros Hrun Hl.
  assert (Hd : 1 <= divisor).
  { unfold choose_multiplier in Hrun.
    destruct (divisor <=? 0) eqn:E0; [discriminate|].
    apply Z.leb_gt in E0. lia. }
  destruct (choose_multiplier_runs divisor Hd Hl)
    as (f & s & Hcm & _ & Hs & Hf & _).
  set (bound := (Z.to_nat (ceil_log2 divisor) + 1)%nat) in *.
  pose proof (choose_multiplier_fuel_mono fuel (Nat.max fuel bound) _ _ _ _
                (Nat.le_max_l _ _) Hrun) as Hmax.
  rewrite (Hcm _ (Nat.le_max_r fuel bound)) in Hmax.
  injection Hmax as <- <- <-.
  split; [assumption|]. split; [reflexivity|]. split; [assumption|].
  split; [assumption|].
  intros Hle.
  destruct (choose_multiplier_reciprocal divisor Hd Hle)
    as (f' & s' & Hcm' & Hrec).
  pose proof (Hcm bound (Nat.le_refl _)) as E1.
  rewrite (Hcm' bound (Nat.le_refl _)) in E1.
  injection E1 as -> ->. exact Hrec.
Qed.

(** X13.  The constants that the generator writes divide exactly.  For a
    Moderate item, [u128_mulhi(n, factor) >> factor_shr] is
    [floor(n / divisor)] for every [n] in [0, 2^128-1], with a factor of
    at most 128 bits and an odd divisor; for a Fast item so is the
    quotient of the two-branch kernel, whose threshold is
    [2^(64 + fast_shr)] with [fast_shr > 0].  The C library must not
    underestimate the divisor's bit length. *)
Theorem generated_constants_divide {M : Libm} (fuel : nat) (radix : Z)
        (i : item) :
  divisor_constant fuel radix = Ok i ->
  (forall divisor, divisor_of i = Some divisor ->
                   divisor <= 2 ^ ceil_log2 divisor) ->
  match i with
  | FastDivrem _ divisor fast fast_shr factor factor_shr _ =>
      fast = 2 ^ (64 + fast_shr) /\ 0 < fast_shr /\
      divisor mod 2 ^ fast_shr = 0 /\ 0 <= factor < 2 ^ 128 /\
      forall n, 0 <= n <= u128_max ->
        fast_quotient n divisor fast fast_shr factor factor_shr = n / divisor
  | ModerateDivrem _ divisor factor factor_shr _ =>
      Z.odd divisor = true /\ 0 <= factor < 2 ^ 128 /\
      forall n, 0 <= n <= u128_max ->
        Z.shiftr (u128_mulhi n factor) factor_shr = n / divisor
  | _ => True
  end.
Proof.
  intros Hrun Hlog.
  destruct (divisor_constant_inv fuel radix _ Hrun)
    as [[_ Hp]|[_ (dg & fs & f & fsh & l & _ & Hfs & Hcm & Hi)]].
  - unfold print_pow2 in Hp. destruct (radix <=? 0); [discriminate|].
    destruct (floordiv 64 (int_log2 radix)); cbn [bind] in Hp;
      try discriminate.
    injection Hp as <-. exact I.
  - set (divisor := radix ^ dg) in *.
    destruct (fast_shift_result _ _ _ Hfs) as (Hnz & Hs & Hs0 & Hs1).
    assert (Hl : forall d, d = divisor -> divisor_of i = Some d ->
                           0 <= ceil_log2 divisor /\
                           divisor <= 2 ^ ceil_log2 divisor).
    { intros d -> Hd. specialize (Hlog _ Hd). split; [|assumption].
      destruct (Z_lt_le_dec (ceil_log2 divisor) 0) as [Hneg|]; [|assumption].
      rewrite Z.pow_neg_r in Hlog by assumption.
      unfold choose_multiplier in Hcm.
      destruct (divisor <=? 0) eqn:E0; [discriminate|].
      apply Z.leb_gt in E0. lia. }
    subst i. destruct (2 ^ 128 <=? f) eqn:E128; [exact I|].
    apply Z.leb_gt in E128.
    destruct (fs =? 0) eqn:Efs; cbn [negb].
    + apply Z.eqb_eq in Efs. subst fs.
      unfold print_moderate in *.
      destruct (Hl divisor eq_refl eq_refl) as [Hl0 Hle].
      destruct (choose_multiplier_result _ _ _ _ _ Hcm Hl0)
        as (Hd & _ & _ & _ & Hrec).
      specialize (Hrec Hle).
      split; [|split].
      * simpl (2 ^ (0 + 1)) in Hs1. rewrite Zmod_odd in Hs1.
        destruct (Z.odd divisor); [reflexivity|contradiction].
      * pose proof Hrec as (Hsh & Hlo & _).
        pose proof (pow2_pos (128 + fsh) ltac:(lia)).
        split; [nia|assumption].
      * intros n Hn. apply (mulhi_shift_exact divisor); assumption || lia.
    + apply Z.eqb_neq in Efs. unfold print_fast in *.
      destruct (Hl divisor eq_refl eq_refl) as [Hl0 Hle].
      destruct (choose_multiplier_result _ _ _ _ _ Hcm Hl0)
        as (Hd & _ & _ & _ & Hrec).
      specialize (Hrec Hle).
      split; [apply Z.shiftl_1_l|]. split; [lia|]. split; [assumption|].
      split.
      * pose proof Hrec as (Hsh & Hlo & _).
        pose proof (pow2_pos (128 + fsh) ltac:(lia)).
        split; [nia|assumption].
      * intros n Hn. unfold fast_quotient.
        destruct (n <? Z.shiftl 1 (64 + fs)).
        -- apply (shifted_quotient n divisor fs); lia || assumption.
        -- apply (mulhi_shift_exact divisor); assumption || lia.
Qed.

Lemma generated_constants_divide_witness :
  fast_quotient u128_max (10 ^ 19) (2 ^ 83) 19
                156927543384667019095894735580191660403 62
  = u128_max / 10 ^ 19.
Proof.
  assert (Hrun : divisor_constant (M := exact_libm) 65 10
                 = Ok (FastDivrem 10 (10 ^ 19) (2 ^ 83) 19
                         156927543384667019095894735580191660403 62 19))
    by (vm_compute; reflexivity).
  pose proof (generated_constants_divide (M := exact_libm) 65 10 _ Hrun)
    as Hdiv.
  cbv beta iota in Hdiv.
  destruct Hdiv as (_ & _ & _ & _ & Hq).
  - intros divisor E. injection E as <-. vm_compute. discriminate.
  - apply Hq. vm_compute. split; discriminate.
Defined.

(** Whatever the fuel, a result of [find_power] is the one that enough
    fuel gives. *)
Lemma find_power_result {M : Libm} (fuel : nat) (radix digits : Z) :
  2 <= radix <= 36 ->
  let L := floor_log u64_max radix in
  1 <= L -> radix ^ (L - 1) <= u64_max < radix ^ (L + 2) ->
  find_power fuel radix = Ok digits ->
  1 <= digits /\ min_valid <= radix ^ digits /\
  radix ^ digits <= u64_max < radix ^ (digits + 1).
Proof.
  intros Hr L HL Hacc Hrun.
  destruct (find_power_run radix Hr HL Hacc)
    as (d & Hrun' & Hd0 & Hmin & Hpow).
  pose proof (find_power_fuel_mono fuel (Nat.max fuel 4) radix digits
                (Nat.le_max_l _ _) Hrun) as Hmax.
  rewrite (Hrun' _ (Nat.le_max_r fuel 4)) in Hmax. injection Hmax as <-.
  split; [|split; assumption].
  destruct (Z.eq_dec d 0) as [->|]; [|lia].
  rewrite Z.pow_0_r in Hmin. unfold min_valid in Hmin. lia.
Qed.

(** A divisor of at most 64 bits has [63 - log2] leading zero bits in a
    64-bit word: shifted left by that count it has bit 63 set and still
    fits. *)
Lemma leading_zeros_normalise (divisor : Z) :
  1 <= divisor <= u64_max ->
  0 <= 63 - Z.log2 divisor <= 63 /\
  2 ^ 63 <= Z.shiftl divisor (63 - Z.log2 divisor) <= u64_max.
Proof.
  intros [Hd1 Hd2].
  pose proof (Z.log2_nonneg divisor) as Hl0.
  assert (Hl1 : Z.log2 divisor < 64)
    by (apply Z.log2_lt_pow2; unfold u64_max in Hd2; lia).
  split; [lia|].
  rewrite Z.shiftl_mul_pow2 by lia.
  pose proof (Z.log2_spec divisor ltac:(lia)) as [Hlo Hhi].
  pose proof (pow2_pos (63 - Z.log2 divisor) ltac:(lia)) as Hp.
  assert (E63 : 2 ^ 63 = 2 ^ Z.log2 divisor * 2 ^ (63 - Z.log2 divisor)).
  { rewrite <- Z.pow_add_r by lia. f_equal. lia. }
  assert (E64 : 2 ^ 64
                = 2 ^ Z.succ (Z.log2 divisor) * 2 ^ (63 - Z.log2 divisor)).
  { rewrite <- Z.pow_add_r by lia. f_equal. lia. }
  split.
  - rewrite E63. apply Z.mul_le_mono_nonneg_r; lia.
  - assert (divisor * 2 ^ (63 - Z.log2 divisor) < 2 ^ 64);
      [|unfold u64_max; lia].
    rewrite E64. apply Z.mul_lt_mono_pos_r; lia.
Qed.

(** C7 (amended).  For every radix routed to the Slow tier, the emitted
    [leading_zero_count] is [64 - bitlength(divisor_value)]: the script
    computes [66 - len(bin(divisor))], and [bin] writes ["0b"] before the
    binary digits.  Where the logarithm of the C library is within one
    unit, the divisor fits in 64 bits, so that the count is in [0, 63] and
    is the number of leading zero bits of the divisor in a 64-bit word:
    shifted left by the count, the divisor has bit 63 set and still fits
    in 64 bits. *)
Theorem slow_leading_zero_count {M : Libm} (fuel : nat)
        (radix radix' divisor ctlz digits : Z) :
  2 <= radix <= 36 ->
  divisor_constant fuel radix = Ok (SlowDivrem radix' divisor ctlz digits) ->
  ctlz = 64 - bit_length divisor /\
  ctlz = 66 - len (bin divisor) /\
  radix' = radix /\ divisor = radix ^ digits /\ 0 < divisor /\
  (let L := floor_log u64_max radix in
   1 <= L -> radix ^ (L - 1) <= u64_max < radix ^ (L + 2) ->
   divisor <= u64_max /\ 0 <= ctlz <= 63 /\
   2 ^ 63 <= Z.shiftl divisor ctlz <= u64_max).
Proof.
  intros Hr Hrun.
  destruct (divisor_constant_inv fuel radix _ Hrun)
    as [[_ Hp]|[_ (dg & fs & f & fsh & l & Hfp & Hfs & _ & Hi)]].
  - unfold print_pow2 in Hp. destruct (radix <=? 0); [discriminate|].
    destruct (floordiv 64 (int_log2 radix)); cbn [bind] in Hp; discriminate.
  - assert (Hslow : SlowDivrem radix' divisor ctlz digits
                    = print_slow radix (radix ^ dg) dg).
    { destruct (2 ^ 128 <=? f); [assumption|].
      destruct (negb (fs =? 0)); discriminate. }
    unfold print_slow in Hslow. cbv zeta in Hslow.
    set (c := 66 - len (bin (radix ^ dg))) in Hslow.
    injection Hslow as -> -> -> ->. subst c.
    assert (Hpos : 0 < radix ^ dg).
    { pose proof (fast_shift_ok_nonzero _ _ _ Hfs) as Hnz.
      assert (0 <= radix ^ dg) by (apply Z.pow_nonneg; lia). lia. }
    rewrite (len_bin _ Hpos).
    split; [lia|]. split; [reflexivity|]. split; [reflexivity|].
    split; [reflexivity|]. split; [assumption|].
    intros L HL Hacc.
    destruct (find_power_result fuel radix dg Hr HL Hacc Hfp)
      as (_ & _ & Hle & _).
    destruct (leading_zeros_normalise (radix ^ dg) ltac:(lia))
      as [Hc Hshift].
    assert (E : 66 - (2 + bit_length (radix ^ dg))
                = 63 - Z.log2 (radix ^ dg)).
    { unfold bit_length.
      destruct (radix ^ dg =? 0) eqn:E0; [apply Z.eqb_eq in E0; lia|].
      rewrite Z.abs_eq by lia. lia. }
    rewrite E. split; [exact Hle|]. split; [exact Hc|exact Hshift].
Qed.

Lemma slow_leading_zero_count_witness :
  divisor_constant (M := shifted_libm 1) 65 3
  = Ok (SlowDivrem 3 (3 ^ 40) 0 40) /\
  0 = 64 - bit_length (3 ^ 40) /\
  3 ^ 40 <= u64_max /\
  2 ^ 63 <= Z.shiftl (3 ^ 40) 0 <= u64_max.
Proof.
  assert (Hrun : divisor_constant (M := shifted_libm 1) 65 3
                 = Ok (SlowDivrem 3 (3 ^ 40) 0 40))
    by (vm_compute; reflexivity).
  split; [exact Hrun|].
  destruct (slow_leading_zero_count (M := shifted_libm 1) 65 3 3 (3 ^ 40) 0 40
              ltac:(lia) Hrun) as (Hc & _ & _ & _ & _ & Hfit).
  split; [exact Hc|].
  destruct Hfit as (Hle & _ & Hshift).
  - vm_compute. discriminate.
  - vm_compute. split; [discriminate|reflexivity].
  - split; [exact Hle|exact Hshift].
Defined.

(** C7 as stated fails: radix 3 is routed to the Slow tier with a 64-bit
    divisor, and the emitted count is 0, not [66 - 64]. *)
Lemma slow_leading_zero_count_counterexample :
  divisor_constant (M := exact_libm) 65 3 = Ok (SlowDivrem 3 (3 ^ 40) 0 40) /\
  bit_length (3 ^ 40) = 64 /\
  0 <> 66 - bit_length (3 ^ 40).
Proof. vm_compute. repeat split; discriminate. Qed.

(** X14.  Every divisor that the generator writes fits in 64 bits and is
    the largest such power of its radix: it is [radix^digits] with
    [digits >= 1], [radix^digits <= 2^64 - 1 < radix^(digits+1)], and its
    cube exceeds [2^128 - 1].  The logarithm of the C library may be off
    by one unit. *)
Theorem generated_divisor_fits_u64 {M : Libm} (fuel : nat)
        (radix divisor : Z) (i : item) :
  2 <= radix <= 36 ->
  let L := floor_log u64_max radix in
  1 <= L -> radix ^ (L - 1) <= u64_max < radix ^ (L + 2) ->
  divisor_constant fuel radix = Ok i -> divisor_of i = Some divisor ->
  divisor = radix ^ digits_of i /\ 1 <= digits_of i /\
  divisor <= u64_max < divisor * radix /\
  u128_max < divisor ^ 3.
Proof.
  intros Hr L HL Hacc Hrun Hdiv.
  destruct (divisor_constant_inv fuel radix _ Hrun)
    as [[_ Hp]|[_ (dg & fs & f & fsh & l & Hfp & _ & _ & Hi)]].
  - unfold print_pow2 in Hp. destruct (radix <=? 0); [discriminate|].
    destruct (floordiv 64 (int_log2 radix)); cbn [bind] in Hp;
      try discriminate.
    injection Hp as <-. discriminate.
  - destruct (find_power_result fuel radix dg Hr HL Hacc Hfp)
      as (Hdg & Hmin & Hle & Hgt).
    assert (E : divisor = radix ^ dg /\ digits_of i = dg).
    { subst i. destruct (2 ^ 128 <=? f); [|destruct (negb (fs =? 0))];
        cbn in Hdiv |- *; split; congruence. }
    destruct E as [-> ->].
    split; [reflexivity|]. split; [assumption|]. split.
    + rewrite pow_radix_succ in Hgt by lia. lia.
    + rewrite cube_unfold.
      pose proof (cube_above _ Hmin).
      assert (0 < (radix ^ dg) ^ 2) by (apply Z.pow_pos_nonneg; lia).
      unfold min_valid in *. nia.
Qed.

Lemma generated_divisor_fits_u64_witness :
  3 ^ 40 <= u64_max < 3 ^ 40 * 3 /\ u128_max < (3 ^ 40) ^ 3.
Proof.
  assert (Hrun : divisor_constant (M := shifted_libm 1) 65 3
                 = Ok (SlowDivrem 3 (3 ^ 40) 0 40))
    by (vm_compute; reflexivity).
  destruct (generated_divisor_fits_u64 (M := shifted_libm 1) 65 3 (3 ^ 40)
              (SlowDivrem 3 (3 ^ 40) 0 40)) as (_ & _ & Hfit & Hcube).
  - lia.
  - vm_compute. discriminate.
  - vm_compute. split; [discriminate|reflexivity].
  - exact Hrun.
  - reflexivity.
  - split; [exact Hfit|exact Hcube].
Defined.

(** ** The whole table *)

Lemma for_each_runs {A B : Type} (f : nat -> A -> result B)
      (P : A -> B -> Prop) (l : list A) :
  (forall a, In a l ->
     exists fuel0 b, P a b /\
       forall fuel, (fuel0 <= fuel)%nat -> f fuel a = Ok b) ->
  exists fuel0 bs,
    Forall2 P l bs /\
    forall fuel, (fuel0 <= fuel)%nat -> for_each (f fuel) l = Ok bs.
Proof.
  induction l as [|a l IH]; intros Hall.
  - exists 0%nat, []. split; [constructor|reflexivity].
  - destruct (Hall a (or_introl eq_refl)) as (fa & b & HP & Ha).
    destruct IH as (fl & bs & HPs & Hl);
      [intros a' Ha'; apply Hall; right; assumption|].
    exists (Nat.max fa fl), (b :: bs). split; [constructor; assumption|].
    intros fuel Hfuel. cbn [for_each].
    rewrite Ha by lia. cbn [bind]. rewrite Hl by lia. reflexivity.
Qed.

Lemma forall2_radix_of (l : list Z) (items : list item) :
  Forall2 (fun radix i => radix_of i = radix) l items ->
  map radix_of items = l /\ List.length items = List.length l.
Proof.
  induction 1 as [|radix i l items E _ [IH1 IH2]]; [split; reflexivity|].
  cbn [map List.length]. rewrite E, IH1, IH2. split; reflexivity.
Qed.

Lemma forall2_nth_error {A B : Type} (P : A -> B -> Prop) (l : list A)
      (bs : list B) :
  Forall2 P l bs ->
  forall k a, nth_error l k = Some a ->
              exists b, nth_error bs k = Some b /\ P a b.
Proof.
  induction 1 as [|a0 b0 l bs H0 _ IH]; intros [|k] a E;
    try discriminate.
  - injection E as <-. exists b0. split; [reflexivity|assumption].
  - apply (IH k a E).
Qed.

Lemma nth_error_radices (radix : Z) :
  2 <= radix <= 36 -> nth_error radices (Z.to_nat (radix - 2)) = Some radix.
Proof.
  intros Hr. unfold radices.
  rewrite nth_error_map, nth_error_nth' with (d := 0%nat)
    by (rewrite length_seq; lia).
  rewrite seq_nth by lia. cbn [option_map]. f_equal. lia.
Qed.

(** C5.  The generator [divisor_constants] raises nothing and writes one
    item, hence one tier, for every radix in [2,36], in that order.  The
    tier of a radix is PowerOfTwo exactly when the radix is a power of two
    (so for 2, 4, 8, 16 and 32); otherwise it is Slow exactly when the
    chosen multiplier is at least [2^128]; otherwise Fast exactly when
    [fast_shift] is not zero; otherwise Moderate.  So the multiplier of a
    Fast or Moderate item is below [2^128].  The C library is assumed to
    find the exponent of a power of two, to return at least 2 for the
    logarithm of [u64_max] and never a negative [log2]. *)
Theorem divisor_constant_tier {M : Libm} :
  (forall radix, 2 <= radix <= 36 ->
     (2 ^ Z.log2 radix = radix -> int_log2 radix = Z.log2 radix) /\
     (2 ^ Z.log2 radix <> radix -> 2 <= floor_log u64_max radix)) ->
  (forall x, 1 <= x -> 0 <= ceil_log2 x) ->
  exists fuel0 items,
    (forall fuel, (fuel0 <= fuel)%nat -> divisor_constants fuel = Ok items) /\
    map radix_of items = radices /\
    forall radix, 2 <= radix <= 36 ->
    exists fuel1 i,
      nth_error items (Z.to_nat (radix - 2)) = Some i /\
      radix_of i = radix /\
      (forall fuel, (fuel1 <= fuel)%nat ->
         divisor_constant fuel radix = Ok i) /\
      (tier_of i = PowerOfTwo <-> exists k, radix = 2 ^ k) /\
      (In radix [2; 4; 8; 16; 32] -> tier_of i = PowerOfTwo) /\
      (tier_of i <> PowerOfTwo ->
       exists digits fast_shr factor factor_shr l,
         (forall fuel, (fuel1 <= fuel)%nat ->
            find_power fuel radix = Ok digits /\
            fast_shift fuel (radix ^ digits) = Ok fast_shr /\
            choose_multiplier fuel (radix ^ digits) 128 false
            = Ok (factor, factor_shr, l)) /\
         (tier_of i = Slow <-> 2 ^ 128 <= factor) /\
         (tier_of i = Fast <-> factor < 2 ^ 128 /\ fast_shr <> 0) /\
         (tier_of i = Moderate <-> factor < 2 ^ 128 /\ fast_shr = 0) /\
         (forall mult, multiplier_of i = Some mult ->
                       mult = factor /\ 0 <= mult < 2 ^ 128)).
Proof.
  intros Hlib Hlog.
  assert (Hround : forall radix, 2 <= radix <= 36 ->
            exists fuel1 i, radix_of i = radix /\
              forall fuel, (fuel1 <= fuel)%nat ->
                           divisor_constant fuel radix = Ok i).
  { intros radix Hr. destruct (Hlib radix Hr) as [Hpow Hfloor].
    destruct (divisor_constant_tier_radix radix Hr Hpow Hfloor Hlog)
      as (fuel1 & i & Hi & Hrun & _).
    exists fuel1, i. split; assumption. }
  destruct (for_each_runs divisor_constant
              (fun radix i =>
                 radix_of i = radix /\
                 exists fuel1, forall fuel, (fuel1 <= fuel)%nat ->
                   divisor_constant fuel radix = Ok i) radices)
    as (fuel0 & items & HP & Hrun).
  { intros radix Hin. unfold radices in Hin.
    apply in_map_iff in Hin as (r & <- & Hin). apply in_seq in Hin.
    destruct (Hround (Z.of_nat r) ltac:(lia)) as (fuel1 & i & Hi & Hrun).
    exists fuel1, i. split; [split; [exact Hi|exists fuel1; exact Hrun]|].
    exact Hrun. }
  exists fuel0, items. split; [exact Hrun|]. split.
  { apply forall2_radix_of.
    apply Forall2_impl with (2 := HP). intros radix i [Hi _]. exact Hi. }
  intros radix Hr.
  destruct (forall2_nth_error _ _ _ HP _ _ (nth_error_radices radix Hr))
    as (i & Hnth & _ & fuel2 & Hrun2).
  destruct (Hlib radix Hr) as [Hpow Hfloor].
  destruct (divisor_constant_tier_radix radix Hr Hpow Hfloor Hlog)
    as (fuel1 & i' & Hall).
  assert (E : i' = i).
  { destruct Hall as (_ & Hrun1 & _).
    specialize (Hrun1 (Nat.max fuel1 fuel2) (Nat.le_max_l _ _)).
    rewrite (Hrun2 (Nat.max fuel1 fuel2) (Nat.le_max_r _ _)) in Hrun1.
    injection Hrun1 as <-. reflexivity. }
  subst i'. exists fuel1, i. split; [exact Hnth|exact Hall].
Qed.

Lemma divisor_constant_tier_witness :
  exists fuel0 items,
    (forall fuel, (fuel0 <= fuel)%nat ->
                  divisor_constants (M := exact_libm) fuel = Ok items) /\
    map radix_of items = radices /\
    exists i, nth_error items 8 = Some i /\ tier_of i = Fast.
Proof.
  destruct (divisor_constant_tier (M := exact_libm))
    as (fuel0 & items & Hrun & Hmap & Hall).
  - intros radix Hr. split; [intros _; reflexivity|intros _].
    pose proof (exact_floor_log_spec radix Hr) as [_ [_ Hgt]].
    cbv zeta in Hgt.
    destruct (Z_le_gt_dec 2 (floor_log (Libm := exact_libm) u64_max radix))
      as [|Hsmall]; [assumption|exfalso].
    assert (radix ^ (floor_log (Libm := exact_libm) u64_max radix + 1)
            <= 36 ^ 2).
    { transitivity (radix ^ 2).
      - apply Z.pow_le_mono_r; lia.
      - apply Z.pow_le_mono_l; lia. }
    assert (36 ^ 2 < u64_max) by reflexivity. lia.
  - intros x _. apply Z.log2_up_nonneg.
  - exists fuel0, items. split; [exact Hrun|]. split; [exact Hmap|].
    destruct (Hall 10 ltac:(lia)) as (fuel1 & i & Hnth & _ & Hrun1 & _).
    exists i. split; [exact Hnth|].
    assert (E65 : divisor_constant (M := exact_libm) 65 10
                  = Ok (FastDivrem 10 (10 ^ 19) (2 ^ 83) 19
                          156927543384667019095894735580191660403 62 19))
      by (vm_compute; reflexivity).
    apply (divisor_constant_fuel_mono 65 (Nat.max fuel1 65)) in E65;
      [|apply Nat.le_max_r].
    rewrite (Hrun1 (Nat.max fuel1 65) (Nat.le_max_l _ _)) in E65.
    injection E65 as ->. reflexivity.
Defined.

(** X15.  [divisor_constants] raises nothing and writes one item per
    radix, for the radices 2 to 36 in increasing order.  The C library
    is only assumed to return at least 2 for the logarithms of
    [u64_max] and never a negative [log2]. *)
Theorem divisor_constants_complete {M : Libm} :
  (forall radix, 2 <= radix <= 36 -> 2 <= floor_log u64_max radix) ->
  (forall x, 1 <= x -> 0 <= ceil_log2 x) ->
  exists fuel0 items,
    (forall fuel, (fuel0 <= fuel)%nat -> divisor_constants fuel = Ok items) /\
    map radix_of items = radices /\
    List.length items = 35%nat /\
    forall k, (k < 35)%nat ->
      radix_of (nth k items (Pow2Divrem 0 0 0 0)) = Z.of_nat k + 2.
Proof.
  intros Hfloor Hlog.
  destruct (for_each_runs divisor_constant
              (fun radix i => radix_of i = radix) radices)
    as (fuel0 & items & HP & Hrun).
  { intros radix Hin. unfold radices in Hin.
    apply in_map_iff in Hin as (r & <- & Hr). apply in_seq in Hr.
    set (radix := Z.of_nat r).
    assert (Hrange : 2 <= radix <= 36) by (unfold radix; lia).
    destruct (is_pow2 radix) as [[|]| |] eqn:Hp.
    - destruct (print_pow2_runs radix ltac:(lia) Hp) as (_ & _ & i & Hi & _).
      exists 0%nat, i. split; [apply (print_pow2_radix _ _ Hi)|].
      intros fuel _. unfold divisor_constant. rewrite Hp. exact Hi.
    - destruct (divisor_constant_runs radix ltac:(lia) Hp
                  (Hfloor radix Hrange) Hlog)
        as (dg & fs & f & fsh & fuel0 & _ & _ & _ & Hrun).
      exists fuel0. eexists.
      split; [|intros fuel Hfuel; apply (Hrun fuel Hfuel)].
      destruct (2 ^ 128 <=? f); [|destruct (negb (fs =? 0))]; reflexivity.
    - unfold is_pow2 in Hp.
      destruct (radix <=? 0) eqn:E0; [apply Z.leb_le in E0; lia|].
      discriminate.
    - unfold is_pow2 in Hp. destruct (radix <=? 0); discriminate. }
  destruct (forall2_radix_of _ _ HP) as [Hmap Hlen].
  exists fuel0, items. split; [exact Hrun|]. split; [exact Hmap|].
  split; [rewrite Hlen; reflexivity|].
  intros k Hk.
  rewrite <- (map_nth radix_of items (Pow2Divrem 0 0 0 0) k), Hmap.
  cbn [radix_of]. unfold radices.
  change 0 with (Z.of_nat 0) at 1. rewrite map_nth, seq_nth by assumption.
  lia.
Qed.

Lemma divisor_constants_complete_witness :
  exists fuel0 items,
    (forall fuel, (fuel0 <= fuel)%nat ->
                  divisor_constants (M := exact_libm) fuel = Ok items) /\
    List.length items = 35%nat.
Proof.
  destruct (divisor_constants_complete (M := exact_libm))
    as (fuel0 & items & Hrun & _ & Hlen & _).
  - intros radix Hr.
    pose proof (exact_floor_log_spec radix Hr) as [_ [_ Hgt]].
    cbv zeta in Hgt.
    destruct (Z_le_gt_dec 2 (floor_log (Libm := exact_libm) u64_max radix))
      as [|Hsmall]; [assumption|exfalso].
    assert (radix ^ (floor_log (Libm := exact_libm) u64_max radix + 1)
            <= 36 ^ 2).
    { transitivity (radix ^ 2).
      - apply Z.pow_le_mono_r; lia.
      - apply Z.pow_le_mono_l; lia. }
    assert (36 ^ 2 < u64_max) by reflexivity. lia.
  - intros x _. apply Z.log2_up_nonneg.
  - exists fuel0, items. split; [exact Hrun|exact Hlen].
Defined.

Lemma for_each_ext {A B : Type} (f g : A -> result B) (l : list A) :
  (forall a, In a l -> f a = g a) -> for_each f l = for_each g l.
Proof.
  induction l as [|a l IH]; intros Hall; [reflexivity|].
  cbn [for_each]. rewrite (Hall a (or_introl eq_refl)), IH;
    [reflexivity|].
  intros a' Ha'. apply Hall. right. assumption.
Qed.

(** X16.  The table does not depend on how the C library rounds its
    logarithms.  Let the library be accurate in this coarse sense:
    [int(log2)] finds the exponent of a power of two;
    [floor(log(u64_max, radix))] is within one unit; [log2(x) <= k]
    when [x <= 2^k], and [log2(x) > k] when [x >= 2^k (1 + 2^-20)].
    Then [divisor_constants] returns what it returns with exact
    logarithms. *)
Theorem divisor_constants_rounding_free {M : Libm} (fuel : nat) :
  (4 <= fuel)%nat ->
  (forall radix, 2 <= radix <= 36 ->
     (2 ^ Z.log2 radix = radix -> int_log2 radix = Z.log2 radix) /\
     (2 ^ Z.log2 radix <> radix ->
      let L := floor_log u64_max radix in
      1 <= L /\ radix ^ (L - 1) <= u64_max < radix ^ (L + 2))) ->
  (forall x k, 1 <= x <= 2 ^ k -> ceil_log2 x <= k) ->
  (forall x k, 0 <= k -> 2 ^ k * (2 ^ 20 + 1) <= x * 2 ^ 20 ->
               k < ceil_log2 x) ->
  divisor_constants fuel = divisor_constants (M := exact_libm) fuel.
Proof.
  intros Hfuel Hradix Hle Hgt. unfold divisor_constants.
  apply for_each_ext. intros radix Hin. unfold radices in Hin.
  apply in_map_iff in Hin as (r & <- & Hr). apply in_seq in Hr.
  assert (Hrange : 2 <= Z.of_nat r <= 36) by lia.
  destruct (Hradix _ Hrange) as [Hpow Hfloor].
  apply divisor_constant_rounding_free; assumption.
Qed.

Lemma divisor_constants_rounding_free_witness :
  divisor_constants (M := shifted_libm 1) 65
  = divisor_constants (M := exact_libm) 65.
Proof.
  apply (divisor_constants_rounding_free (M := shifted_libm 1) 65).
  - lia.
  - intros radix Hr. split; [reflexivity|]. intros _.
    destruct (exact_floor_log_spec radix Hr) as [HD [Hlo Hhi]].
    cbn [floor_log shifted_libm]. cbv zeta.
    set (D := floor_log (Libm := exact_libm) u64_max radix) in *.
    replace (D + 1 - 1) with D by lia.
    split; [lia|]. split; [assumption|].
    apply Z.lt_le_trans with (radix ^ (D + 1)); [assumption|].
    apply Z.pow_le_mono_r; lia.
  - intros x k [Hx Hk]. apply Z.log2_up_le_pow2; [lia|assumption].
  - intros x k Hk Hx. cbn [ceil_log2 shifted_libm].
    pose proof (pow2_pos k Hk).
    apply Z.log2_up_lt_pow2; nia.
Defined.

(** X17.  Which radices get the shortcut: a Fast item is written only
    for an even radix and a Moderate item only for an odd one, and the
    shift of a Fast item is [digits] times the number of trailing zero
    bits of the radix. *)
Theorem fast_tier_even_radix {M : Libm} (fuel : nat) (radix : Z) (i : item) :
  2 <= radix ->
  (forall x, 1 <= x -> 0 <= ceil_log2 x) ->
  divisor_constant fuel radix = Ok i ->
  (tier_of i = Moderate -> Z.odd radix = true) /\
  (tier_of i = Fast -> Z.even radix = true) /\
  (forall r divisor fast fast_shr factor factor_shr digits,
     i = FastDivrem r divisor fast fast_shr factor factor_shr digits ->
     exists s, fast_shift (Z.to_nat (Z.log2 radix) + 1) radix = Ok s /\
               fast_shr = digits * s).
Proof.
  intros Hr Hlog Hrun.
  destruct (divisor_constant_inv fuel radix _ Hrun)
    as [[_ Hp]|[_ (dg & fs & f & fsh & l & _ & Hfs & Hcm & Hi)]].
  - unfold print_pow2 in Hp. destruct (radix <=? 0); [discriminate|].
    destruct (floordiv 64 (int_log2 radix)); cbn [bind] in Hp;
      try discriminate.
    injection Hp as <-. repeat split; discriminate.
  - destruct (fast_shift_result _ _ _ Hfs) as (Hnz & Hs & Hs0 & Hs1).
    assert (Hdg : 0 <= dg).
    { destruct (Z_lt_le_dec dg 0) as [Hneg|]; [|assumption].
      rewrite Z.pow_neg_r in Hnz by assumption. contradiction. }
    pose proof (pow_radix_pos radix dg Hr Hdg) as Hpos.
    destruct (choose_multiplier_result _ _ _ _ _ Hcm (Hlog _ Hpos))
      as (_ & _ & Hsh & Hf & _).
    assert (Hdg1 : (2 ^ 128 <=? f) = false -> 1 <= dg).
    { intros E128. apply Z.leb_gt in E128.
      destruct (Z.eq_dec dg 0) as [->|]; [exfalso|lia].
      rewrite Z.pow_0_r in Hf. unfold m_high_at in Hf.
      rewrite Z.div_1_r in Hf.
      assert (2 ^ 128 <= 2 ^ (128 + fsh)) by (apply Z.pow_le_mono_r; lia).
      pose proof (pow2_pos fsh ltac:(lia)). lia. }
    destruct (fast_shift_trailing_zeros radix ltac:(lia))
      as (sr & Hsr & _ & _ & Hrunr).
    rewrite Z.abs_eq in Hrunr by lia.
    pose proof (Hrunr _ (Nat.le_refl _)) as Hradix.
    assert (Efs : fs = dg * sr).
    { pose proof (fast_shift_pow radix dg sr _ Hradix Hdg _ (Nat.le_refl _))
        as Hpow.
      destruct (fast_shift_result _ _ _ Hpow) as (_ & Hp0 & Hp1 & Hp2).
      apply (valuation_unique (radix ^ dg)); lia || assumption. }
    destruct (fast_shift_result _ _ _ Hradix) as (_ & _ & Hr0 & Hr1).
    assert (Hparity : (sr = 0 -> Z.odd radix = true) /\
                      (sr <> 0 -> Z.even radix = true)).
    { split.
      - intros ->. simpl (2 ^ (0 + 1)) in Hr1. rewrite Zmod_odd in Hr1.
        destruct (Z.odd radix); [reflexivity|contradiction].
      - intros Hne. apply Z.mod_divide in Hr0;
          [|pose proof (pow2_pos sr ltac:(lia)); lia].
        destruct Hr0 as [c Hc]. rewrite Hc.
        replace sr with (sr - 1 + 1) by lia. rewrite pow2_succ by lia.
        rewrite Z.mul_assoc, (Z.mul_comm _ 2), <- Z.mul_assoc.
        rewrite Z.even_mul. reflexivity. }
    destruct Hparity as [Hodd Heven].
    subst i. destruct (2 ^ 128 <=? f) eqn:E128;
      [repeat split; discriminate|].
    specialize (Hdg1 eq_refl).
    destruct (fs =? 0) eqn:E0; cbn [negb];
      [apply Z.eqb_eq in E0|apply Z.eqb_neq in E0].
    + split; [intros _; apply Hodd; nia|].
      split; discriminate.
    + split; [discriminate|].
      split; [intros _; apply Heven; nia|].
      intros r divisor fast fast_shr factor factor_shr digits E.
      unfold print_fast in E. injection E as <- <- _ <- <- <- <-.
      exists sr. split; [exact Hradix|exact Efs].
Qed.

Lemma fast_tier_even_radix_witness :
  Z.even 10 = true /\
  exists s, fast_shift (Z.to_nat (Z.log2 10) + 1) 10 = Ok s /\ 19 = 19 * s.
Proof.
  assert (Hrun : divisor_constant (M := exact_libm) 65 10
                 = Ok (FastDivrem 10 (10 ^ 19) (2 ^ 83) 19
                         156927543384667019095894735580191660403 62 19))
    by (vm_compute; reflexivity).
  destruct (fast_tier_even_radix (M := exact_libm) 65 10
              (FastDivrem 10 (10 ^ 19) (2 ^ 83) 19
                 156927543384667019095894735580191660403 62 19))
    as (_ & Heven & Hshift).
  - lia.
  - intros x _. apply Z.log2_up_nonneg.
  - exact Hrun.
  - split; [apply Heven; reflexivity|].
    apply (Hshift _ _ _ _ _ _ _ eq_refl).
Defined.

(* ================================================================= *)
(** ** The floating-point operations of the pipeline *)

(** The conversion to binary64 does not cross a power of two... *)
Lemma to_binary64_le_pow2 (x k : Z) :
  1 <= x <= 2 ^ k -> to_binary64 x <= 2 ^ k.
Proof.
  intros [Hx Hk].
  assert (Hk0 : 0 <= k).
  { destruct (Z_lt_le_dec k 0) as [Hneg|]; [|assumption].
    rewrite Z.pow_neg_r in Hk by assumption. lia. }
  unfold to_binary64. set (e := Z.max (Z.log2 x - 52) 0).
  assert (Hlog : Z.log2 x <= k).
  { rewrite <- (Z.log2_pow2 k Hk0). apply Z.log2_le_mono, Hk. }
  pose proof (Z.log2_nonneg x) as Hlog0.
  assert (He : 0 <= e <= k) by (unfold e; lia).
  pose proof (pow2_pos e ltac:(lia)) as HE.
  destruct (round_half_even_bounds x (2 ^ e) HE) as [[Hl Hu] Hup].
  assert (Ek : 2 ^ k = 2 ^ (k - e) * 2 ^ e).
  { rewrite <- Z.pow_add_r by lia. f_equal. lia. }
  destruct (Z.eq_dec (round_half_even x (2 ^ e)) (x / 2 ^ e + 1)) as [E|NE].
  - specialize (Hup E). rewrite E.
    assert (Hlt : x < 2 ^ k).
    { destruct (Z.eq_dec x (2 ^ k)) as [Ex|]; [|lia].
      rewrite Ex, Ek, Z.mod_mul in Hup by lia. lia. }
    assert (x / 2 ^ e < 2 ^ (k - e)).
    { apply Z.div_lt_upper_bound; [assumption|]. rewrite Z.mul_comm, <- Ek.
      exact Hlt. }
    rewrite Ek. apply Z.mul_le_mono_nonneg_r; lia.
  - replace (round_half_even x (2 ^ e)) with (x / 2 ^ e) by lia.
    pose proof (div_lower x (2 ^ e) HE). lia.
Qed.

(** ... and loses at most one part in [2^52]. *)
Lemma to_binary64_lower (x : Z) :
  1 <= x -> x * (2 ^ 52 - 1) <= to_binary64 x * 2 ^ 52.
Proof.
  intros Hx. unfold to_binary64. set (e := Z.max (Z.log2 x - 52) 0).
  assert (He : 0 <= e) by (unfold e; lia).
  pose proof (pow2_pos e He) as HE.
  destruct (round_half_even_bounds x (2 ^ e) HE) as [[Hl _] _].
  pose proof (div_upper x (2 ^ e) HE) as Hup.
  assert (Hq : x - 2 ^ e < round_half_even x (2 ^ e) * 2 ^ e) by nia.
  assert (Hsmall : 2 ^ e * 2 ^ 52 <= x + 2 ^ 52 - 1).
  { destruct (Z.eq_dec e 0) as [->|Hne]; [simpl (2 ^ 0); lia|].
    assert (Ee : e = Z.log2 x - 52) by (unfold e in *; lia).
    pose proof (Z.log2_spec x ltac:(lia)) as [Hlo _].
    rewrite <- Z.pow_add_r by lia.
    replace (e + 52) with (Z.log2 x) by lia. lia. }
  nia.
Qed.

(** So the library that sees its argument in binary64 is accurate in the
    coarse sense used below. *)
Lemma binary64_ceil_log2_le (x k : Z) :
  1 <= x <= 2 ^ k -> ceil_log2 (Libm := binary64_libm) x <= k.
Proof.
  intros Hx. cbn [ceil_log2 binary64_libm].
  pose proof (to_binary64_le_pow2 x k Hx) as Hle.
  pose proof (to_binary64_lower x ltac:(lia)) as Hlo.
  apply Z.log2_up_le_pow2; [nia|exact Hle].
Qed.

Lemma binary64_ceil_log2_gt (x k : Z) :
  0 <= k -> 2 ^ k * (2 ^ 20 + 1) <= x * 2 ^ 20 ->
  k < ceil_log2 (Libm := binary64_libm) x.
Proof.
  intros Hk Hfar. cbn [ceil_log2 binary64_libm].
  pose proof (pow2_pos k Hk) as HK.
  assert (Hx : 1 <= x) by nia.
  pose proof (to_binary64_lower x Hx) as Hlo.
  assert (Hgt : 2 ^ k < to_binary64 x) by nia.
  apply Z.log2_up_lt_pow2; [lia|exact Hgt].
Qed.

(** The bit length that [binary64_libm] gives for a divisor of at most
    64 bits is an underestimate only just above a power of two, where
    [choose_multiplier] still returns a reciprocal. *)
Lemma binary64_bit_length_usable (divisor : Z) :
  1 <= divisor <= u64_max ->
  let l := ceil_log2 (Libm := binary64_libm) divisor in
  divisor <= 2 ^ l \/
  (0 <= l <= 64 /\ 2 ^ l < divisor /\
   (divisor - 2 ^ l) * 2 ^ 43 <= 2 ^ l).
Proof.
  intros [Hd1 Hd2] l. cbn [ceil_log2 binary64_libm] in l.
  pose proof (to_binary64_lower divisor Hd1) as Hlo.
  assert (Hpos : 0 < to_binary64 divisor) by nia.
  assert (H64 : to_binary64 divisor <= 2 ^ 64)
    by (apply to_binary64_le_pow2; unfold u64_max in Hd2; lia).
  pose proof (Z.log2_up_nonneg (to_binary64 divisor)) as Hl0. fold l in Hl0.
  assert (Hl64 : l <= 64) by (apply Z.log2_up_le_pow2; [exact Hpos|exact H64]).
  assert (Hup : to_binary64 divisor <= 2 ^ l).
  { destruct (Z.eq_dec (to_binary64 divisor) 1) as [E|NE].
    - rewrite E. pose proof (pow2_pos l Hl0). lia.
    - apply (Z.log2_up_spec (to_binary64 divisor)). lia. }
  destruct (Z_le_gt_dec divisor (2 ^ l)) as [Hle|Hgt]; [left; exact Hle|].
  right. split; [lia|]. split; [lia|].
  pose proof (pow2_pos l Hl0). nia.
Qed.

(** So, with that library, [udiv128] divides exactly by every divisor up
    to [2^64 - 1], whatever the rounding of the bit length. *)
Lemma udiv128_binary64 (divisor n : Z) (fuel : nat) :
  1 <= divisor <= u64_max -> 0 <= n <= u128_max -> (65 <= fuel)%nat ->
  udiv128 (M := binary64_libm) fuel n divisor
  = Ok (n / divisor, n - n / divisor * divisor).
Proof.
  intros Hd Hn Hfuel.
  pose proof (binary64_bit_length_usable divisor Hd) as Hlog.
  assert (Hl : 0 <= ceil_log2 (Libm := binary64_libm) divisor <= 64).
  { cbn [ceil_log2 binary64_libm].
    pose proof (to_binary64_lower divisor ltac:(lia)) as Hlo.
    split; [apply Z.log2_up_nonneg|].
    apply Z.log2_up_le_pow2; [nia|].
    apply to_binary64_le_pow2. unfold u64_max in Hd. lia. }
  destruct (choose_multiplier_reciprocal_rounded (M := binary64_libm)
              divisor ltac:(lia) Hlog) as (factor & factor_shr & Hcm & Hrec).
  destruct (fast_shift_trailing_zeros divisor ltac:(lia))
    as (shr & Hshr & Hs0 & Hs1 & Hrun).
  rewrite Z.abs_eq in * by lia.
  assert (Hlog64 : Z.log2 divisor < 64)
    by (apply Z.log2_lt_pow2; unfold u64_max in Hd; lia).
  unfold udiv128. rewrite (Hcm fuel) by lia. cbn [bind].
  rewrite (Hrun fuel) by lia. cbn [bind].
  destruct (n <? Z.shiftl 1 (64 + shr)).
  - destruct (shifted_quotient n divisor shr ltac:(lia) ltac:(lia) Hs0)
      as [Hnz Hquot].
    unfold floordiv. apply Z.eqb_neq in Hnz. rewrite Hnz, Hquot.
    reflexivity.
  - rewrite (mulhi_shift_exact divisor factor factor_shr n) by
        (assumption || lia).
    reflexivity.
Qed.

(** The exponent at which [find_power] starts is that of a valid power,
    when the logarithm is within one unit. *)
Lemma start_power_valid (radix L : Z) :
  2 <= radix <= 36 -> 1 <= L ->
  radix ^ (L - 1) <= u64_max < radix ^ (L + 2) ->
  min_valid <= radix ^ (L - 1).
Proof.
  intros Hr HL [Hlo Hhi].
  replace (L + 2) with (L - 1 + 1 + 1 + 1) in Hhi by lia.
  rewrite !pow_radix_succ in Hhi by lia.
  pose proof (pow_radix_pos radix (L - 1) ltac:(lia) ltac:(lia)) as Hpos.
  assert (Hc : radix * radix * radix <= 36 * 36 * 36)
    by (repeat apply Z.mul_le_mono_nonneg; lia).
  assert (radix ^ (L - 1) * (radix * radix * radix)
          <= radix ^ (L - 1) * (36 * 36 * 36))
    by (apply Z.mul_le_mono_nonneg_l; lia).
  rewrite <- !Z.mul_assoc in Hhi.
  unfold u64_max, min_valid in *. lia.
Qed.

(** The float division of [is_valid] decides the cube test. *)
Lemma is_valid_cube (x : Z) :
  1 <= x <= u64_max -> is_valid x = Ok (u128_max <? x ^ 3).
Proof.
  intros [Hx1 Hx2]. rewrite (is_valid_exact x Hx1).
  apply Z.leb_le in Hx2. rewrite Hx2. cbn [andb]. f_equal.
  rewrite cube_unfold.
  assert (Hsq : 0 < x ^ 2) by (apply Z.pow_pos_nonneg; lia).
  destruct (Z_lt_le_dec x min_valid) as [Hlt|Hge].
  - pose proof (cube_below x ltac:(lia)) as Hb.
    replace (min_valid <=? x) with false by (symmetry; apply Z.leb_gt; lia).
    symmetry. apply Z.ltb_ge. exact Hb.
  - pose proof (cube_above x Hge) as Ha.
    replace (min_valid <=? x) with true by (symmetry; apply Z.leb_le; lia).
    symmetry. apply Z.ltb_lt. unfold min_valid in *. nia.
Qed.

(** C10.  For a radix in [2,36], the floating-point operations of the
    pipeline agree with exact integer arithmetic.  The float division of
    [is_valid], [u128_max / (x**2) < x], decides [x^3 > 2^128 - 1] for
    every [x] in [1, 2^64 - 1].  Let the C library be accurate in a coarse
    sense: [int(log2)] finds the exponent of a power of two,
    [floor(log(u64_max, radix))] is within one unit, [ceil(log2(x)) <= k]
    when [x <= 2^k], and [ceil(log2(x)) > k] when [x >= 2^k (1 + 2^-20)].
    Then the exponent at which [find_power] starts,
    [floor(log(u64_max, radix)) - 1], is not negative, not above the true
    maximum exponent [D] (the one with [radix^D <= 2^64-1 < radix^(D+1)])
    and that of a valid power, and [find_power] returns [D]; the
    [ceil(log2(divisor))] of [choose_multiplier] is the exact ceiling at
    the divisor [radix^D]; and the item that the generator writes is the
    one that an exact library gives, so that no constant depends on the
    rounding. *)
Theorem float_operations_exact {M : Libm} (radix : Z) :
  2 <= radix <= 36 ->
  (2 ^ Z.log2 radix = radix -> int_log2 radix = Z.log2 radix) ->
  (let L := floor_log u64_max radix in
   1 <= L /\ radix ^ (L - 1) <= u64_max < radix ^ (L + 2)) ->
  (forall x k, 1 <= x <= 2 ^ k -> ceil_log2 x <= k) ->
  (forall x k, 0 <= k -> 2 ^ k * (2 ^ 20 + 1) <= x * 2 ^ 20 ->
               k < ceil_log2 x) ->
  let D := floor_log (Libm := exact_libm) u64_max radix in
  let start := floor_log u64_max radix - 1 in
  let divisor := radix ^ D in
  (forall x, 1 <= x <= u64_max -> is_valid x = Ok (u128_max <? x ^ 3)) /\
  (radix ^ D <= u64_max < radix ^ (D + 1) /\
   0 <= start <= D /\
   (forall p, start <= p <= D -> is_valid (radix ^ p) = Ok true) /\
   is_valid (radix ^ (D + 1)) = Ok false /\
   forall fuel, (4 <= fuel)%nat -> find_power fuel radix = Ok D) /\
  (ceil_log2 divisor = Z.log2_up divisor /\
   2 ^ (Z.log2_up divisor - 1) < divisor <= 2 ^ Z.log2_up divisor /\
   forall fuel,
     choose_multiplier fuel divisor 128 false
     = choose_multiplier (M := exact_libm) fuel divisor 128 false) /\
  (forall fuel, (4 <= fuel)%nat ->
     divisor_constant fuel radix
     = divisor_constant (M := exact_libm) fuel radix).
Proof.
  intros Hr Hpow Hfloor Hle Hgt D start divisor.
  destruct Hfloor as [HL Hacc].
  destruct (exact_floor_log_spec radix Hr) as [HD [HD1 HD2]].
  fold D in HD, HD1, HD2.
  pose proof (start_power_valid radix _ Hr HL Hacc) as Hmin.
  fold start in Hmin.
  assert (Hstart : 0 <= start <= D).
  { split; [unfold start; lia|].
    destruct (Z_le_gt_dec start D) as [|Hbig]; [assumption|exfalso].
    assert (radix ^ (D + 1) <= radix ^ start)
      by (apply Z.pow_le_mono_r; lia).
    unfold start in *. lia. }
  split; [exact is_valid_cube|]. split; [|split].
  - split; [split; assumption|]. split; [exact Hstart|]. split; [|split].
    + intros p Hp.
      rewrite is_valid_exact by (apply pow_radix_pos; lia).
      assert (H1 : radix ^ start <= radix ^ p)
        by (apply Z.pow_le_mono_r; lia).
      assert (H2 : radix ^ p <= radix ^ D) by (apply Z.pow_le_mono_r; lia).
      replace (radix ^ p <=? u64_max) with true
        by (symmetry; apply Z.leb_le; lia).
      replace (min_valid <=? radix ^ p) with true
        by (symmetry; apply Z.leb_le; lia).
      reflexivity.
    + rewrite is_valid_exact by (apply pow_radix_pos; lia).
      replace (radix ^ (D + 1) <=? u64_max) with false
        by (symmetry; apply Z.leb_gt; lia).
      reflexivity.
    + intros fuel Hfuel. apply find_power_value; assumption.
  - destruct (generated_divisor_bit_length radix Hr) as (Hk & Hd & Hfar).
    fold D in Hk, Hd, Hfar. fold divisor in Hk, Hd, Hfar.
    assert (E : ceil_log2 divisor = Z.log2_up divisor).
    { pose proof (Hle divisor (Z.log2_up divisor - 1 + 1) Hd).
      pose proof (Hgt divisor (Z.log2_up divisor - 1) Hk Hfar). lia. }
    split; [exact E|]. split.
    + replace (Z.log2_up divisor - 1 + 1) with (Z.log2_up divisor) in Hd
        by lia.
      split; [|lia].
      pose proof (pow2_pos (Z.log2_up divisor - 1) Hk). nia.
    + intros fuel.
      apply (choose_multiplier_ext (M1 := M) (M2 := exact_libm)). exact E.
  - intros fuel Hfuel.
    apply divisor_constant_rounding_free; try assumption.
    intros _. split; assumption.
Qed.

Lemma float_operations_exact_witness :
  is_valid (10 ^ 19) = Ok true /\
  find_power (M := binary64_libm) 4 10 = Ok 19 /\
  ceil_log2 (Libm := binary64_libm) (10 ^ 19) = Z.log2_up (10 ^ 19) /\
  divisor_constant (M := binary64_libm) 65 10
  = divisor_constant (M := exact_libm) 65 10.
Proof.
  destruct (float_operations_exact (M := binary64_libm) 10)
    as (Hvalid & (_ & _ & _ & _ & Hfind) & (Hlog & _) & Hitem).
  - lia.
  - vm_compute. discriminate.
  - vm_compute. repeat split; discriminate || reflexivity.
  - exact binary64_ceil_log2_le.
  - exact binary64_ceil_log2_gt.
  - split; [apply Hvalid; vm_compute; split; discriminate|].
    split; [apply (Hfind 4%nat); lia|].
    split; [exact Hlog|]. apply Hitem. lia.
Defined.
